(** * Apeiron 2.0: streaming normalisation and conversation synchronisation

    A shallow embedding of the core of [src/App.tsx]: citation extraction and
    merging, the per-model context filter, the three server-sent-event
    stream loops, the provider dispatch and the turn-level stop operation,
    together with the properties the specification states about them. *)

From Stdlib Require Import List Bool Arith NArith ZArith Lia String Ascii.
From Stdlib Require Strings.Byte.
Import ListNotations.

Set Warnings "-register-all".

(** ** JavaScript strings

    A JavaScript string is a finite sequence of UTF-16 code units. *)

Module JS.

Definition char := N.
Definition jsstring := list char.

(** An ASCII literal of the source, as code units. *)
Definition lit (s : string) : jsstring :=
  map N_of_ascii (list_ascii_of_string s).
Arguments lit s%_string.

(** [a === b] on strings. *)
Fixpoint str_eqb (a b : jsstring) : bool :=
  match a, b with
  | [], [] => true
  | x :: a', y :: b' => N.eqb x y && str_eqb a' b'
  | _, _ => false
  end.

(** [a ?? b]: the left operand unless it is [undefined]. *)
Definition nullish {A : Type} (a b : option A) : option A :=
  match a with
  | Some _ => a
  | None => b
  end.

Definition str_empty (s : jsstring) : bool :=
  match s with
  | [] => true
  | _ :: _ => false
  end.

(** [s.startsWith(p)] *)
Fixpoint startsWith (s p : jsstring) : bool :=
  match p, s with
  | [], _ => true
  | x :: p', y :: s' => N.eqb x y && startsWith s' p'
  | _ :: _, [] => false
  end.

(** The characters that [trim] strips and that [\s] matches: ECMAScript's
    WhiteSpace and LineTerminator code points. *)
Definition is_ws (c : char) : bool :=
  ((9 <=? c) && (c <=? 13) || (c =? 32) || (c =? 160) || (c =? 5760)
   || (8192 <=? c) && (c <=? 8202) || (c =? 8232) || (c =? 8233)
   || (c =? 8239) || (c =? 8287) || (c =? 12288) || (c =? 65279))%N.

Fixpoint trimStart (s : jsstring) : jsstring :=
  match s with
  | [] => []
  | c :: rest => if is_ws c then trimStart rest else s
  end.

Definition trimEnd (s : jsstring) : jsstring := rev (trimStart (rev s)).

(** [s.trim()] *)
Definition trim (s : jsstring) : jsstring := trimEnd (trimStart s).

Definition cons_head (c : char) (parts : list jsstring) : list jsstring :=
  match parts with
  | [] => [[c]]
  | p :: ps => (c :: p) :: ps
  end.

(** [s.split(sep)] for a non-empty separator: the separator is searched from
    left to right, a match ends the current piece and the search resumes after
    it.  [skip] counts the characters of a matched separator still to pass. *)
Fixpoint split_from (sep : jsstring) (skip : nat) (s : jsstring) : list jsstring :=
  match s with
  | [] => [[]]
  | c :: rest =>
      match skip with
      | S k => split_from sep k rest
      | O =>
          if startsWith s sep
          then [] :: split_from sep (List.length sep - 1) rest
          else cons_head c (split_from sep 0 rest)
      end
  end.

Definition split (s sep : jsstring) : list jsstring := split_from sep 0 s.

(** [parts.pop()] (the empty string when there is none) and what is left
    of [parts]. *)
Definition pop (parts : list jsstring) : jsstring := last parts [].
Definition popped (parts : list jsstring) : list jsstring := removelast parts.

(** [lines.find(pred)] *)
Definition find_line (pred : jsstring -> bool) (lines : list jsstring) : option jsstring :=
  find pred lines.

(** Values as [JSON.parse] builds them, and [undefined].  Only the truthiness
    of a number is observed by the code, so numbers are kept as integers. *)
Inductive JsVal : Type :=
| JUndefined
| JNull
| JBool (b : bool)
| JNum (z : Z)
| JStr (s : jsstring)
| JArr (items : list JsVal)
| JObj (fields : list (jsstring * JsVal)).

(** [if (v)] *)
Definition truthy (v : JsVal) : bool :=
  match v with
  | JUndefined | JNull => false
  | JBool b => b
  | JNum z => negb (Z.eqb z 0)
  | JStr s => negb (str_empty s)
  | JArr _ | JObj _ => true
  end.

Definition is_nullish (v : JsVal) : bool :=
  match v with
  | JUndefined | JNull => true
  | _ => false
  end.

(** [typeof v === "object"] *)
Definition typeof_object (v : JsVal) : bool :=
  match v with
  | JNull | JArr _ | JObj _ => true
  | _ => false
  end.

(** [a ?? b] on values. *)
Definition coalesce (a b : JsVal) : JsVal := if is_nullish a then b else a.

(** An object built from several members of one name holds the last. *)
Fixpoint lookup_field (k : jsstring) (fields : list (jsstring * JsVal)) : option JsVal :=
  match fields with
  | [] => None
  | (k', v) :: rest =>
      match lookup_field k rest with
      | Some v' => Some v'
      | None => if str_eqb k k' then Some v else None
      end
  end.

(** [v.k] for a value that is neither [null] nor [undefined], and a name [k]
    that no prototype defines (every name the code reads is such a name):
    the member of an object, [undefined] on arrays and primitives. *)
Definition get_prop (v : JsVal) (k : jsstring) : JsVal :=
  match v with
  | JObj fields =>
      match lookup_field k fields with
      | Some x => x
      | None => JUndefined
      end
  | _ => JUndefined
  end.

(** [v[0]] for a value that is neither [null] nor [undefined]. *)
Definition get_index0 (v : JsVal) : JsVal :=
  match v with
  | JArr (x :: _) => x
  | JStr (c :: _) => JStr [c]
  | JObj _ => get_prop v (lit "0")
  | _ => JUndefined
  end.

(** [v?.k] and [v?.[0]] *)
Definition opt_prop (v : JsVal) (k : jsstring) : JsVal :=
  if is_nullish v then JUndefined else get_prop v k.

Definition opt_index0 (v : JsVal) : JsVal :=
  if is_nullish v then JUndefined else get_index0 v.

(** What the code can throw or be rejected with. *)
Inductive Thrown : Type :=
| DomException (name message : jsstring)
| ErrorObject (message : jsstring)
| OtherValue.

End JS.
Import JS.

(** ** Citations and the citation merge: [mergeSources] *)

Module Citations.

(** [type SourceCitation = { url: string; title?: string; content?: string }] *)
Record SourceCitation := mkSource {
  url : jsstring;
  title : option jsstring;
  content : option jsstring
}.

(** A JavaScript [Map<string, SourceCitation>]: keys are unique and kept in
    insertion order; [set] on a present key replaces the value in place. *)
Definition SourceMap := list (jsstring * SourceCitation).

Fixpoint map_get (k : jsstring) (m : SourceMap) : option SourceCitation :=
  match m with
  | [] => None
  | (k', v) :: rest => if str_eqb k k' then Some v else map_get k rest
  end.

Fixpoint map_set (k : jsstring) (v : SourceCitation) (m : SourceMap) : SourceMap :=
  match m with
  | [] => [(k, v)]
  | (k', v') :: rest =>
      if str_eqb k k' then (k, v) :: rest else (k', v') :: map_set k v rest
  end.

Definition map_values (m : SourceMap) : list SourceCitation := map snd m.
Definition map_keys (m : SourceMap) : list jsstring := map fst m.

(** [(existing ?? []).forEach((source) => map.set(source.url, { ...source }))] *)
Definition seed_step (m : SourceMap) (source : SourceCitation) : SourceMap :=
  map_set (url source) source m.

Definition seed (existing : list SourceCitation) : SourceMap :=
  fold_left seed_step existing [].

(** The body of [incoming.forEach]. *)
Definition merge_step (m : SourceMap) (source : SourceCitation) : SourceMap :=
  match map_get (url source) m with
  | None => map_set (url source) source m
  | Some current =>
      map_set (url source)
        {| url := url source;
           title := nullish (title current) (title source);
           content := nullish (content current) (content source) |} m
  end.

(** [existing ?? []] *)
Definition or_empty (existing : option (list SourceCitation)) : list SourceCitation :=
  match existing with
  | Some l => l
  | None => []
  end.

Definition mergeSources (existing : option (list SourceCitation))
    (incoming : list SourceCitation) : list SourceCitation :=
  map_values (fold_left merge_step incoming (seed (or_empty existing))).

(** [typeof v === "string" ? v : undefined] *)
Definition string_or_undefined (v : JsVal) : option jsstring :=
  match v with
  | JStr s => Some s
  | _ => None
  end.

(** [ann.url_citation ?? ann.urlCitation ?? ann] *)
Definition probed_citation (ann : JsVal) : JsVal :=
  coalesce (coalesce (get_prop ann (lit "url_citation"))
                     (get_prop ann (lit "urlCitation"))) ann.

(** [extractSources]: the callback of [annotations.flatMap]. *)
Definition extract_annotation (annotation : JsVal) : list SourceCitation :=
  if negb (truthy annotation) || negb (typeof_object annotation) then []
  else
    let ann := annotation in
    let citation := probed_citation ann in
    let url :=
      match get_prop citation (lit "url") with
      | JStr s => s
      | _ => match get_prop ann (lit "url") with
             | JStr s => s
             | _ => []
             end
      end in
    if str_empty url then []
    else
      let title := string_or_undefined (get_prop citation (lit "title")) in
      let content := string_or_undefined (get_prop citation (lit "content")) in
      [{| url := url; title := title; content := content |}].

Definition extractSources (annotations : JsVal) : list SourceCitation :=
  match annotations with
  | JArr items => flat_map extract_annotation items
  | _ => []
  end.

(** The entry of a citation list for a given url (the first one). *)
Fixpoint find_url (u : jsstring) (l : list SourceCitation) : option SourceCitation :=
  match l with
  | [] => None
  | c :: rest => if str_eqb u (url c) then Some c else find_url u rest
  end.

(** The urls of a list in order of first occurrence. *)
Fixpoint mem (u : jsstring) (l : list jsstring) : bool :=
  match l with
  | [] => false
  | x :: rest => str_eqb u x || mem u rest
  end.

Fixpoint dedupe_from (seen : list jsstring) (l : list jsstring) : list jsstring :=
  match l with
  | [] => []
  | x :: rest =>
      if mem x seen then dedupe_from seen rest
      else x :: dedupe_from (seen ++ [x]) rest
  end.

Definition first_occurrences (l : list jsstring) : list jsstring := dedupe_from [] l.

(** A map is well formed when every value is stored under its own url and
    no key occurs twice. *)
Definition well_formed (m : SourceMap) : Prop :=
  NoDup (map_keys m) /\ Forall (fun kv => url (snd kv) = fst kv) m.

(** A map absorbs a citation when merging the citation in changes nothing:
    its url is present and its fields add nothing to the entry. *)
Definition absorbs (m : SourceMap) (s : SourceCitation) : Prop :=
  exists current,
    map_get (url s) m = Some current
    /\ url current = url s
    /\ nullish (title current) (title s) = title current
    /\ nullish (content current) (content s) = content current.

(** The first value that is present among [first] and then [more]. *)
Definition first_present (first : option jsstring) (more : list (option jsstring))
    : option jsstring :=
  fold_left nullish more first.

(** The incoming citations for a url, in order. *)
Definition with_url (u : jsstring) (l : list SourceCitation) : list SourceCitation :=
  filter (fun s => str_eqb u (url s)) l.

(** The claim of the specification on an incoming citation whose url is
    present, in its words: a field is kept whenever it is non-empty and the
    incoming value is adopted otherwise. *)
Definition non_empty (field : option jsstring) : bool :=
  match field with
  | Some (_ :: _) => true
  | _ => false
  end.

Definition keep_non_empty (current incoming : option jsstring) : option jsstring :=
  if non_empty current then current else incoming.

Definition keeps_non_empty_fields (existing : list SourceCitation)
    (source : SourceCitation) : Prop :=
  forall current,
    find_url (url source) (rev existing) = Some current ->
    find_url (url source) (mergeSources (Some existing) [source])
    = Some {| url := url source;
              title := keep_non_empty (title current) (title source);
              content := keep_non_empty (content current) (content source) |}.

(** The claim of the specification on positions, in its words: a url of the
    existing list is found at the same position in the result. *)
Definition keeps_positions (existing incoming : list SourceCitation) : Prop :=
  forall i c,
    nth_error existing i = Some c ->
    exists r,
      nth_error (mergeSources (Some existing) incoming) i = Some r
      /\ url r = url c.

End Citations.

Import Citations.

(** ** Messages, conversations and the context filter: [buildContext] *)

Module Chat.

(** [type ProviderId = keyof typeof PROVIDERS] *)
Inductive ProviderId : Type :=
| openrouter | openai | anthropic | google | mistral | deepseek.

Definition provider_eqb (a b : ProviderId) : bool :=
  match a, b with
  | openrouter, openrouter | openai, openai | anthropic, anthropic
  | google, google | mistral, mistral | deepseek, deepseek => true
  | _, _ => false
  end.

Inductive Role : Type := user | assistant.

Definition role_eqb (a b : Role) : bool :=
  match a, b with
  | user, user | assistant, assistant => true
  | _, _ => false
  end.

Record Attachment := mkAttachment {
  att_name : jsstring;
  att_type : jsstring;
  att_dataUrl : jsstring
}.

(** [type Message]; an optional member is an [option]. *)
Record Message := mkMessage {
  msg_id : jsstring;
  msg_role : Role;
  msg_content : jsstring;
  msg_createdAt : Z;
  msg_modelId : option jsstring;
  msg_providerId : option ProviderId;
  msg_isStreaming : option bool;
  msg_images : option (list jsstring);
  msg_attachments : option (list Attachment);
  msg_sources : option (list SourceCitation)
}.

(** [type Conversation]; [projectId] is a string, [null] or absent. *)
Record Conversation := mkConversation {
  conv_id : jsstring;
  conv_title : jsstring;
  conv_messages : list Message;
  conv_updatedAt : Z;
  conv_projectId : option (option jsstring)
}.

(** [message.modelId === modelId] and [message.providerId === providerId],
    where the member may be [undefined]. *)
Definition modelId_is (m : option jsstring) (modelId : jsstring) : bool :=
  match m with
  | Some x => str_eqb x modelId
  | None => false
  end.

Definition providerId_is (p : option ProviderId) (providerId : ProviderId) : bool :=
  match p with
  | Some x => provider_eqb x providerId
  | None => false
  end.

Definition keep_in_context (modelId : jsstring) (providerId : ProviderId)
    (message : Message) : bool :=
  if role_eqb (msg_role message) user then true
  else if role_eqb (msg_role message) assistant
          && modelId_is (msg_modelId message) modelId
          && providerId_is (msg_providerId message) providerId then true
  else false.

Definition buildContext (messages : list Message) (modelId : jsstring)
    (providerId : ProviderId) : list Message :=
  filter (keep_in_context modelId providerId) messages.

End Chat.
Import Chat.

(** ** The stream loops of the three adapters and the provider dispatch *)

Module Stream.

Definition byte := Byte.byte.
Definition chunk := list byte.

(** The callbacks an adapter invokes, in order: [onToken], [onAnnotations]
    and [onImage], each with its argument. *)
Inductive Event : Type :=
| Token (delta : JsVal)
| Annotations (annotations : JsVal)
| Image (url : JsVal).

(** What the body of the [for] loop does with one part: go on with the next
    part (having invoked the callbacks [evs]) or [return]. *)
Inductive PartStep : Type :=
| Next (evs : list Event)
| Return.

(** What [reader.read()] resolves to, one entry per call; once the list is
    exhausted the reader reports [done]. *)
Inductive ReadResult : Type :=
| Chunk (value : chunk)
| ReadFailure (e : Thrown).

Inductive Outcome : Type :=
| Done
| Returned
| Rejected (e : Thrown).

(** A run of an adapter: the parts the [for] loop visited, the callbacks
    invoked, how the function ended and what was left unread. *)
Record StreamResult := mkResult {
  parts_seen : list jsstring;
  events : list Event;
  outcome : Outcome;
  unread : list ReadResult
}.

Record Response := mkResponse {
  resp_ok : bool;
  resp_body : option (list ReadResult);
  resp_text : jsstring
}.

Record Request := mkRequest {
  req_url : jsstring;
  req_method : jsstring;
  req_headers : list (jsstring * jsstring);
  req_signal : option nat
}.

Inductive ProviderType : Type := TypeOpenAI | TypeAnthropic | TypeGoogle.

Record Provider := mkProvider {
  provider_id : jsstring;
  provider_name : jsstring;
  provider_type : ProviderType;
  provider_baseUrl : jsstring
}.

(** [const PROVIDERS] *)
Definition PROVIDERS (p : ProviderId) : Provider :=
  match p with
  | openrouter => mkProvider (lit "openrouter") (lit "OpenRouter") TypeOpenAI
                    (lit "https://openrouter.ai/api/v1")
  | openai => mkProvider (lit "openai") (lit "OpenAI") TypeOpenAI
                (lit "https://api.openai.com/v1")
  | anthropic => mkProvider (lit "anthropic") (lit "Anthropic") TypeAnthropic
                   (lit "https://api.anthropic.com/v1")
  | google => mkProvider (lit "google") (lit "Google") TypeGoogle
                (lit "https://generativelanguage.googleapis.com/v1beta")
  | mistral => mkProvider (lit "mistral") (lit "Mistral") TypeOpenAI
                 (lit "https://api.mistral.ai/v1")
  | deepseek => mkProvider (lit "deepseek") (lit "DeepSeek") TypeOpenAI
                  (lit "https://api.deepseek.com/v1")
  end.

Record Plugin := mkPlugin {
  plugin_id : jsstring;
  plugin_max_results : option Z;
  plugin_search_prompt : option jsstring;
  plugin_engine : option jsstring
}.

(** The options of [streamProviderResponse].  The callbacks are the sinks of
    the [Event]s; of the two optional ones only the presence is recorded. *)
Record Options := mkOptions {
  opt_providerId : ProviderId;
  opt_apiKey : jsstring;
  opt_model : jsstring;
  opt_messages : list Message;
  opt_systemPrompt : option jsstring;
  opt_onImage : bool;
  opt_onAnnotations : bool;
  opt_supportsImages : option bool;
  opt_signal : option nat;
  opt_plugins : option (list Plugin)
}.

Record OpenAIOptions := mkOpenAIOptions {
  oa_apiKey : jsstring;
  oa_baseUrl : jsstring;
  oa_model : jsstring;
  oa_messages : list Message;
  oa_systemPrompt : option jsstring;
  oa_onImage : bool;
  oa_onAnnotations : bool;
  oa_supportsImages : option bool;
  oa_signal : option nat;
  oa_plugins : option (list Plugin)
}.

(** The options of [streamAnthropic] and of [streamGoogle]. *)
Record PlainOptions := mkPlainOptions {
  po_apiKey : jsstring;
  po_model : jsstring;
  po_messages : list Message;
  po_systemPrompt : option jsstring;
  po_signal : option nat
}.

(** The frame delimiter ["\n\n"] and the line delimiter ["\n"]. *)
Definition blank_line : jsstring := [10%N; 10%N].
Definition newline : jsstring := [10%N].

(** [line.replace(/^data:\s*/, empty)]: a leading [data:] and the white
    space after it are removed. *)
Definition strip_data_prefix (line : jsstring) : jsstring :=
  if startsWith line (lit "data:") then trimStart (skipn 5 line) else line.

(** The payload of a part in [streamOpenAICompatible] and [streamGoogle]:
    the part is trimmed; unless it starts with [data:] the loop continues;
    the payload is the line with that prefix stripped, trimmed. *)
Definition part_data (part : jsstring) : option jsstring :=
  let line := trim part in
  if negb (startsWith line (lit "data:")) then None
  else Some (trim (strip_data_prefix line)).

(** The payload of an event in [streamAnthropic]:
    the event is split into lines; the first line that starts with [data:]
    is taken, and without one the loop continues; the payload is that line
    with the prefix stripped, trimmed. *)
Definition event_data (event : jsstring) : option jsstring :=
  let lines := split event newline in
  match find_line (fun line => startsWith line (lit "data:")) lines with
  | None => None
  | Some dataLine => Some (trim (strip_data_prefix dataLine))
  end.

(** [for (const img of images)] of [streamOpenAICompatible].  A string is
    iterated character by character and no character has a [url]; iterating
    any other value that is not an array throws, inside the [try]. *)
Definition image_events (images : JsVal) : list Event :=
  match images with
  | JArr items =>
      flat_map (fun img =>
        let url := coalesce (opt_prop (opt_prop img (lit "image_url")) (lit "url"))
                            (opt_prop img (lit "url")) in
        if truthy url then [Image url] else []) items
  | _ => []
  end.

(** The [try] block of [streamOpenAICompatible] after [JSON.parse].  Reading
    [json.choices] of [null] throws, which the [catch] swallows. *)
Definition openai_events (onAnnotations onImage : bool) (json : JsVal) : list Event :=
  if is_nullish json then []
  else
    let choice := opt_index0 (get_prop json (lit "choices")) in
    let delta := opt_prop (opt_prop choice (lit "delta")) (lit "content") in
    let annotations :=
      coalesce
        (coalesce (opt_prop (opt_prop choice (lit "delta")) (lit "annotations"))
                  (opt_prop (opt_prop choice (lit "message")) (lit "annotations")))
        (opt_prop (opt_index0 (opt_prop (opt_prop choice (lit "message")) (lit "content")))
                  (lit "annotations")) in
    let images :=
      coalesce (opt_prop (opt_prop choice (lit "delta")) (lit "images"))
               (opt_prop (opt_prop choice (lit "message")) (lit "images")) in
    (if truthy delta then [Token delta] else [])
    ++ (if truthy annotations && onAnnotations then [Annotations annotations] else [])
    ++ (if truthy images && onImage then image_events images else []).

(** The [try] block of [streamAnthropic] after [JSON.parse]. *)
Definition anthropic_events (json : JsVal) : list Event :=
  if is_nullish json then []
  else
    match get_prop json (lit "type") with
    | JStr t =>
        if str_eqb t (lit "content_block_delta") then
          let text := opt_prop (get_prop json (lit "delta")) (lit "text") in
          if truthy text then [Token text] else []
        else []
    | _ => []
    end.

(** The [try] block of [streamGoogle] after [JSON.parse]. *)
Definition google_events (json : JsVal) : list Event :=
  if is_nullish json then []
  else
    let text :=
      opt_prop
        (opt_index0
           (opt_prop (opt_prop (opt_index0 (get_prop json (lit "candidates")))
                               (lit "content"))
                     (lit "parts")))
        (lit "text") in
    if truthy text then [Token text] else [].

(** [for (const part of parts)]: the parts visited, the callbacks invoked and
    whether the loop was left by [return]. *)
Fixpoint for_parts (handle : jsstring -> PartStep) (parts : list jsstring)
    : list jsstring * list Event * bool :=
  match parts with
  | [] => ([], [], false)
  | part :: rest =>
      match handle part with
      | Return => ([part], [], true)
      | Next evs =>
          let '(seen, more, returned) := for_parts handle rest in
          (part :: seen, evs ++ more, returned)
      end
  end.

Section Platform.

(** [new TextDecoder("utf-8")] used with [{ stream: true }]: a machine that
    consumes one byte at a time, keeps the bytes of an unfinished character
    in its state and emits the code units that are complete. *)
Variable DecoderState : Type.
Variable decoder_init : DecoderState.
Variable decode_byte : DecoderState -> byte -> DecoderState * jsstring.

(** [JSON.parse]; [None] when it throws. *)
Variable JSON_parse : jsstring -> option JsVal.

(** [decoder.decode(value, { stream: true })] *)
Fixpoint decode (st : DecoderState) (value : chunk) : DecoderState * jsstring :=
  match value with
  | [] => (st, [])
  | b :: rest =>
      let (st1, out1) := decode_byte st b in
      let (st2, out2) := decode st1 rest in
      (st2, out1 ++ out2)
  end.

(** The body of the [for] loop of [streamOpenAICompatible]. *)
Definition openai_part (onAnnotations onImage : bool) (part : jsstring) : PartStep :=
  match part_data part with
  | None => Next []
  | Some data =>
      if str_eqb data (lit "[DONE]") then Return
      else
        match JSON_parse data with
        | Some json => Next (openai_events onAnnotations onImage json)
        | None => Next []
        end
  end.

(** The body of the [for] loop of [streamAnthropic]. *)
Definition anthropic_part (event : jsstring) : PartStep :=
  match event_data event with
  | None => Next []
  | Some data =>
      match JSON_parse data with
      | Some json => Next (anthropic_events json)
      | None => Next []
      end
  end.

(** The body of the [for] loop of [streamGoogle]. *)
Definition google_part (part : jsstring) : PartStep :=
  match part_data part with
  | None => Next []
  | Some data =>
      match JSON_parse data with
      | Some json => Next (google_events json)
      | None => Next []
      end
  end.

(** [while (true)]: the loop the three adapters share, word for word, up to
    the body of the inner [for]. *)
Fixpoint read_loop (handle : jsstring -> PartStep) (reader : list ReadResult)
    (decoder : DecoderState) (buffer : jsstring) : StreamResult :=
  match reader with
  | [] => mkResult [] [] Done []
  | ReadFailure e :: rest => mkResult [] [] (Rejected e) rest
  | Chunk value :: rest =>
      let (decoder', text) := decode decoder value in
      let parts := split (buffer ++ text) blank_line in
      let buffer' := pop parts in
      match for_parts handle (popped parts) with
      | (seen, evs, true) => mkResult seen evs Returned rest
      | (seen, evs, false) =>
          let r := read_loop handle rest decoder' buffer' in
          mkResult (seen ++ parts_seen r) (evs ++ events r) (outcome r) (unread r)
      end
  end.

(** From the result of [fetch] on: the check of the response, then the loop
    with a fresh decoder and an empty buffer. *)
Definition read_response (handle : jsstring -> PartStep)
    (fetched : Thrown + Response) : StreamResult :=
  match fetched with
  | inl e => mkResult [] [] (Rejected e) []
  | inr response =>
      match resp_ok response, resp_body response with
      | true, Some reader => read_loop handle reader decoder_init []
      | _, _ =>
          let errorText := resp_text response in
          mkResult [] []
            (Rejected (ErrorObject
               (if str_empty errorText then lit "Request failed" else errorText)))
            []
      end
  end.

(** The network: what [fetch] gives for a request. *)
Variable fetch : Request -> Thrown + Response.

(** An adapter gives the requests it issued and the run of its loop. *)
Definition streamOpenAICompatible (options : OpenAIOptions)
    : list Request * StreamResult :=
  let request :=
    mkRequest (oa_baseUrl options ++ lit "/chat/completions") (lit "POST")
      [(lit "Content-Type", lit "application/json");
       (lit "Authorization", lit "Bearer " ++ oa_apiKey options)]
      (oa_signal options) in
  ([request],
   read_response (openai_part (oa_onAnnotations options) (oa_onImage options))
     (fetch request)).

Definition streamAnthropic (options : PlainOptions) : list Request * StreamResult :=
  let request :=
    mkRequest (provider_baseUrl (PROVIDERS anthropic) ++ lit "/messages") (lit "POST")
      [(lit "Content-Type", lit "application/json");
       (lit "x-api-key", po_apiKey options);
       (lit "anthropic-version", lit "2023-06-01")]
      (po_signal options) in
  ([request], read_response anthropic_part (fetch request)).

Definition streamGoogle (options : PlainOptions) : list Request * StreamResult :=
  let request :=
    mkRequest
      (provider_baseUrl (PROVIDERS google) ++ lit "/models/" ++ po_model options
         ++ lit ":streamGenerateContent?alt=sse&key=" ++ po_apiKey options)
      (lit "POST")
      [(lit "Content-Type", lit "application/json")]
      (po_signal options) in
  ([request], read_response google_part (fetch request)).

Definition streamProviderResponse (options : Options) : list Request * StreamResult :=
  if str_empty (opt_apiKey options) then
    ([], mkResult [] [] (Rejected (ErrorObject (lit "Missing API key for provider."))) [])
  else
    let provider := PROVIDERS (opt_providerId options) in
    match provider_type provider with
    | TypeOpenAI =>
        streamOpenAICompatible
          (mkOpenAIOptions (opt_apiKey options) (provider_baseUrl provider)
             (opt_model options) (opt_messages options) (opt_systemPrompt options)
             (opt_onImage options) (opt_onAnnotations options)
             (opt_supportsImages options) (opt_signal options) (opt_plugins options))
    | TypeAnthropic =>
        streamAnthropic
          (mkPlainOptions (opt_apiKey options) (opt_model options)
             (opt_messages options) (opt_systemPrompt options) (opt_signal options))
    | TypeGoogle =>
        streamGoogle
          (mkPlainOptions (opt_apiKey options) (opt_model options)
             (opt_messages options) (opt_systemPrompt options) (opt_signal options))
    end.

End Platform.

Arguments decode {DecoderState} decode_byte st value.
Arguments read_loop {DecoderState} decode_byte handle reader decoder buffer.
Arguments read_response {DecoderState} decoder_init decode_byte handle fetched.
Arguments streamOpenAICompatible {DecoderState} decoder_init decode_byte
  JSON_parse fetch options.
Arguments streamAnthropic {DecoderState} decoder_init decode_byte
  JSON_parse fetch options.
Arguments streamGoogle {DecoderState} decoder_init decode_byte
  JSON_parse fetch options.
Arguments streamProviderResponse {DecoderState} decoder_init decode_byte
  JSON_parse fetch options.

(** The callbacks one part invokes. *)
Definition part_events (step : PartStep) : list Event :=
  match step with
  | Next evs => evs
  | Return => []
  end.

(** What a run shows to its caller: the parts visited, the callbacks invoked
    and how it ended. *)
Definition summary (r : StreamResult) : list jsstring * list Event * Outcome :=
  (parts_seen r, events r, outcome r).

(** The same for a [for] loop over all the complete parts of a text. *)
Definition loop_summary (l : list jsstring * list Event * bool)
    : list jsstring * list Event * Outcome :=
  let '(seen, evs, returned) := l in
  (seen, evs, if returned then Returned else Done).

(** The complete parts of a text: all the pieces but the last. *)
Definition complete_parts (text : jsstring) : list jsstring :=
  popped (split text blank_line).

End Stream.
Import Stream.

(** ** The supervisor: [stopStreaming] and the end of a task in [sendMessage] *)

Module Supervisor.

(** The state the component keeps: the conversations, the id of the active
    one, the registry [abortControllersRef.current] from message id to
    controller, and the controllers whose signal has been aborted. *)
Record AppState := mkApp {
  conversations : list Conversation;
  activeConversationId : option jsstring;
  abortControllers : list (jsstring * nat);
  aborted : list nat
}.

(** [conversations.find((c) => c.id === activeConversationId) ?? null] *)
Definition activeConversation (st : AppState) : option Conversation :=
  match activeConversationId st with
  | None => None
  | Some active => find (fun c => str_eqb (conv_id c) active) (conversations st)
  end.

Definition updateConversation (conversationId : jsstring)
    (updater : Conversation -> Conversation) (st : AppState) : AppState :=
  mkApp
    (map (fun conversation =>
            if str_eqb (conv_id conversation) conversationId
            then updater conversation else conversation)
         (conversations st))
    (activeConversationId st) (abortControllers st) (aborted st).

(** [{ ...message, isStreaming: b }] *)
Definition with_isStreaming (message : Message) (b : bool) : Message :=
  mkMessage (msg_id message) (msg_role message) (msg_content message)
    (msg_createdAt message) (msg_modelId message) (msg_providerId message)
    (Some b) (msg_images message) (msg_attachments message) (msg_sources message).

(** [{ ...msg, content: c, isStreaming: false }] *)
Definition with_error (message : Message) (c : jsstring) : Message :=
  mkMessage (msg_id message) (msg_role message) c
    (msg_createdAt message) (msg_modelId message) (msg_providerId message)
    (Some false) (msg_images message) (msg_attachments message) (msg_sources message).

(** [{ ...conversation, messages: f(conversation.messages), updatedAt: now }] *)
Definition with_messages (conversation : Conversation)
    (f : Message -> Message) (now : Z) : Conversation :=
  mkConversation (conv_id conversation) (conv_title conversation)
    (map f (conv_messages conversation)) now (conv_projectId conversation).

(** [if (message.isStreaming)] on an optional boolean. *)
Definition streaming (message : Message) : bool :=
  match msg_isStreaming message with
  | Some true => true
  | _ => false
  end.

(** [stopStreaming], at time [now]. *)
Definition stopStreaming (now : Z) (st : AppState) : AppState :=
  let st1 :=
    mkApp (conversations st) (activeConversationId st) []
      (map snd (abortControllers st) ++ aborted st) in
  match activeConversation st with
  | None => st1
  | Some active =>
      updateConversation (conv_id active)
        (fun conversation =>
           with_messages conversation
             (fun message =>
                if streaming message then with_isStreaming message false else message)
             now)
        st1
  end.

(** [error instanceof DOMException && error.name === "AbortError"] *)
Definition is_abort (error : Thrown) : bool :=
  match error with
  | DomException name _ => str_eqb name (lit "AbortError")
  | _ => false
  end.

(** [error instanceof Error ? error.message : "Unknown error"] *)
Definition error_message (error : Thrown) : jsstring :=
  match error with
  | DomException _ message => message
  | ErrorObject message => message
  | OtherValue => lit "Unknown error"
  end.

(** [abortControllersRef.current.delete(id)] *)
Definition delete_controller (id : jsstring) (st : AppState) : AppState :=
  mkApp (conversations st) (activeConversationId st)
    (filter (fun entry => negb (str_eqb (fst entry) id)) (abortControllers st))
    (aborted st).

(** What a task of [sendMessage] does once [streamProviderResponse] has
    settled with [result], for its message [assistantId] of the conversation
    [conversationId]: the [catch] block, or the lines after the [try]. *)
Definition finish_task (conversationId assistantId : jsstring) (result : Outcome)
    (now : Z) (st : AppState) : AppState :=
  let st1 := delete_controller assistantId st in
  match result with
  | Rejected error =>
      if is_abort error then
        updateConversation conversationId
          (fun conversation =>
             with_messages conversation
               (fun msg =>
                  if str_eqb (msg_id msg) assistantId
                  then with_isStreaming msg false else msg)
               now)
          st1
      else
        let message := error_message error in
        updateConversation conversationId
          (fun conversation =>
             with_messages conversation
               (fun msg =>
                  if str_eqb (msg_id msg) assistantId
                  then with_error msg (lit "Error: " ++ message) else msg)
               now)
          st1
  | Done | Returned =>
      updateConversation conversationId
        (fun conversation =>
           with_messages conversation
             (fun message =>
                if str_eqb (msg_id message) assistantId
                then with_isStreaming message false else message)
             now)
        st1
  end.

(** A message after [stopStreaming], compared with the message before. *)
Definition stopped (before after : Message) : Prop :=
  (msg_isStreaming before = Some true -> msg_isStreaming after = Some false)
  /\ (msg_isStreaming before <> Some true -> after = before)
  /\ msg_id after = msg_id before
  /\ msg_role after = msg_role before
  /\ msg_content after = msg_content before
  /\ msg_createdAt after = msg_createdAt before
  /\ msg_modelId after = msg_modelId before
  /\ msg_providerId after = msg_providerId before
  /\ msg_images after = msg_images before
  /\ msg_attachments after = msg_attachments before
  /\ msg_sources after = msg_sources before.

End Supervisor.
Import Supervisor.

(** ** The UTF-8 decoder

    The decoder that [TextDecoder("utf-8")] runs, after the Encoding
    standard: a byte either completes a character, which is emitted as one
    or two code units, or is kept in the state; a byte that cannot continue
    the pending character gives U+FFFD and is decoded afresh; a byte order
    mark at the start is dropped. *)

Module Utf8.

Local Open Scope N_scope.

Record State := mkState {
  code_point : N;
  bytes_seen : N;
  bytes_needed : N;
  lower : N;
  upper : N;
  bom_seen : bool
}.

Definition init : State := mkState 0 0 0 128 191 false.

Definition utf16 (cp : N) : jsstring :=
  if cp <? 65536 then [cp]
  else [55296 + N.shiftr (cp - 65536) 10; 56320 + N.land (cp - 65536) 1023].

Definition emit (bom : bool) (cp : N) : State * jsstring :=
  (mkState 0 0 0 128 191 true,
   if negb bom && (cp =? 65279) then [] else utf16 cp).

Definition lead (bom : bool) (b : N) : State * jsstring :=
  if b <=? 127 then emit bom b
  else if (194 <=? b) && (b <=? 223) then
    (mkState (N.land b 31) 0 1 128 191 bom, [])
  else if (224 <=? b) && (b <=? 239) then
    (mkState (N.land b 15) 0 2
       (if b =? 224 then 160 else 128) (if b =? 237 then 159 else 191) bom, [])
  else if (240 <=? b) && (b <=? 244) then
    (mkState (N.land b 7) 0 3
       (if b =? 240 then 144 else 128) (if b =? 244 then 143 else 191) bom, [])
  else emit bom 65533.

Definition decode_byte (st : State) (byte : Byte.byte) : State * jsstring :=
  let b := Byte.to_N byte in
  if bytes_needed st =? 0 then lead (bom_seen st) b
  else if (b <? lower st) || (upper st <? b) then
    let (st1, out1) := emit (bom_seen st) 65533 in
    let (st2, out2) := lead (bom_seen st1) b in
    (st2, out1 ++ out2)
  else
    let cp := N.lor (N.shiftl (code_point st) 6) (N.land b 63) in
    if bytes_seen st + 1 =? bytes_needed st then emit (bom_seen st) cp
    else (mkState cp (bytes_seen st + 1) (bytes_needed st) 128 191 (bom_seen st), []).

(** The bytes of a text of characters below U+0800. *)
Definition byte_of (n : N) : Byte.byte :=
  match Byte.of_N n with
  | Some b => b
  | None => Byte.x00
  end.

Definition encode (s : jsstring) : list Byte.byte :=
  flat_map (fun c =>
    if c <? 128 then [byte_of c]
    else [byte_of (192 + N.shiftr c 6); byte_of (128 + N.land c 63)]) s.

End Utf8.

(** ** Sample data *)

Module Samples.

Definition cite (u : jsstring) (t c : option jsstring) : SourceCitation :=
  {| url := u; title := t; content := c |}.

(** A citation whose title is the empty string, and a later one for the
    same url with a title. *)
Definition untitled : SourceCitation := cite (lit "https://x.com") (Some []) None.
Definition titled : SourceCitation :=
  cite (lit "https://x.com") (Some (lit "X")) (Some (lit "body")).
Definition other : SourceCitation := cite (lit "https://y.org") None (Some (lit "why")).

(** A log of one user turn answered by two models. *)
Definition message (id : jsstring) (role : Role) (text : jsstring)
    (model : option jsstring) (provider : option ProviderId)
    (streams : option bool) : Message :=
  mkMessage id role text 0 model provider streams None None None.

Definition question : Message :=
  message (lit "m1") user (lit "hello") None None None.
Definition answer_a : Message :=
  message (lit "m2") assistant (lit "from a") (Some (lit "model-a"))
    (Some openrouter) (Some true).
Definition answer_b : Message :=
  message (lit "m3") assistant (lit "from b") (Some (lit "model-b"))
    (Some openrouter) (Some false).
Definition log : list Message := [question; answer_a; answer_b].

(** A stream of the OpenAI-compatible family: a token whose text holds a
    two-byte character, the sentinel, and a token after the sentinel. *)
Definition quoted (s : jsstring) : jsstring := 34%N :: s ++ [34%N].

Definition token_text : jsstring := [72%N; 233%N].

Definition payload : jsstring :=
  lit "{" ++ quoted (lit "choices") ++ lit ":[{" ++ quoted (lit "delta")
    ++ lit ":{" ++ quoted (lit "content") ++ lit ":" ++ quoted token_text
    ++ lit "}}]}".

Definition payload_json : JsVal :=
  JObj [(lit "choices",
         JArr [JObj [(lit "delta", JObj [(lit "content", JStr token_text)])]])].

(** [JSON.parse] on the texts of this stream: the payload is the only one
    that is JSON. *)
Definition parse (s : jsstring) : option JsVal :=
  if str_eqb s payload then Some payload_json else None.

Definition token_frame : jsstring := lit "data: " ++ payload.
Definition broken_frame : jsstring := lit "data: {oops".
Definition done_frame : jsstring := lit "data: [DONE]".

Definition stream_text : jsstring :=
  token_frame ++ blank_line ++ broken_frame ++ blank_line
    ++ done_frame ++ blank_line ++ token_frame ++ blank_line.

Definition stream_bytes : chunk := Utf8.encode stream_text.

(** The stream in one chunk, and cut inside the two-byte character and
    inside the first frame delimiter. *)
Definition cut_at (n : nat) (bytes : chunk) : list chunk :=
  [firstn n bytes; skipn n bytes].

Definition one_chunk : list chunk := [stream_bytes].

Definition three_chunks : list chunk :=
  firstn 41 stream_bytes :: cut_at 7 (skipn 41 stream_bytes).

(** A state with one conversation, active, holding the log, and the
    controllers of its two tasks. *)
Definition conversation : Conversation :=
  mkConversation (lit "c1") (lit "New Chat 1") log 0 (Some None).

Definition app : AppState :=
  mkApp [conversation] (Some (lit "c1")) [(lit "m2", 0%nat); (lit "m3", 1%nat)] [].

End Samples.

(** ** The callbacks of a task and the beginning of a turn: [sendMessage] *)

Module Turn.

(** [{ ...message, content: message.content + token, isStreaming: true }] *)
Definition with_token (message : Message) (token : jsstring) : Message :=
  mkMessage (msg_id message) (msg_role message) (msg_content message ++ token)
    (msg_createdAt message) (msg_modelId message) (msg_providerId message)
    (Some true) (msg_images message) (msg_attachments message) (msg_sources message).

(** [{ ...message, images: [...(message.images ?? []), url], isStreaming: true }] *)
Definition with_image (message : Message) (url : jsstring) : Message :=
  mkMessage (msg_id message) (msg_role message) (msg_content message)
    (msg_createdAt message) (msg_modelId message) (msg_providerId message)
    (Some true)
    (Some (match msg_images message with Some l => l | None => [] end ++ [url]))
    (msg_attachments message) (msg_sources message).

(** [{ ...message, sources: mergeSources(message.sources, incoming),
       isStreaming: true }] *)
Definition with_sources (message : Message) (incoming : list SourceCitation) : Message :=
  mkMessage (msg_id message) (msg_role message) (msg_content message)
    (msg_createdAt message) (msg_modelId message) (msg_providerId message)
    (Some true) (msg_images message) (msg_attachments message)
    (Some (mergeSources (msg_sources message) incoming)).

(** The updater the three callbacks share: the messages of the conversation
    with [f] applied to the one whose id is [assistantId], and the time. *)
Definition for_message (assistantId : jsstring) (f : Message -> Message) (now : Z)
    (conversation : Conversation) : Conversation :=
  with_messages conversation
    (fun message =>
       if str_eqb (msg_id message) assistantId then f message else message)
    now.

Definition onToken (conversationId assistantId token : jsstring) (now : Z)
    (st : AppState) : AppState :=
  updateConversation conversationId
    (for_message assistantId (fun message => with_token message token) now) st.

Definition onImage (conversationId assistantId url : jsstring) (now : Z)
    (st : AppState) : AppState :=
  updateConversation conversationId
    (for_message assistantId (fun message => with_image message url) now) st.

Definition onAnnotations (conversationId assistantId : jsstring)
    (annotations : JsVal) (now : Z) (st : AppState) : AppState :=
  let incoming := extractSources annotations in
  if Nat.eqb (List.length incoming) 0 then st
  else
    updateConversation conversationId
      (for_message assistantId (fun message => with_sources message incoming) now)
      st.

(** The tokens of a task, each with the time of its arrival, one after the
    other. *)
Definition onTokens (conversationId assistantId : jsstring)
    (tokens : list (jsstring * Z)) (st : AppState) : AppState :=
  fold_left
    (fun st' token => onToken conversationId assistantId (fst token) (snd token) st')
    tokens st.

Definition is_line_terminator (c : char) : bool :=
  ((c =? 10) || (c =? 13) || (c =? 8232) || (c =? 8233))%N.

(** [input.replace(/\u200B.*$/, empty)]: the first zero-width space after
    which no line ends, and all that follows it, are removed. *)
Fixpoint strip_interim (input : jsstring) : jsstring :=
  match input with
  | [] => []
  | c :: rest =>
      if (c =? 8203)%N && forallb (fun x => negb (is_line_terminator x)) rest
      then []
      else c :: strip_interim rest
  end.

(** How [sendMessage] begins. *)
Inductive Decision : Type :=
| CreateChat
| Ignore
| OpenSettings
| Dispatch (trimmed : jsstring).

Definition decide_send {Model : Type} (active : option Conversation)
    (input : jsstring) (attachments : list Attachment)
    (availableModels : list Model) : Decision :=
  match active with
  | None => CreateChat
  | Some _ =>
      let trimmed := trim (strip_interim input) in
      if str_empty trimmed && Nat.eqb (List.length attachments) 0 then Ignore
      else if Nat.eqb (List.length availableModels) 0 then OpenSettings
      else Dispatch trimmed
  end.

(** [const userMessage: Message = { id: uid(), role: "user", content: trimmed,
      createdAt: Date.now(), attachments: currentAttachments }] *)
Definition userMessage (id trimmed : jsstring) (now : Z)
    (attachments : list Attachment) : Message :=
  mkMessage id user trimmed now None None None None
    (if Nat.ltb 0 (List.length attachments) then Some attachments else None)
    None.

(** The first update of [sendMessage]: the user message is appended, and a
    conversation without messages takes its title from the text. *)
Definition append_user (message : Message) (trimmed : jsstring) (now : Z)
    (conversation : Conversation) : Conversation :=
  mkConversation (conv_id conversation)
    (if Nat.eqb (List.length (conv_messages conversation)) 0
     then firstn 40 trimmed else conv_title conversation)
    (conv_messages conversation ++ [message]) now (conv_projectId conversation).

(** [const assistantMessage: Message = { id: uid(), role: "assistant",
      content: empty, createdAt: Date.now(), modelId: model.id,
      providerId: model.providerId, isStreaming: true }] *)
Definition assistantMessage (id modelId : jsstring) (providerId : ProviderId)
    (now : Z) : Message :=
  mkMessage id assistant [] now (Some modelId) (Some providerId) (Some true)
    None None None.

(** [buildContext([...baseMessages, userMessage], model.id, model.providerId)] *)
Definition contextMessages (baseMessages : list Message) (message : Message)
    (modelId : jsstring) (providerId : ProviderId) : list Message :=
  buildContext (baseMessages ++ [message]) modelId providerId.

(** [activeConversation?.messages.some((message) => message.isStreaming) ?? false] *)
Definition isStreaming (st : AppState) : bool :=
  match activeConversation st with
  | Some conversation => existsb streaming (conv_messages conversation)
  | None => false
  end.

(** What [stopStreaming] makes of a message. *)
Definition unstream (message : Message) : Message :=
  if streaming message then with_isStreaming message false else message.

(** A message holds at most one citation per url; a state does when all
    its messages do. *)
Definition unique_sources (message : Message) : Prop :=
  match msg_sources message with
  | Some sources => NoDup (map url sources)
  | None => True
  end.

Definition all_unique_sources (st : AppState) : Prop :=
  forall conversation message,
    In conversation (conversations st) ->
    In message (conv_messages conversation) ->
    unique_sources message.

(** The conversations after the tokens of a task: in the conversation of the
    task, the message of the task with the text appended. *)
Definition after_tokens (conversationId assistantId text : jsstring) (now : Z)
    (conversation : Conversation) : Conversation :=
  if str_eqb (conv_id conversation) conversationId
  then for_message assistantId (fun message => with_token message text) now
         conversation
  else conversation.

End Turn.
Import Turn.

(** ** Conversations, projects and attachments *)

Module Workspace.

Record Project := mkProject {
  project_id : jsstring;
  project_name : jsstring
}.

(** [deleteChat], on the conversations and the id of the active one. *)
Definition deleteChat (id : jsstring) (conversations : list Conversation)
    (activeConversationId : option jsstring)
    : list Conversation * option jsstring :=
  let next := filter (fun conversation => negb (str_eqb (conv_id conversation) id))
                conversations in
  (next,
   match activeConversationId with
   | Some active =>
       if str_eqb active id then
         match next with
         | first :: _ => Some (conv_id first)
         | [] => None
         end
       else activeConversationId
   | None => None
   end).

(** [c.projectId === projectId ? { ...c, projectId: null } : c] *)
Definition unassign (projectId : jsstring) (c : Conversation) : Conversation :=
  match conv_projectId c with
  | Some (Some p) =>
      if str_eqb p projectId
      then mkConversation (conv_id c) (conv_title c) (conv_messages c)
             (conv_updatedAt c) (Some None)
      else c
  | _ => c
  end.

(** [deleteProject], on the projects and the conversations. *)
Definition deleteProject (projectId : jsstring) (projects : list Project)
    (conversations : list Conversation) : list Project * list Conversation :=
  (filter (fun p => negb (str_eqb (project_id p) projectId)) projects,
   map (unassign projectId) conversations).

Definition renameProject (projectId name : jsstring) (projects : list Project)
    : list Project :=
  let trimmed := trim name in
  if str_empty trimmed then projects
  else
    map (fun p => if str_eqb (project_id p) projectId
                  then mkProject (project_id p) trimmed else p) projects.

Definition renameConversation (conversationId title : jsstring) (st : AppState)
    : AppState :=
  let trimmed := trim title in
  if str_empty trimmed then st
  else
    updateConversation conversationId
      (fun conversation =>
         mkConversation (conv_id conversation) trimmed (conv_messages conversation)
           (conv_updatedAt conversation) (conv_projectId conversation))
      st.

(** [assignConversationToProject] *)
Definition assignConversationToProject (conversationId : jsstring)
    (projectId : option jsstring) (now : Z) (st : AppState) : AppState :=
  updateConversation conversationId
    (fun conversation =>
       mkConversation (conv_id conversation) (conv_title conversation)
         (conv_messages conversation) now (Some projectId))
    st.

(** [prev.filter((_, i) => i !== index)], counting from [i]. *)
Fixpoint remove_index {A : Type} (i index : nat) (l : list A) : list A :=
  match l with
  | [] => []
  | x :: rest =>
      if Nat.eqb i index then remove_index (S i) index rest
      else x :: remove_index (S i) index rest
  end.

Definition removeAttachment (index : nat) (attachments : list Attachment)
    : list Attachment :=
  remove_index 0 index attachments.

(** A text that begins or ends with white space. *)
Definition edge_ws (s : jsstring) : bool :=
  match s with
  | [] => false
  | c :: _ => is_ws c || is_ws (last s c)
  end.

End Workspace.
Import Workspace.

(** ** Models and settings *)

Module Models.

(** [type ModelItem] *)
Record ModelItem := mkModel {
  model_id : jsstring;
  model_label : jsstring;
  model_providerId : ProviderId;
  model_description : option jsstring;
  model_supportsImages : option bool
}.

Definition plain_model (id label : jsstring) : ModelItem :=
  mkModel id label openrouter None None.

Definition image_model (id label : jsstring) : ModelItem :=
  mkModel id label openrouter None (Some true).

(** [const MODEL_OPTIONS] *)
Definition MODEL_OPTIONS : list ModelItem :=
  [plain_model (lit "openrouter/anthropic/claude-opus-4.5") (lit "Claude Opus 4.5");
   plain_model (lit "openrouter/anthropic/claude-sonnet-4.5") (lit "Claude Sonnet 4.5");
   plain_model (lit "openrouter/openai/gpt-5.2-chat") (lit "GPT-5.2 Chat");
   plain_model (lit "openrouter/deepseek/deepseek-r1-0528:free")
     (lit "DeepSeek R1 0528 (Free)");
   plain_model (lit "openrouter/google/gemini-3-flash-preview")
     (lit "Gemini 3 Flash (Preview)");
   plain_model (lit "openrouter/google/gemini-3-pro-preview")
     (lit "Gemini 3 Pro (Preview)");
   image_model (lit "openrouter/google/gemini-2.5-flash-image")
     (lit "Gemini 2.5 Flash Image");
   image_model (lit "openrouter/google/gemini-3-pro-image-preview")
     (lit "Gemini 3 Pro Image");
   image_model (lit "openrouter/google/nano-banana-pro") (lit "Nano Banana Pro");
   image_model (lit "openrouter/openai/gpt-5-image") (lit "GPT-5 Image")].

Inductive ColorMode : Type := dark | light.
Inductive Theme : Type := basic | matrix | shadcn.

(** [type Settings].  [enabledModels] and [customModels] are [None] when the
    stored settings lack them. *)
Record Settings := mkSettings {
  keys : ProviderId -> jsstring;
  systemPrompt : jsstring;
  colorMode : ColorMode;
  theme : Theme;
  enabledModels : option (list jsstring);
  customModels : option (list ModelItem)
}.

(** [getModelLabel] *)
Definition getModelLabel (modelId : jsstring) (models : list ModelItem) : jsstring :=
  match find (fun model => str_eqb (model_id model) modelId) models with
  | Some model => model_label model
  | None => modelId
  end.

(** [settings.customModels ?? []] *)
Definition custom_or_empty (settings : Settings) : list ModelItem :=
  match customModels settings with
  | Some l => l
  | None => []
  end.

Definition allModels (settings : Settings) : list ModelItem :=
  MODEL_OPTIONS ++ custom_or_empty settings.

Definition has_id (id : jsstring) (model : ModelItem) : bool :=
  str_eqb (model_id model) id.

(** [const enabledModels = useMemo(...)] *)
Definition enabled_models (settings : Settings) : list ModelItem :=
  let enabled :=
    match enabledModels settings with
    | Some ids => ids
    | None => map model_id (allModels settings)
    end in
  filter (fun model => mem (model_id model) enabled) (allModels settings).

(** [enabledModels.filter((model) => settings.keys[model.providerId])] *)
Definition availableModels (settings : Settings) : list ModelItem :=
  filter (fun model => negb (str_empty (keys settings (model_providerId model))))
    (enabled_models settings).

(** [availableModels.find((model) => model.id === selectedModelId)
      ?? availableModels[0] ?? null] *)
Definition selectedModel (settings : Settings) (selectedModelId : jsstring)
    : option ModelItem :=
  match find (has_id selectedModelId) (availableModels settings) with
  | Some model => Some model
  | None => hd_error (availableModels settings)
  end.

(** [const modelsToRun] of [sendMessage] *)
Definition modelsToRun (settings : Settings) (compareMode : bool)
    (selectedCompareModels : list jsstring) (selectedModelId : jsstring)
    : list jsstring :=
  if compareMode then
    filter (fun modelId => existsb (has_id modelId) (availableModels settings))
      selectedCompareModels
  else
    match selectedModel settings selectedModelId with
    | Some model => [model_id model]
    | None => []
    end.

(** [availableModels.find((m) => m.id === modelId) ?? selectedModel] *)
Definition task_model (settings : Settings) (selectedModelId modelId : jsstring)
    : option ModelItem :=
  match find (has_id modelId) (availableModels settings) with
  | Some model => Some model
  | None => selectedModel settings selectedModelId
  end.

(** [s.replace(pattern, replacement)] for a pattern that is a string and a
    replacement without [$]: the first occurrence is replaced. *)
Fixpoint replace_first (pattern replacement s : jsstring) : jsstring :=
  match s with
  | [] => if startsWith [] pattern then replacement else []
  | c :: rest =>
      if startsWith s pattern then replacement ++ skipn (List.length pattern) s
      else c :: replace_first pattern replacement rest
  end.

(** [model.id.startsWith("openrouter/")
      ? model.id.replace("openrouter/", empty) : model.id] *)
Definition requestModel (model : ModelItem) : jsstring :=
  if startsWith (model_id model) (lit "openrouter/")
  then replace_first (lit "openrouter/") [] (model_id model)
  else model_id model.

(** The options a task of [sendMessage] passes to [streamProviderResponse]. *)
Definition task_options (settings : Settings) (webSearchEnabled : bool)
    (model : ModelItem) (context : list Message) (controller : nat) : Options :=
  let useWebSearch :=
    webSearchEnabled && provider_eqb (model_providerId model) openrouter in
  mkOptions (model_providerId model) (keys settings (model_providerId model))
    (requestModel model) context (Some (systemPrompt settings)) true true
    (model_supportsImages model) (Some controller)
    (if useWebSearch then Some [mkPlugin (lit "web") None None None] else None).

(** The characters [\w] matches, and [c.toUpperCase()] on them. *)
Definition is_word (c : char) : bool :=
  ((48 <=? c) && (c <=? 57) || (65 <=? c) && (c <=? 90)
   || (97 <=? c) && (c <=? 122) || (c =? 95))%N.

Definition upper (c : char) : char :=
  if ((97 <=? c) && (c <=? 122))%N then (c - 32)%N else c.

(** [.replace(/[-_]/g, " ")] *)
Definition spaced (s : jsstring) : jsstring :=
  map (fun c => if ((c =? 45) || (c =? 95))%N then 32%N else c) s.

(** [.replace(/\b\w/g, (c) => c.toUpperCase())]; [inside] tells whether the
    character before is a word character. *)
Fixpoint capitalized (inside : bool) (s : jsstring) : jsstring :=
  match s with
  | [] => []
  | c :: rest =>
      (if is_word c && negb inside then upper c else c)
      :: capitalized (is_word c) rest
  end.

(** The label of a custom model. *)
Definition custom_label (tag : jsstring) : jsstring :=
  capitalized false (spaced (pop (split tag (lit "/")))).

(** The handler that adds a custom model, on the text of the input and the
    settings; it gives the settings and the text of the input afterwards,
    or [None] when it throws (spreading [enabledModels] that is absent). *)
Definition addCustomModel (customModelInput : jsstring) (settings : Settings)
    : option (Settings * jsstring) :=
  let tag := trim customModelInput in
  if str_empty tag then Some (settings, customModelInput)
  else
    let fullId := lit "openrouter/" ++ tag in
    if existsb (has_id fullId) (allModels settings) then Some (settings, [])
    else
      let newModel := mkModel fullId (custom_label tag) openrouter None None in
      match enabledModels settings with
      | None => None
      | Some enabled =>
          Some (mkSettings (keys settings) (systemPrompt settings)
                  (colorMode settings) (theme settings)
                  (Some (enabled ++ [fullId]))
                  (Some (custom_or_empty settings ++ [newModel])),
                [])
      end.

(** The checkbox of a model in the settings: the settings its handler
    passes to [setSettings], or [None] when it throws ([enabledModels]
    absent). *)
Definition checkbox_settings (modelId : jsstring) (checked : bool)
    (settings : Settings) : option Settings :=
  match enabledModels settings with
  | None => None
  | Some enabled =>
      Some (mkSettings (keys settings) (systemPrompt settings)
              (colorMode settings) (theme settings)
              (Some (if checked then enabled ++ [modelId]
                     else filter (fun id => negb (str_eqb id modelId)) enabled))
              (customModels settings))
  end.

(** The effect of [App] on settings whose [enabledModels] is absent or
    empty: [setSettings({ ...settings, enabledModels:
    allModels.map((model) => model.id) })]. *)
Definition refill_enabled (settings : Settings) : Settings :=
  match enabledModels settings with
  | Some (_ :: _) => settings
  | _ =>
      mkSettings (keys settings) (systemPrompt settings)
        (colorMode settings) (theme settings)
        (Some (map model_id (allModels settings)))
        (customModels settings)
  end.

(** The effect of [App] on the matrix theme:
    [if (settings.theme === "matrix" && settings.colorMode !== "dark")
       setSettings({ ...settings, colorMode: "dark" })]. *)
Definition force_dark (settings : Settings) : Settings :=
  match theme settings, colorMode settings with
  | matrix, light =>
      mkSettings (keys settings) (systemPrompt settings) dark (theme settings)
        (enabledModels settings) (customModels settings)
  | _, _ => settings
  end.

(** The settings once the effects of [App] that write them have run.  The
    remaining effect on the settings, which normalises a stored theme,
    changes nothing when [colorMode] and [theme] hold values of their
    types, as they do here. *)
Definition settled (settings : Settings) : Settings :=
  force_dark (refill_enabled settings).

(** A change of the checkbox of a model, followed by the effects. *)
Definition setEnabled (modelId : jsstring) (checked : bool) (settings : Settings)
    : option Settings :=
  option_map settled (checkbox_settings modelId checked settings).

(** The click on a model of the picker in compare mode: the list its
    handler passes to the [setSelectedCompareModels] of its props. *)
Definition clicked (modelId : jsstring) (selectedCompareModels : list jsstring)
    : list jsstring :=
  if mem modelId selectedCompareModels
  then filter (fun id => negb (str_eqb id modelId)) selectedCompareModels
  else selectedCompareModels ++ [modelId].

(** The [setSelectedCompareModels] that [App] passes to the picker: the
    selection it stores is
    [models.length ? models : (selectedModel ? [selectedModel.id] : [])]. *)
Definition setSelectedCompareModels (selectedModel : option ModelItem)
    (models : list jsstring) : list jsstring :=
  match models with
  | [] =>
      match selectedModel with
      | Some model => [model_id model]
      | None => []
      end
  | _ :: _ => models
  end.

(** The selection after a click on a model of the picker in compare mode. *)
Definition toggleCompareModel (selectedModel : option ModelItem)
    (modelId : jsstring) (selectedCompareModels : list jsstring) : list jsstring :=
  setSelectedCompareModels selectedModel (clicked modelId selectedCompareModels).

(** [const grouped] of [ModelPicker]: the models of each provider. *)
Definition Groups := ProviderId -> list ModelItem.

Definition push_model (acc : Groups) (model : ModelItem) : Groups :=
  fun p =>
    if provider_eqb p (model_providerId model) then acc p ++ [model] else acc p.

Definition grouped (models : list ModelItem) : Groups :=
  fold_left push_model models (fun _ => []).

(** The order of the members of [grouped], hence of [Object.entries]. *)
Definition provider_order : list ProviderId :=
  [openrouter; openai; anthropic; google; mistral; deepseek].

(** [Object.entries(grouped).filter((entry) => entry[1].length > 0)] *)
Definition groupedEntries (models : list ModelItem)
    : list (ProviderId * list ModelItem) :=
  filter (fun entry => Nat.ltb 0 (List.length (snd entry)))
    (map (fun p => (p, grouped models p)) provider_order).

End Models.
Import Models.

(** ** The language and file name of a code block: [parseCodeMeta] *)

Module CodeMeta.

(** [s.includes(pattern)] *)
Fixpoint includes (s pattern : jsstring) : bool :=
  match s with
  | [] => startsWith [] pattern
  | _ :: rest => startsWith s pattern || includes rest pattern
  end.

(** [meta.match(/file=([^\s]+)/)]: the group of the first match, if any. *)
Fixpoint takeWhile (p : char -> bool) (s : jsstring) : jsstring :=
  match s with
  | [] => []
  | c :: rest => if p c then c :: takeWhile p rest else []
  end.

(** The end of the text, or a character of [\s]: where [[^\s]+] stops. *)
Definition at_stop (after : jsstring) : bool :=
  match after with
  | [] => true
  | c :: _ => is_ws c
  end.

Fixpoint match_file (meta : jsstring) : option jsstring :=
  match meta with
  | [] => None
  | _ :: rest =>
      if startsWith meta (lit "file=") then
        match takeWhile (fun c => negb (is_ws c)) (skipn 5 meta) with
        | [] => match_file rest
        | name => Some name
        end
      else match_file rest
  end.

Record CodeMeta := mkCodeMeta {
  language : jsstring;
  filename : jsstring
}.

Definition parseCodeMeta (className meta : option jsstring) : CodeMeta :=
  let from_class :=
    match className with
    | Some name =>
        if startsWith name (lit "language-") then
          let info := replace_first (lit "language-") [] name in
          if includes info (lit ":") then
            let parts := split info (lit ":") in
            mkCodeMeta (nth 0 parts []) (nth 1 parts [])
          else if includes info (lit ".") then
            mkCodeMeta (pop (split info (lit "."))) info
          else mkCodeMeta info []
        else mkCodeMeta [] []
    | None => mkCodeMeta [] []
    end in
  match meta with
  | Some text =>
      if str_empty (filename from_class) && negb (str_empty text) then
        match match_file text with
        | Some name => mkCodeMeta (language from_class) name
        | None => from_class
        end
      else from_class
  | None => from_class
  end.

End CodeMeta.
Import CodeMeta.

(** ** More sample data *)

Module Cases.

(** A second conversation, in a project, and the two of them. *)
Definition archived : Conversation :=
  mkConversation (lit "c2") (lit "Notes") [Samples.question] 0
    (Some (Some (lit "p1"))).

Definition both : list Conversation := [Samples.conversation; archived].

Definition later : Conversation :=
  mkConversation (lit "c3") (lit "Later") [] 0 (Some None).

Definition projects : list Project :=
  [mkProject (lit "p1") (lit "Work"); mkProject (lit "p2") (lit "Home")].

Definition files : list Attachment :=
  [mkAttachment (lit "a.txt") (lit "text/plain") (lit "data:text/plain;base64,YQ==");
   mkAttachment (lit "b.png") (lit "image/png") (lit "data:image/png;base64,AA==")].

(** A state whose streaming message holds two citations. *)
Definition cited : Message :=
  mkMessage (lit "m2") assistant (lit "from a") 0 (Some (lit "model-a"))
    (Some openrouter) (Some true) None None
    (Some [Samples.untitled; Samples.other]).

Definition cited_app : AppState :=
  mkApp [mkConversation (lit "c1") (lit "New Chat 1") [Samples.question; cited]
           0 (Some None)]
    (Some (lit "c1")) [(lit "m2", 0%nat)] [].

Definition annotations : JsVal :=
  JArr [JObj [(lit "url_citation",
               JObj [(lit "url", JStr (lit "https://z.net"));
                     (lit "title", JStr (lit "Z"))])];
        JObj [(lit "url", JStr (lit "https://x.com"));
              (lit "title", JStr (lit "X"))]].

(** Settings with a key for OpenRouter only and two models enabled. *)
Definition settings : Settings :=
  mkSettings
    (fun p => match p with openrouter => lit "sk-or" | _ => [] end)
    (lit "Be brief.") dark basic
    (Some [lit "openrouter/openai/gpt-5.2-chat";
           lit "openrouter/google/nano-banana-pro"])
    None.

Definition picked : list ModelItem :=
  [mkModel (lit "gpt") (lit "GPT") openai None None;
   plain_model (lit "openrouter/x") (lit "X");
   mkModel (lit "claude") (lit "Claude") anthropic None None;
   mkModel (lit "gpt-mini") (lit "GPT mini") openai None None].

End Cases.

(** * Properties *)

(** ** Strings and options *)

Lemma str_eqb_eq (a b : jsstring) : str_eqb a b = true <-> a = b.
Proof.
  revert b; induction a as [|x a IH]; intros [|y b]; simpl; split;
    try congruence; try reflexivity.
  - intros H. apply andb_true_iff in H as [Hx Hr].
    apply N.eqb_eq in Hx. apply IH in Hr. congruence.
  - intros H. inversion H; subst. apply andb_true_iff; split.
    + apply N.eqb_refl.
    + now apply IH.
Qed.

Lemma str_eqb_refl (a : jsstring) : str_eqb a a = true.
Proof. now apply str_eqb_eq. Qed.

Lemma str_eqb_neq (a b : jsstring) : str_eqb a b = false <-> a <> b.
Proof.
  split.
  - intros H E. apply str_eqb_eq in E. congruence.
  - intros H. destruct (str_eqb a b) eqn:E; [|reflexivity].
    apply str_eqb_eq in E. contradiction.
Qed.

Lemma str_eqb_sym (a b : jsstring) : str_eqb a b = str_eqb b a.
Proof.
  destruct (str_eqb a b) eqn:E.
  - apply str_eqb_eq in E. subst. symmetry. apply str_eqb_refl.
  - symmetry. apply str_eqb_neq. apply str_eqb_neq in E. congruence.
Qed.

Lemma nullish_None_r {A : Type} (a : option A) : nullish a None = a.
Proof. now destruct a. Qed.

Lemma nullish_idem {A : Type} (a b : option A) :
  nullish (nullish a b) b = nullish a b.
Proof. now destruct a, b. Qed.

Lemma nullish_assoc {A : Type} (a b c : option A) :
  nullish (nullish a b) c = nullish a (nullish b c).
Proof. now destruct a. Qed.

(** ** The map of [mergeSources] *)

Section MapFacts.

Lemma map_get_set_same k v m : map_get k (map_set k v m) = Some v.
Proof.
  induction m as [|[k' v'] m IH]; simpl.
  - now rewrite str_eqb_refl.
  - destruct (str_eqb k k') eqn:E; simpl.
    + now rewrite str_eqb_refl.
    + now rewrite E.
Qed.

Lemma map_get_set_other k k' v m :
  k <> k' -> map_get k' (map_set k v m) = map_get k' m.
Proof.
  intros Hne. induction m as [|[k0 v0] m IH]; simpl.
  - apply not_eq_sym in Hne. apply str_eqb_neq in Hne. now rewrite Hne.
  - destruct (str_eqb k k0) eqn:E; simpl.
    + apply str_eqb_eq in E. subst k0.
      apply not_eq_sym in Hne. apply str_eqb_neq in Hne. now rewrite Hne.
    + now rewrite IH.
Qed.

Lemma map_get_mem k m : map_get k m = None <-> mem k (map_keys m) = false.
Proof.
  induction m as [|[k' v'] m IH]; simpl.
  - tauto.
  - destruct (str_eqb k k'); simpl; [split; discriminate | exact IH].
Qed.

Lemma map_get_mem_some k m c : map_get k m = Some c -> mem k (map_keys m) = true.
Proof.
  intros H. destruct (mem k (map_keys m)) eqn:E; [reflexivity|].
  apply map_get_mem in E. congruence.
Qed.

Lemma map_set_absent k v m : map_get k m = None -> map_set k v m = m ++ [(k, v)].
Proof.
  induction m as [|[k' v'] m IH]; simpl; [reflexivity|].
  destruct (str_eqb k k'); [discriminate|].
  intros H. now rewrite IH.
Qed.

Lemma map_set_present_keys k v c m :
  map_get k m = Some c -> map_keys (map_set k v m) = map_keys m.
Proof.
  induction m as [|[k' v'] m IH]; simpl; [discriminate|].
  destruct (str_eqb k k') eqn:E; simpl.
  - apply str_eqb_eq in E. now subst.
  - intros H. now rewrite IH.
Qed.

Lemma map_set_same_value k v m : map_get k m = Some v -> map_set k v m = m.
Proof.
  induction m as [|[k' v'] m IH]; simpl; [discriminate|].
  destruct (str_eqb k k') eqn:E.
  - apply str_eqb_eq in E. intros H. congruence.
  - intros H. now rewrite IH.
Qed.

Lemma mem_In u l : mem u l = true <-> In u l.
Proof.
  induction l as [|x l IH]; simpl.
  - split; [discriminate | tauto].
  - rewrite orb_true_iff, IH, str_eqb_eq. split; intros [H|H]; auto.
Qed.

Lemma mem_app u l1 l2 : mem u (l1 ++ l2) = mem u l1 || mem u l2.
Proof.
  induction l1 as [|x l1 IH]; simpl; [reflexivity|].
  now rewrite IH, orb_assoc.
Qed.

Lemma well_formed_nil : well_formed [].
Proof. split; constructor. Qed.

Lemma map_set_keyed k v m :
  url v = k ->
  Forall (fun kv => url (snd kv) = fst kv) m ->
  Forall (fun kv => url (snd kv) = fst kv) (map_set k v m).
Proof.
  intros Hk. induction m as [|[k' v'] m IH]; simpl; intros H.
  - constructor; [exact Hk | constructor].
  - inversion_clear H. destruct (str_eqb k k'); constructor; auto.
Qed.

Lemma map_set_keys k v m :
  map_keys (map_set k v m)
  = if mem k (map_keys m) then map_keys m else map_keys m ++ [k].
Proof.
  destruct (map_get k m) as [c|] eqn:G.
  - rewrite (map_get_mem_some k m c G). eapply map_set_present_keys; eauto.
  - rewrite (map_set_absent k v m G). apply map_get_mem in G. rewrite G.
    unfold map_keys. now rewrite map_app.
Qed.

Lemma NoDup_snoc (l : list jsstring) (k : jsstring) :
  NoDup l -> ~ In k l -> NoDup (l ++ [k]).
Proof.
  intros Hl Hk. induction Hl as [|x l Hx Hl IH]; simpl.
  - constructor; [tauto | constructor].
  - constructor.
    + rewrite in_app_iff. simpl. intros [H|[H|[]]]; [contradiction|].
      subst. apply Hk. now left.
    + apply IH. intros H. apply Hk. now right.
Qed.

Lemma map_set_well_formed k v m :
  url v = k -> well_formed m -> well_formed (map_set k v m).
Proof.
  intros Hk [Hnd Hkeyed]. split.
  - rewrite map_set_keys. destruct (mem k (map_keys m)) eqn:E; [exact Hnd|].
    apply NoDup_snoc; [exact Hnd|].
    intros Hin. apply mem_In in Hin. congruence.
  - now apply map_set_keyed.
Qed.

Lemma seed_step_well_formed m s : well_formed m -> well_formed (seed_step m s).
Proof. intros H. unfold seed_step. now apply map_set_well_formed. Qed.

Lemma merge_step_well_formed m s : well_formed m -> well_formed (merge_step m s).
Proof.
  intros H. unfold merge_step.
  destruct (map_get (url s) m); now apply map_set_well_formed.
Qed.

Lemma fold_well_formed (step : SourceMap -> SourceCitation -> SourceMap) :
  (forall m s, well_formed m -> well_formed (step m s)) ->
  forall l m, well_formed m -> well_formed (fold_left step l m).
Proof.
  intros Hstep l. induction l as [|s l IH]; simpl; intros m Hm; auto.
Qed.

Lemma seed_well_formed existing : well_formed (seed existing).
Proof.
  unfold seed. apply fold_well_formed.
  - apply seed_step_well_formed.
  - apply well_formed_nil.
Qed.

Lemma merged_well_formed incoming m :
  well_formed m -> well_formed (fold_left merge_step incoming m).
Proof. apply fold_well_formed, merge_step_well_formed. Qed.

Lemma keyed_urls m :
  Forall (fun kv => url (snd kv) = fst kv) m ->
  map url (map_values m) = map_keys m.
Proof.
  induction 1 as [|[k v] m Hk _ IH]; simpl; [reflexivity|].
  simpl in Hk. now rewrite Hk, IH.
Qed.

Lemma find_url_values u m :
  Forall (fun kv => url (snd kv) = fst kv) m ->
  find_url u (map_values m) = map_get u m.
Proof.
  induction 1 as [|[k v] m Hk _ IH]; simpl; [reflexivity|].
  simpl in Hk. rewrite Hk. now rewrite IH.
Qed.

(** Seeding a map with the values of a well-formed map rebuilds it. *)
Lemma seed_values_from m0 m :
  well_formed (m0 ++ m) -> fold_left seed_step (map_values m) m0 = m0 ++ m.
Proof.
  revert m0. induction m as [|[k v] m IH]; intros m0 Hwf; simpl.
  - now rewrite app_nil_r.
  - assert (Hk : url v = k).
    { destruct Hwf as [_ Hkeyed]. rewrite Forall_forall in Hkeyed.
      apply (Hkeyed (k, v)). apply in_or_app. right. now left. }
    assert (Habs : map_get k m0 = None).
    { apply map_get_mem. destruct (mem k (map_keys m0)) eqn:E; [|reflexivity].
      apply mem_In in E. destruct Hwf as [Hnd _].
      unfold map_keys in Hnd. rewrite map_app in Hnd. simpl in Hnd.
      apply NoDup_remove_2 in Hnd. exfalso. apply Hnd.
      apply in_or_app. now left. }
    unfold seed_step at 2. simpl. rewrite Hk, (map_set_absent k v m0 Habs).
    replace (m0 ++ (k, v) :: m) with ((m0 ++ [(k, v)]) ++ m)
      by now rewrite <- app_assoc.
    apply IH. now rewrite <- app_assoc.
Qed.

Lemma seed_values m : well_formed m -> seed (map_values m) = m.
Proof. intros H. unfold seed. now rewrite seed_values_from. Qed.

End MapFacts.

(** ** The urls of a merge *)

Section MergeFacts.

Lemma dedupe_from_ext seen1 seen2 l :
  (forall x, mem x seen1 = mem x seen2) ->
  dedupe_from seen1 l = dedupe_from seen2 l.
Proof.
  revert seen1 seen2. induction l as [|x l IH]; simpl; intros seen1 seen2 H.
  - reflexivity.
  - rewrite H. destruct (mem x seen2).
    + now apply IH.
    + f_equal. apply IH. intros y. now rewrite !mem_app, H.
Qed.

Lemma dedupe_from_app seen a b :
  dedupe_from seen (a ++ b)
  = dedupe_from seen a ++ dedupe_from (seen ++ dedupe_from seen a) b.
Proof.
  revert seen. induction a as [|x a IH]; simpl; intros seen.
  - now rewrite app_nil_r.
  - destruct (mem x seen).
    + apply IH.
    + simpl. f_equal. rewrite IH. f_equal. now rewrite <- app_assoc.
Qed.

Lemma dedupe_from_fresh seen l :
  NoDup l -> (forall x, In x l -> mem x seen = false) -> dedupe_from seen l = l.
Proof.
  intros Hnd. revert seen. induction Hnd as [|x l Hx Hnd IH]; simpl; intros seen H.
  - reflexivity.
  - rewrite (H x (or_introl eq_refl)). f_equal. apply IH.
    intros y Hy. rewrite mem_app, (H y (or_intror Hy)). simpl.
    rewrite orb_false_r. apply str_eqb_neq. intros E. subst. contradiction.
Qed.

Lemma dedupe_from_In u l : forall seen,
  In u (dedupe_from seen l) <-> In u l /\ mem u seen = false.
Proof.
  induction l as [|x l IH]; intros seen; simpl.
  - tauto.
  - destruct (mem x seen) eqn:E.
    + rewrite IH. split.
      * intros [H1 H2]. split; [now right | exact H2].
      * intros [[H|H] H2]; [subst; congruence | now split].
    + simpl. rewrite IH, mem_app. simpl. rewrite orb_false_r. split.
      * intros [H|[H1 H2]].
        -- subst. split; [now left | exact E].
        -- apply orb_false_iff in H2 as [H2 _]. split; [now right | exact H2].
      * intros [[H|H] H2]; [now left|].
        destruct (str_eqb u x) eqn:Eu.
        -- apply str_eqb_eq in Eu. subst. now left.
        -- right. split; [exact H|]. now rewrite H2.
Qed.

Lemma seed_step_keys m s :
  map_keys (seed_step m s)
  = if mem (url s) (map_keys m) then map_keys m else map_keys m ++ [url s].
Proof. apply map_set_keys. Qed.

Lemma merge_step_keys m s :
  map_keys (merge_step m s)
  = if mem (url s) (map_keys m) then map_keys m else map_keys m ++ [url s].
Proof. unfold merge_step. destruct (map_get (url s) m); apply map_set_keys. Qed.

Lemma fold_keys (step : SourceMap -> SourceCitation -> SourceMap) :
  (forall m s, map_keys (step m s)
               = if mem (url s) (map_keys m) then map_keys m
                 else map_keys m ++ [url s]) ->
  forall l m,
    map_keys (fold_left step l m)
    = map_keys m ++ dedupe_from (map_keys m) (map url l).
Proof.
  intros Hstep l. induction l as [|s l IH]; simpl; intros m.
  - now rewrite app_nil_r.
  - rewrite IH, Hstep. destruct (mem (url s) (map_keys m)); [reflexivity|].
    now rewrite <- app_assoc.
Qed.

Lemma mergeSources_keys existing incoming :
  map url (mergeSources existing incoming)
  = first_occurrences (map url (or_empty existing) ++ map url incoming).
Proof.
  unfold mergeSources, first_occurrences.
  rewrite keyed_urls
    by (apply merged_well_formed, seed_well_formed).
  rewrite (fold_keys merge_step merge_step_keys).
  unfold seed. rewrite (fold_keys seed_step seed_step_keys). simpl.
  now rewrite dedupe_from_app.
Qed.

Lemma mergeSources_NoDup existing incoming :
  NoDup (map url (mergeSources existing incoming)).
Proof.
  unfold mergeSources.
  rewrite keyed_urls by (apply merged_well_formed, seed_well_formed).
  apply merged_well_formed, seed_well_formed.
Qed.

End MergeFacts.

(** ** The fields of a merge *)

Section FieldFacts.

Lemma find_url_url u l c : find_url u l = Some c -> url c = u.
Proof.
  induction l as [|x l IH]; simpl; [discriminate|].
  destruct (str_eqb u (url x)) eqn:E; [|exact IH].
  intros H. inversion H; subst. symmetry. now apply str_eqb_eq.
Qed.

Lemma find_url_app u l1 l2 :
  find_url u (l1 ++ l2)
  = match find_url u l1 with
    | Some c => Some c
    | None => find_url u l2
    end.
Proof.
  induction l1 as [|x l1 IH]; simpl; [reflexivity|].
  now destruct (str_eqb u (url x)).
Qed.

Lemma map_get_set u k v m :
  map_get u (map_set k v m) = if str_eqb u k then Some v else map_get u m.
Proof.
  destruct (str_eqb u k) eqn:E.
  - apply str_eqb_eq in E. subst. apply map_get_set_same.
  - apply map_get_set_other. apply str_eqb_neq in E. congruence.
Qed.

(** The entry the seeded map holds for a url is the last one of the list. *)
Lemma map_get_seed_from u existing m :
  map_get u (fold_left seed_step existing m)
  = match find_url u (rev existing) with
    | Some c => Some c
    | None => map_get u m
    end.
Proof.
  revert m. induction existing as [|s l IH]; simpl; intros m; [reflexivity|].
  rewrite IH, find_url_app. destruct (find_url u (rev l)); [reflexivity|].
  unfold seed_step. rewrite map_get_set. simpl.
  now destruct (str_eqb u (url s)).
Qed.

Lemma map_get_seed u existing :
  map_get u (seed existing) = find_url u (rev existing).
Proof.
  unfold seed. rewrite map_get_seed_from. now destruct (find_url u (rev existing)).
Qed.

Lemma map_get_merge_step_other u m s :
  str_eqb u (url s) = false -> map_get u (merge_step m s) = map_get u m.
Proof.
  intros E. unfold merge_step.
  destruct (map_get (url s) m); rewrite map_get_set; now rewrite E.
Qed.

Lemma map_get_merged u incoming : forall m current,
  map_get u m = Some current ->
  url current = u ->
  map_get u (fold_left merge_step incoming m)
  = Some {| url := u;
            title := first_present (title current) (map title (with_url u incoming));
            content := first_present (content current)
                         (map content (with_url u incoming)) |}.
Proof.
  induction incoming as [|s l IH]; simpl; intros m current Hget Hurl.
  - rewrite Hget. destruct current; simpl in *. now subst.
  - destruct (str_eqb u (url s)) eqn:E.
    + apply str_eqb_eq in E. simpl.
      rewrite (IH (merge_step m s)
                 {| url := u;
                    title := nullish (title current) (title s);
                    content := nullish (content current) (content s) |}).
      * reflexivity.
      * unfold merge_step. rewrite <- E, Hget. apply map_get_set_same.
      * reflexivity.
    + apply IH; [|exact Hurl]. now rewrite map_get_merge_step_other.
Qed.

Lemma first_present_some t more : first_present (Some t) more = Some t.
Proof. unfold first_present. induction more as [|x l IH]; simpl; auto. Qed.

Lemma merge_step_absorbs_self m s : absorbs (merge_step m s) s.
Proof.
  unfold merge_step, absorbs. destruct (map_get (url s) m) as [current|].
  - eexists. rewrite map_get_set_same. split; [reflexivity|]. simpl.
    now rewrite !nullish_idem.
  - exists s. rewrite map_get_set_same. repeat split.
    + now destruct (title s).
    + now destruct (content s).
Qed.

Lemma nullish_absorbed (a b c : option jsstring) :
  nullish a c = a -> nullish (nullish a b) c = nullish a b.
Proof.
  destruct a; simpl; [reflexivity|]. intros ->. apply nullish_None_r.
Qed.

Lemma merge_step_absorbs_other m s s' : absorbs m s -> absorbs (merge_step m s') s.
Proof.
  intros (current & Hget & Hurl & Ht & Hc).
  destruct (str_eqb (url s) (url s')) eqn:E.
  - apply str_eqb_eq in E. unfold merge_step, absorbs.
    rewrite <- E, Hget. eexists. rewrite map_get_set_same.
    split; [reflexivity|]. simpl. repeat split; now apply nullish_absorbed.
  - exists current. now rewrite map_get_merge_step_other.
Qed.

Lemma absorbs_fixed m s : absorbs m s -> merge_step m s = m.
Proof.
  intros (current & Hget & Hurl & Ht & Hc). unfold merge_step.
  rewrite Hget, Ht, Hc, <- Hurl. apply map_set_same_value.
  rewrite Hurl, Hget. destruct current; simpl in *. congruence.
Qed.

Lemma fold_absorbs incoming : forall m s,
  In s incoming \/ absorbs m s -> absorbs (fold_left merge_step incoming m) s.
Proof.
  induction incoming as [|x l IH]; simpl; intros m s H.
  - destruct H as [[]|H]. exact H.
  - apply IH. destruct H as [[H|H]|H].
    + subst. right. apply merge_step_absorbs_self.
    + now left.
    + right. now apply merge_step_absorbs_other.
Qed.

Lemma fold_absorbed incoming : forall m,
  (forall s, In s incoming -> absorbs m s) -> fold_left merge_step incoming m = m.
Proof.
  induction incoming as [|x l IH]; simpl; intros m H; [reflexivity|].
  rewrite absorbs_fixed by (apply H; now left).
  apply IH. intros s Hs. apply H. now right.
Qed.

End FieldFacts.

(** ** The claims on the citation merge *)

(** C1. The citation merge is idempotent: merging the incoming list into
    the result of a merge with that same list gives that result again. *)
Theorem mergeSources_idempotent (existing : option (list SourceCitation))
    (incoming : list SourceCitation) :
  mergeSources (Some (mergeSources existing incoming)) incoming
  = mergeSources existing incoming.
Proof.
  unfold mergeSources.
  set (m := fold_left merge_step incoming (seed (or_empty existing))).
  change (or_empty (Some (map_values m))) with (map_values m).
  assert (Hwf : well_formed m)
    by (apply merged_well_formed, seed_well_formed).
  rewrite (seed_values m Hwf).
  rewrite fold_absorbed; [reflexivity|].
  intros s Hs. apply fold_absorbs. now left.
Qed.

(** C2, as stated, fails: a title that is present but empty is kept, and the
    incoming title is not adopted. *)
Lemma mergeSources_keeps_empty_title :
  ~ keeps_non_empty_fields [Samples.untitled] Samples.titled.
Proof.
  intros H. specialize (H Samples.untitled eq_refl).
  vm_compute in H. discriminate H.
Qed.

(** C2, amended.  For a url of the existing list, the merge gives one entry
    whose title is the current title whenever that is present (be it the
    empty string), and otherwise the first title present among the incoming
    citations for that url, in order; the same holds for the content.  In
    particular a title that is present is never changed by a merge. *)
Theorem mergeSources_keeps_present_fields
    (existing incoming : list SourceCitation) (u : jsstring)
    (current : SourceCitation) :
  find_url u (rev existing) = Some current ->
  find_url u (mergeSources (Some existing) incoming)
  = Some {| url := u;
            title := first_present (title current)
                       (map title (with_url u incoming));
            content := first_present (content current)
                         (map content (with_url u incoming)) |}
  /\ (forall t, title current = Some t ->
        exists r, find_url u (mergeSources (Some existing) incoming) = Some r
                  /\ title r = Some t).
Proof.
  intros Hcur.
  assert (Hres : find_url u (mergeSources (Some existing) incoming)
                 = Some {| url := u;
                           title := first_present (title current)
                                      (map title (with_url u incoming));
                           content := first_present (content current)
                                        (map content (with_url u incoming)) |}).
  { unfold mergeSources.
    rewrite find_url_values by (apply merged_well_formed, seed_well_formed).
    apply map_get_merged.
    - now rewrite map_get_seed.
    - eapply find_url_url; eauto. }
  split; [exact Hres|].
  intros t Ht. eexists. split; [exact Hres|]. simpl.
  rewrite Ht. apply first_present_some.
Qed.

Lemma mergeSources_keeps_present_fields_witness :
  find_url (lit "https://x.com")
    (mergeSources (Some [Samples.untitled; Samples.other]) [Samples.titled])
  = Some (Samples.cite (lit "https://x.com") (Some []) (Some (lit "body")))
  /\ (forall t, title Samples.untitled = Some t ->
        exists r,
          find_url (lit "https://x.com")
            (mergeSources (Some [Samples.untitled; Samples.other]) [Samples.titled])
          = Some r
          /\ title r = Some t).
Proof.
  exact (mergeSources_keeps_present_fields
           [Samples.untitled; Samples.other] [Samples.titled]
           (lit "https://x.com") Samples.untitled eq_refl).
Defined.

(** The invariant on the existing list is needed for the positions: were a
    url repeated in it, the urls after the repetition would move up. *)
Lemma mergeSources_moves_after_duplicate :
  ~ keeps_positions [Samples.untitled; Samples.titled; Samples.other] [].
Proof.
  intros H. destruct (H 2%nat Samples.other eq_refl) as (r & Hr & _).
  vm_compute in Hr. discriminate Hr.
Qed.

(** C3.  For every existing and incoming list, the result of a merge holds
    at most one citation per url, and its urls are those of the existing
    list followed by those of the incoming list, each at its first
    occurrence.  The existing list of a message is absent or the result of
    an earlier merge, so it repeats no url; and for every existing list
    that repeats no url, the urls of the existing list keep their
    positions, and the newly seen urls follow them, in the order in which
    the incoming list first names them. *)
Theorem mergeSources_keeps_positions (existing : option (list SourceCitation))
    (incoming : list SourceCitation) :
  NoDup (map url (mergeSources existing incoming))
  /\ map url (mergeSources existing incoming)
     = first_occurrences (map url (or_empty existing) ++ map url incoming)
  /\ (existing = None
      \/ (exists earlier batch, existing = Some (mergeSources earlier batch)) ->
      NoDup (map url (or_empty existing)))
  /\ (NoDup (map url (or_empty existing)) ->
      keeps_positions (or_empty existing) incoming
      /\ map url (mergeSources existing incoming)
         = map url (or_empty existing)
           ++ dedupe_from (map url (or_empty existing)) (map url incoming)
      /\ (forall u, In u (dedupe_from (map url (or_empty existing))
                            (map url incoming)) <->
                    In u (map url incoming)
                    /\ ~ In u (map url (or_empty existing)))).
Proof.
  split; [apply mergeSources_NoDup|]. split; [apply mergeSources_keys|].
  split.
  { intros [->|(earlier & batch & ->)]; [constructor|].
    apply mergeSources_NoDup. }
  intros Hnd.
  assert (Hurls : map url (mergeSources existing incoming)
                  = map url (or_empty existing)
                    ++ dedupe_from (map url (or_empty existing))
                         (map url incoming)).
  { rewrite mergeSources_keys. unfold first_occurrences.
    rewrite dedupe_from_app. simpl.
    now rewrite dedupe_from_fresh by (auto). }
  split; [|split; [exact Hurls|]].
  - intros i c Hnth.
    change (mergeSources (Some (or_empty existing)) incoming)
      with (mergeSources existing incoming).
    assert (Hu : nth_error (map url (mergeSources existing incoming)) i
                 = Some (url c)).
    { rewrite Hurls. rewrite nth_error_app1.
      - now rewrite nth_error_map, Hnth.
      - rewrite length_map. apply nth_error_Some. now rewrite Hnth. }
    rewrite nth_error_map in Hu.
    destruct (nth_error (mergeSources existing incoming) i) as [r|];
      [|discriminate Hu].
    exists r. split; [reflexivity|]. simpl in Hu. congruence.
  - intros u. rewrite dedupe_from_In. split.
    + intros [Hin Hmem]. split; [exact Hin|].
      intros Hex. apply mem_In in Hex. congruence.
    + intros [Hin Hex]. split; [exact Hin|].
      destruct (mem u (map url (or_empty existing))) eqn:E; [|reflexivity].
      apply mem_In in E. contradiction.
Qed.

Lemma mergeSources_keeps_positions_witness :
  NoDup (map url [Samples.untitled; Samples.other])
  /\ map url (mergeSources (Some [Samples.untitled; Samples.other])
                [Samples.titled; Samples.cite (lit "https://z.net") None None;
                 Samples.other; Samples.cite (lit "https://z.net") (Some (lit "Z")) None])
     = [lit "https://x.com"; lit "https://y.org"; lit "https://z.net"]
  /\ keeps_positions [Samples.untitled; Samples.other]
       [Samples.titled; Samples.cite (lit "https://z.net") None None;
        Samples.other; Samples.cite (lit "https://z.net") (Some (lit "Z")) None].
Proof.
  assert (Hnd : NoDup (map url [Samples.untitled; Samples.other])).
  { repeat constructor; simpl; intros H; repeat destruct H as [H|H];
      try discriminate H; exact H. }
  split; [exact Hnd|].
  destruct (mergeSources_keeps_positions (Some [Samples.untitled; Samples.other])
              [Samples.titled; Samples.cite (lit "https://z.net") None None;
               Samples.other; Samples.cite (lit "https://z.net") (Some (lit "Z")) None])
    as (_ & _ & _ & H).
  destruct (H Hnd) as (Hpos & Hurls & _).
  split; [|exact Hpos]. rewrite Hurls. reflexivity.
Defined.

(** ** The claim on the citation extraction *)

Lemma extract_annotation_inv (a : JsVal) (c : SourceCitation) :
  In c (extract_annotation a) ->
  extract_annotation a = [c]
  /\ url c <> []
  /\ (exists fields, a = JObj fields)
  /\ (get_prop (probed_citation a) (lit "url") = JStr (url c)
      \/ get_prop a (lit "url") = JStr (url c))
  /\ title c = string_or_undefined (get_prop (probed_citation a) (lit "title"))
  /\ content c = string_or_undefined (get_prop (probed_citation a) (lit "content")).
Proof.
  unfold extract_annotation.
  destruct (negb (truthy a) || negb (typeof_object a)) eqn:Hobj; [intros []|].
  destruct a as [| |b|z|s|items|fields]; simpl in Hobj;
    try (rewrite ?orb_true_r in Hobj; discriminate Hobj).
  - (* an array has no member of these names *)
    intros [].
  - set (citation := probed_citation (JObj fields)).
    destruct (get_prop citation (lit "url")) as [| |b|z|s|items|fields'] eqn:Hc;
      try (destruct (get_prop (JObj fields) (lit "url"))
             as [| |b'|z'|s'|items'|fields''] eqn:Ha; try (intros []));
      match goal with
      | |- In _ (if str_empty ?u then _ else _) -> _ =>
          destruct u as [|x u'] eqn:Hu; simpl; [intros []|];
          intros [H|[]]; subst c; simpl;
          repeat split; eauto; discriminate
      end.
Qed.

(** C10. Every citation that [extractSources] produces has a non-empty url.
    An entry that is not an object contributes nothing, and neither does one
    for which neither the probed citation nor the annotation itself has a
    string [url]; a [title] or [content] that is not a string is left out. *)
Theorem extractSources_urls_non_empty (annotations : JsVal) :
  (forall c, In c (extractSources annotations) -> url c <> [])
  /\ (forall c, In c (extractSources annotations) <->
        exists items a, annotations = JArr items /\ In a items
                        /\ extract_annotation a = [c])
  /\ (forall a, (forall fields, a <> JObj fields) -> extract_annotation a = [])
  /\ (forall a,
        string_or_undefined (get_prop (probed_citation a) (lit "url")) = None ->
        string_or_undefined (get_prop a (lit "url")) = None ->
        extract_annotation a = [])
  /\ (forall a c, In c (extract_annotation a) ->
        title c = string_or_undefined (get_prop (probed_citation a) (lit "title"))
        /\ content c
           = string_or_undefined (get_prop (probed_citation a) (lit "content"))).
Proof.
  assert (Hmem : forall c, In c (extractSources annotations) <->
            exists items a, annotations = JArr items /\ In a items
                            /\ extract_annotation a = [c]).
  { intros c. split.
    - destruct annotations; simpl; try (intros []).
      intros H. apply in_flat_map in H as (a & Ha & Hc).
      exists items, a. repeat split; auto. now apply extract_annotation_inv.
    - intros (items & a & -> & Ha & Hc). simpl. apply in_flat_map.
      exists a. split; [exact Ha|]. rewrite Hc. now left. }
  split; [|split; [exact Hmem|split; [|split]]].
  - intros c Hc. apply Hmem in Hc as (items & a & _ & _ & Hc).
    apply (extract_annotation_inv a c). rewrite Hc. now left.
  - intros a Ha. destruct (extract_annotation a) as [|c l] eqn:E; [reflexivity|].
    destruct (extract_annotation_inv a c) as (_ & _ & (fields & Hf) & _).
    + rewrite E. now left.
    + exfalso. exact (Ha fields Hf).
  - intros a H1 H2. destruct (extract_annotation a) as [|c l] eqn:E; [reflexivity|].
    destruct (extract_annotation_inv a c) as (_ & _ & _ & [H|H] & _).
    + rewrite E. now left.
    + rewrite H in H1. discriminate H1.
    + rewrite H in H2. discriminate H2.
  - intros a c Hc. now apply extract_annotation_inv.
Qed.

Lemma extractSources_urls_non_empty_witness :
  let annotation :=
    JObj [(lit "url_citation",
           JObj [(lit "url", JStr (lit "https://x.com"));
                 (lit "title", JStr (lit "X"));
                 (lit "content", JNum 7)])] in
  extractSources (JArr [JNull; annotation; JStr (lit "https://y.org")])
  = [Samples.cite (lit "https://x.com") (Some (lit "X")) None]
  /\ url (Samples.cite (lit "https://x.com") (Some (lit "X")) None) <> [].
Proof.
  intros annotation. split; [reflexivity|].
  apply (extractSources_urls_non_empty
           (JArr [JNull; annotation; JStr (lit "https://y.org")])).
  simpl. now left.
Defined.

(** ** The claim on the context filter *)

Section ContextFacts.

Lemma provider_eqb_eq (a b : ProviderId) : provider_eqb a b = true <-> a = b.
Proof. destruct a, b; simpl; split; congruence. Qed.

Lemma role_eqb_eq (a b : Role) : role_eqb a b = true <-> a = b.
Proof. destruct a, b; simpl; split; congruence. Qed.

Lemma modelId_is_eq (m : option jsstring) (modelId : jsstring) :
  modelId_is m modelId = true <-> m = Some modelId.
Proof.
  destruct m as [x|]; simpl.
  - rewrite str_eqb_eq. split; congruence.
  - split; discriminate.
Qed.

Lemma providerId_is_eq (p : option ProviderId) (providerId : ProviderId) :
  providerId_is p providerId = true <-> p = Some providerId.
Proof.
  destruct p as [x|]; simpl.
  - rewrite provider_eqb_eq. split; congruence.
  - split; discriminate.
Qed.

Lemma keep_in_context_iff modelId providerId (m : Message) :
  keep_in_context modelId providerId m = true <->
  msg_role m = user
  \/ (msg_role m = assistant /\ msg_modelId m = Some modelId
      /\ msg_providerId m = Some providerId).
Proof.
  unfold keep_in_context. destruct (msg_role m); simpl.
  - split; auto.
  - destruct (modelId_is (msg_modelId m) modelId) eqn:Em;
      destruct (providerId_is (msg_providerId m) providerId) eqn:Ep; simpl;
      split; try discriminate; auto.
    + intros _. right. repeat split.
      * now apply modelId_is_eq.
      * now apply providerId_is_eq.
    + intros [H|(_ & _ & H)]; [discriminate|].
      apply providerId_is_eq in H. congruence.
    + intros [H|(_ & H & _)]; [discriminate|].
      apply modelId_is_eq in H. congruence.
    + intros [H|(_ & H & _)]; [discriminate|].
      apply modelId_is_eq in H. congruence.
Qed.

End ContextFacts.

(** C4. [buildContext] keeps every user message, and keeps an assistant
    message exactly when its model and provider are the target's; the kept
    messages stay in the order of the log.  So the context built for one
    model holds no assistant message tagged with another model. *)
Theorem buildContext_isolates (messages : list Message) (modelId : jsstring)
    (providerId : ProviderId) :
  (forall m, In m (buildContext messages modelId providerId) <->
     In m messages
     /\ (msg_role m = user
         \/ (msg_role m = assistant /\ msg_modelId m = Some modelId
             /\ msg_providerId m = Some providerId)))
  /\ (forall before m after, messages = before ++ m :: after ->
        buildContext messages modelId providerId
        = buildContext before modelId providerId
          ++ (if keep_in_context modelId providerId m then [m] else [])
          ++ buildContext after modelId providerId)
  /\ (forall otherModel otherProvider m,
        (otherModel, otherProvider) <> (modelId, providerId) ->
        In m (buildContext messages modelId providerId) ->
        msg_role m = assistant ->
        ~ (msg_modelId m = Some otherModel
           /\ msg_providerId m = Some otherProvider)).
Proof.
  assert (Hin : forall m, In m (buildContext messages modelId providerId) <->
     In m messages
     /\ (msg_role m = user
         \/ (msg_role m = assistant /\ msg_modelId m = Some modelId
             /\ msg_providerId m = Some providerId))).
  { intros m. unfold buildContext. now rewrite filter_In, keep_in_context_iff. }
  split; [exact Hin|]. split.
  - intros before m after ->. unfold buildContext.
    rewrite filter_app. simpl.
    now destruct (keep_in_context modelId providerId m).
  - intros otherModel otherProvider m Hne Hm Hrole [Hmodel Hprov].
    apply Hin in Hm as [_ [Hu|(_ & Hm' & Hp')]]; [congruence|].
    apply Hne. congruence.
Qed.

(** ** Splitting a buffer that grows *)

Lemma startsWith_nil s : startsWith s [] = true.
Proof. now destruct s. Qed.

Lemma startsWith_app s p t : startsWith s p = true -> startsWith (s ++ t) p = true.
Proof.
  revert s. induction p as [|x p IH]; intros [|y s]; simpl; intros H;
    try apply startsWith_nil; try reflexivity; try discriminate H.
  apply andb_true_iff in H as [Hx Hr].
  rewrite Hx. simpl. now apply IH.
Qed.

Lemma startsWith_length s p :
  startsWith s p = true -> (List.length p <= List.length s)%nat.
Proof.
  revert s. induction p as [|x p IH]; intros [|y s]; simpl; intros H;
    try discriminate H; try lia.
  apply andb_true_iff in H as [_ Hr]. apply IH in Hr. lia.
Qed.

(** A separator that begins in [s] and ends beyond it is longer than what is
    left of [s]. *)
Lemma startsWith_straddle s p t :
  startsWith s p = false -> startsWith (s ++ t) p = true ->
  (List.length s < List.length p)%nat.
Proof.
  revert s. induction p as [|x p IH]; intros [|y s]; simpl; intros H1 H2;
    try discriminate H1; try discriminate H2; try lia.
  apply andb_true_iff in H2 as [Hx Hr].
  rewrite Hx in H1. simpl in H1. specialize (IH s H1 Hr). lia.
Qed.

Lemma split_from_cons sep k c s :
  split_from sep k (c :: s)
  = match k with
    | S k' => split_from sep k' s
    | O =>
        if startsWith (c :: s) sep
        then [] :: split_from sep (List.length sep - 1) s
        else cons_head c (split_from sep 0 s)
    end.
Proof. reflexivity. Qed.

Section SplitFacts.

Variable sep : jsstring.

Lemma split_from_nonempty k s : split_from sep k s <> [].
Proof.
  revert k. induction s as [|c s IH]; intros k; [discriminate|].
  rewrite split_from_cons. destruct k as [|k]; [|apply IH].
  destruct (startsWith (c :: s) sep); [discriminate|].
  specialize (IH 0%nat). destruct (split_from sep 0 s); [contradiction|].
  discriminate.
Qed.

Lemma split_short s :
  (List.length s < List.length sep)%nat -> split_from sep 0 s = [s].
Proof.
  induction s as [|c s IH]; intros Hlen; [reflexivity|].
  rewrite split_from_cons.
  destruct (startsWith (c :: s) sep) eqn:E.
  - apply startsWith_length in E. simpl in E, Hlen. lia.
  - rewrite IH by (simpl in Hlen; lia). reflexivity.
Qed.

Lemma split_single k s x : split_from sep k s = [x] -> x = skipn k s.
Proof.
  revert k x. induction s as [|c s IH]; intros k x H.
  - inversion H. now destruct k.
  - rewrite split_from_cons in H. destruct k as [|k]; [|now apply IH].
    destruct (startsWith (c :: s) sep).
    + inversion H as [[Hx Hnil]]. now apply split_from_nonempty in Hnil.
    + destruct (split_from sep 0 s) as [|p ps] eqn:E.
      * now apply split_from_nonempty in E.
      * simpl in H. inversion H; subst. simpl. f_equal.
        apply (IH 0%nat). now rewrite E.
Qed.

Lemma removelast_cons_head c (parts : list jsstring) :
  (2 <= List.length parts)%nat ->
  removelast (cons_head c parts) = cons_head c (removelast parts)
  /\ last (cons_head c parts) [] = last parts [].
Proof.
  destruct parts as [|p [|p' ps]]; simpl; intros H; try lia. split; reflexivity.
Qed.

(** The pieces of a text that is continued are the complete pieces of the
    text so far, followed by the pieces of its last piece continued. *)
Lemma split_from_app s t : forall k,
  (k <= List.length s)%nat ->
  split_from sep k (s ++ t)
  = removelast (split_from sep k s)
    ++ split_from sep 0 (last (split_from sep k s) [] ++ t).
Proof.
  induction s as [|c s IH]; intros k Hk.
  - assert (k = 0%nat) by (simpl in Hk; lia). subst. reflexivity.
  - change ((c :: s) ++ t) with (c :: (s ++ t)).
    rewrite !split_from_cons. destruct k as [|k].
    2:{ apply IH. simpl in Hk. lia. }
    destruct (startsWith (c :: s) sep) eqn:E.
    + assert (E' := startsWith_app _ _ t E).
      change ((c :: s) ++ t) with (c :: (s ++ t)) in E'. rewrite E'.
      assert (Hlen := startsWith_length _ _ E). simpl in Hlen.
      rewrite IH by lia.
      destruct (split_from sep (List.length sep - 1) s) as [|p ps] eqn:Es.
      * now apply split_from_nonempty in Es.
      * reflexivity.
    + destruct (startsWith (c :: (s ++ t)) sep) eqn:E'.
      * assert (Hshort := startsWith_straddle (c :: s) sep t E E').
        simpl in Hshort.
        rewrite split_short by lia.
        change ([] :: split_from sep (List.length sep - 1) (s ++ t)
                = split_from sep 0 (c :: (s ++ t))).
        rewrite split_from_cons, E'. reflexivity.
      * destruct (split_from sep 0 s) as [|p [|p' ps]] eqn:Es.
        -- now apply split_from_nonempty in Es.
        -- apply split_single in Es. simpl in Es. subst p.
           change (cons_head c (split_from sep 0 (s ++ t))
                   = split_from sep 0 (c :: (s ++ t))).
           rewrite split_from_cons, E'. reflexivity.
        -- rewrite IH by lia. rewrite Es.
           destruct (removelast_cons_head c (p :: p' :: ps)) as [Hr Hl];
             [simpl; lia|].
           rewrite Hr, Hl. reflexivity.
Qed.

(** The last piece holds no separator. *)
Lemma split_last_clean s k :
  (k <= List.length s)%nat ->
  split_from sep 0 (last (split_from sep k s) [])
  = [last (split_from sep k s) []].
Proof.
  intros Hk. assert (H := split_from_app s [] k Hk).
  rewrite !app_nil_r in H.
  rewrite (app_removelast_last [] (split_from_nonempty k s)) in H at 1.
  now apply app_inv_head in H.
Qed.

End SplitFacts.

(** ** The stream loop *)

Section LoopFacts.

Variable DecoderState : Type.
Variable decode_byte : DecoderState -> byte -> DecoderState * jsstring.
Variable handle : jsstring -> PartStep.

Lemma decode_app (st : DecoderState) (a b : chunk) :
  decode decode_byte st (a ++ b)
  = (fst (decode decode_byte (fst (decode decode_byte st a)) b),
     snd (decode decode_byte st a)
     ++ snd (decode decode_byte (fst (decode decode_byte st a)) b)).
Proof.
  revert st. induction a as [|x a IH]; simpl; intros st.
  - now destruct (decode decode_byte st b).
  - destruct (decode_byte st x) as [st1 out1]. rewrite IH.
    destruct (decode decode_byte st1 a) as [st2 out2]. simpl.
    now rewrite app_assoc.
Qed.

Lemma for_parts_app (a b : list jsstring) :
  for_parts handle (a ++ b)
  = let '(seen, evs, returned) := for_parts handle a in
    if returned then (seen, evs, true)
    else
      let '(seen', evs', returned') := for_parts handle b in
      (seen ++ seen', evs ++ evs', returned').
Proof.
  induction a as [|p a IH]; simpl.
  - now destruct (for_parts handle b) as [[seen evs] returned].
  - destruct (handle p) as [evs0|]; [|reflexivity].
    rewrite IH. destruct (for_parts handle a) as [[seen evs] [|]];
      [reflexivity|].
    destruct (for_parts handle b) as [[seen' evs'] returned'].
    now rewrite app_assoc.
Qed.

Lemma complete_parts_app (buffer text : jsstring) :
  complete_parts (buffer ++ text)
  = complete_parts buffer
    ++ complete_parts (pop (split buffer blank_line) ++ text).
Proof.
  unfold complete_parts, popped, pop, split.
  rewrite split_from_app by lia.
  apply removelast_app, split_from_nonempty.
Qed.

(** A run over a stream that is read to its end shows what one [for] loop
    over the complete parts of the whole text shows. *)
Lemma read_loop_whole (chunks : list chunk) : forall decoder buffer,
  complete_parts buffer = [] ->
  summary (read_loop decode_byte handle (map Chunk chunks) decoder buffer)
  = loop_summary
      (for_parts handle
         (complete_parts
            (buffer ++ snd (decode decode_byte decoder (List.concat chunks))))).
Proof.
  induction chunks as [|value more IH]; intros decoder buffer Hclean.
  - simpl. rewrite app_nil_r, Hclean. reflexivity.
  - simpl map. simpl List.concat. rewrite decode_app. simpl snd.
    rewrite app_assoc, complete_parts_app, for_parts_app.
    simpl read_loop.
    destruct (decode decode_byte decoder value) as [decoder' text] eqn:Ed.
    simpl fst. simpl snd.
    fold (complete_parts (buffer ++ text)).
    destruct (for_parts handle (complete_parts (buffer ++ text)))
      as [[seen evs] [|]]; [reflexivity|].
    unfold summary. simpl parts_seen. simpl events. simpl outcome.
    specialize (IH decoder' (pop (split (buffer ++ text) blank_line))).
    unfold summary in IH. 
    destruct (for_parts handle
                (complete_parts
                   (pop (split (buffer ++ text) blank_line)
                    ++ snd (decode decode_byte decoder' (List.concat more)))))
      as [[seen' evs'] returned'].
    simpl in IH. 
    assert (Hc : complete_parts (pop (split (buffer ++ text) blank_line)) = []).
    { unfold complete_parts, popped, pop, split.
      rewrite split_last_clean by lia. reflexivity. }
    specialize (IH Hc). inversion IH as [[H1 H2 H3]].
    unfold loop_summary. now rewrite H3.
Qed.

End LoopFacts.

(** ** The claims on the stream loops *)

Section StreamClaims.

Variable DecoderState : Type.
Variable decode_byte : DecoderState -> byte -> DecoderState * jsstring.
Variable JSON_parse : jsstring -> option JsVal.

Lemma for_parts_no_return (handle : jsstring -> PartStep) (parts : list jsstring) :
  (forall p, In p parts -> handle p <> Return) ->
  for_parts handle parts
  = (parts, flat_map (fun p => part_events (handle p)) parts, false).
Proof.
  induction parts as [|p parts IH]; simpl; intros H; [reflexivity|].
  destruct (handle p) as [evs|] eqn:E.
  - rewrite IH by (intros q Hq; apply H; now right). reflexivity.
  - exfalso. apply (H p); [now left | exact E].
Qed.

Lemma openai_part_return (onAnnotations onImage : bool) (part : jsstring) :
  openai_part JSON_parse onAnnotations onImage part = Return
  <-> part_data part = Some (lit "[DONE]").
Proof.
  unfold openai_part. destruct (part_data part) as [data|].
  - destruct (str_eqb data (lit "[DONE]")) eqn:E.
    + apply str_eqb_eq in E. subst. tauto.
    + apply str_eqb_neq in E. split.
      * destruct (JSON_parse data); discriminate.
      * intros H. congruence.
  - split; discriminate.
Qed.

Lemma for_parts_returned (handle : jsstring -> PartStep) (parts : list jsstring) :
  snd (for_parts handle parts) = true ->
  exists part, In part (fst (fst (for_parts handle parts))) /\ handle part = Return.
Proof.
  induction parts as [|p parts IH]; simpl; [discriminate|].
  destruct (handle p) as [evs|] eqn:E.
  - destruct (for_parts handle parts) as [[seen more] returned]. simpl in *.
    intros H. destruct (IH H) as (part & Hin & Hret).
    exists part. split; [now right | exact Hret].
  - intros _. exists p. split; [now left | exact E].
Qed.

(** A run ends by [return] only at a part on which the body returns. *)
Lemma read_loop_returned (handle : jsstring -> PartStep)
    (reader : list ReadResult) : forall decoder buffer,
  outcome (read_loop decode_byte handle reader decoder buffer) = Returned ->
  exists part,
    In part (parts_seen (read_loop decode_byte handle reader decoder buffer))
    /\ handle part = Return.
Proof.
  induction reader as [|[value|e] rest IH]; intros decoder buffer;
    simpl read_loop; try discriminate.
  destruct (decode decode_byte decoder value) as [decoder' text].
  destruct (for_parts handle (popped (split (buffer ++ text) blank_line)))
    as [[seen evs] returned] eqn:E.
  destruct returned; simpl.
  - intros _.
    destruct (for_parts_returned handle
                (popped (split (buffer ++ text) blank_line)))
      as (part & Hin & Hret); [now rewrite E|].
    rewrite E in Hin. now exists part.
  - intros H. destruct (IH _ _ H) as (part & Hin & Hret).
    exists part. split; [|exact Hret]. apply in_or_app. now right.
Qed.

(** C5. Chunk-boundary independence: two ways of cutting one byte stream
    into chunks give the same parts, the same callbacks in the same order
    and the same ending, whatever the decoder keeps between two chunks and
    whatever the adapter does with a part. *)
Theorem chunk_boundary_independence (decoder_init : DecoderState)
    (handle : jsstring -> PartStep) (chunks1 chunks2 : list chunk) :
  List.concat chunks1 = List.concat chunks2 ->
  summary (read_loop decode_byte handle (map Chunk chunks1) decoder_init [])
  = summary (read_loop decode_byte handle (map Chunk chunks2) decoder_init []).
Proof.
  intros H. rewrite !read_loop_whole by reflexivity. now rewrite H.
Qed.

(** C6. In the OpenAI-compatible loop a part whose payload is [[DONE]] makes
    the function return: the parts before it in the chunk have been handled,
    the sentinel invokes no callback, and neither the parts after it nor the
    chunks after this one are looked at. *)
Theorem done_sentinel_returns (onAnnotations onImage : bool)
    (value : chunk) (rest : list ReadResult) (decoder : DecoderState)
    (buffer : jsstring) (before after : list jsstring) (part : jsstring) :
  complete_parts (buffer ++ snd (decode decode_byte decoder value))
  = before ++ part :: after ->
  (forall p, In p before -> part_data p <> Some (lit "[DONE]")) ->
  part_data part = Some (lit "[DONE]") ->
  read_loop decode_byte (openai_part JSON_parse onAnnotations onImage)
    (Chunk value :: rest) decoder buffer
  = mkResult (before ++ [part])
      (flat_map
         (fun p => part_events (openai_part JSON_parse onAnnotations onImage p))
         before)
      Returned rest.
Proof.
  intros Hparts Hbefore Hdone. simpl read_loop.
  destruct (decode decode_byte decoder value) as [decoder' text].
  simpl in Hparts. fold (complete_parts (buffer ++ text)).
  rewrite Hparts, for_parts_app.
  rewrite for_parts_no_return
    by (intros p Hp Hr; apply openai_part_return in Hr;
        exact (Hbefore p Hp Hr)).
  simpl for_parts.
  apply (openai_part_return onAnnotations onImage) in Hdone. rewrite Hdone.
  now rewrite app_nil_r.
Qed.

(** C7. In each of the three loops a part whose payload does not parse
    invokes no callback and does not end the loop: the parts after it are
    handled as if it had not been there. *)
Theorem parse_failure_skips :
  (forall onAnnotations onImage part data,
     part_data part = Some data -> data <> lit "[DONE]" ->
     JSON_parse data = None ->
     openai_part JSON_parse onAnnotations onImage part = Next [])
  /\ (forall event data,
        event_data event = Some data -> JSON_parse data = None ->
        anthropic_part JSON_parse event = Next [])
  /\ (forall part data,
        part_data part = Some data -> JSON_parse data = None ->
        google_part JSON_parse part = Next [])
  /\ (forall handle before part after,
        handle part = Next [] ->
        for_parts handle (before ++ part :: after)
        = let '(seen, evs, returned) := for_parts handle before in
          if returned then (seen, evs, true)
          else
            let '(seen', evs', returned') := for_parts handle after in
            (seen ++ part :: seen', evs ++ evs', returned'))
  /\ (forall reader decoder buffer,
        outcome (read_loop decode_byte (anthropic_part JSON_parse)
                   reader decoder buffer) <> Returned
        /\ outcome (read_loop decode_byte (google_part JSON_parse)
                      reader decoder buffer) <> Returned)
  /\ (forall onAnnotations onImage reader decoder buffer,
        outcome (read_loop decode_byte
                   (openai_part JSON_parse onAnnotations onImage)
                   reader decoder buffer) = Returned ->
        exists part,
          In part (parts_seen
                     (read_loop decode_byte
                        (openai_part JSON_parse onAnnotations onImage)
                        reader decoder buffer))
          /\ part_data part = Some (lit "[DONE]")).
Proof.
  split; [|split; [|split; [|split; [|split]]]].
  6:{ intros onAnnotations onImage reader decoder buffer H.
      apply read_loop_returned in H as (part & Hin & Hret).
      exists part. split; [exact Hin|]. now apply openai_part_return in Hret. }
  5:{ intros reader decoder buffer. split; intros H;
        apply read_loop_returned in H as (part & _ & Hret).
      - unfold anthropic_part in Hret.
        destruct (event_data part) as [data|]; [|discriminate].
        destruct (JSON_parse data); discriminate.
      - unfold google_part in Hret.
        destruct (part_data part) as [data|]; [|discriminate].
        destruct (JSON_parse data); discriminate. }
  - intros onAnnotations onImage part data Hdata Hne Hparse.
    unfold openai_part. rewrite Hdata.
    apply str_eqb_neq in Hne. now rewrite Hne, Hparse.
  - intros event data Hdata Hparse. unfold anthropic_part.
    now rewrite Hdata, Hparse.
  - intros part data Hdata Hparse. unfold google_part.
    now rewrite Hdata, Hparse.
  - intros handle before part after Hpart. rewrite for_parts_app.
    destruct (for_parts handle before) as [[seen evs] [|]]; [reflexivity|].
    simpl. rewrite Hpart.
    now destruct (for_parts handle after) as [[seen' evs'] returned'].
Qed.

End StreamClaims.

Lemma chunk_boundary_independence_witness :
  List.concat Samples.one_chunk = List.concat Samples.three_chunks
  /\ summary (read_loop Utf8.decode_byte (openai_part Samples.parse true true)
                (map Chunk Samples.one_chunk) Utf8.init [])
     = summary (read_loop Utf8.decode_byte (openai_part Samples.parse true true)
                  (map Chunk Samples.three_chunks) Utf8.init []).
Proof.
  split; [reflexivity|].
  apply (chunk_boundary_independence Utf8.State Utf8.decode_byte Utf8.init
           (openai_part Samples.parse true true)
           Samples.one_chunk Samples.three_chunks).
  reflexivity.
Defined.

Lemma done_sentinel_returns_witness :
  read_loop Utf8.decode_byte (openai_part Samples.parse true true)
    [Chunk Samples.stream_bytes; Chunk Samples.stream_bytes] Utf8.init []
  = mkResult [Samples.token_frame; Samples.broken_frame; Samples.done_frame]
      [Token (JStr Samples.token_text)] Returned [Chunk Samples.stream_bytes].
Proof.
  apply (done_sentinel_returns Utf8.State Utf8.decode_byte Samples.parse true true
           Samples.stream_bytes [Chunk Samples.stream_bytes] Utf8.init []
           [Samples.token_frame; Samples.broken_frame] [Samples.token_frame]
           Samples.done_frame).
  - reflexivity.
  - intros p [Hp|[Hp|[]]]; subst p; discriminate.
  - reflexivity.
Defined.

Lemma parse_failure_skips_witness :
  openai_part Samples.parse true true Samples.broken_frame = Next []
  /\ anthropic_part Samples.parse Samples.broken_frame = Next []
  /\ google_part Samples.parse Samples.broken_frame = Next []
  /\ for_parts (openai_part Samples.parse true true)
       ([Samples.token_frame] ++ Samples.broken_frame :: [Samples.token_frame])
     = ([Samples.token_frame; Samples.broken_frame; Samples.token_frame],
        [Token (JStr Samples.token_text); Token (JStr Samples.token_text)],
        false).
Proof.
  destruct (parse_failure_skips Utf8.State Utf8.decode_byte Samples.parse)
    as (Hopenai & Hanthropic & Hgoogle & Hloop & _).
  split; [|split; [|split]].
  - apply (Hopenai true true Samples.broken_frame (lit "{oops"));
      [reflexivity | discriminate | reflexivity].
  - apply (Hanthropic Samples.broken_frame (lit "{oops")); reflexivity.
  - apply (Hgoogle Samples.broken_frame (lit "{oops")); reflexivity.
  - rewrite Hloop.
    + reflexivity.
    + apply (Hopenai true true Samples.broken_frame (lit "{oops"));
        [reflexivity | discriminate | reflexivity].
Defined.

(** ** The claim on the provider dispatch *)

Section DispatchClaims.

Variable DecoderState : Type.
Variable decoder_init : DecoderState.
Variable decode_byte : DecoderState -> byte -> DecoderState * jsstring.
Variable JSON_parse : jsstring -> option JsVal.
Variable fetch : Request -> Thrown + Response.

(** C8. With an empty key [streamProviderResponse] is rejected with the
    configuration error and has issued no request.  With a key it is the
    adapter of the provider's family, called with the options passed on,
    and that adapter issues one request. *)
Theorem missing_key_fails_first (options : Options) :
  (opt_apiKey options = [] ->
   streamProviderResponse decoder_init decode_byte JSON_parse fetch options
   = ([], mkResult [] []
            (Rejected (ErrorObject (lit "Missing API key for provider."))) []))
  /\ (opt_apiKey options <> [] ->
      streamProviderResponse decoder_init decode_byte JSON_parse fetch options
      = match opt_providerId options with
        | anthropic =>
            streamAnthropic decoder_init decode_byte JSON_parse fetch
              (mkPlainOptions (opt_apiKey options) (opt_model options)
                 (opt_messages options) (opt_systemPrompt options)
                 (opt_signal options))
        | google =>
            streamGoogle decoder_init decode_byte JSON_parse fetch
              (mkPlainOptions (opt_apiKey options) (opt_model options)
                 (opt_messages options) (opt_systemPrompt options)
                 (opt_signal options))
        | openrouter | openai | mistral | deepseek =>
            streamOpenAICompatible decoder_init decode_byte JSON_parse fetch
              (mkOpenAIOptions (opt_apiKey options)
                 (provider_baseUrl (PROVIDERS (opt_providerId options)))
                 (opt_model options) (opt_messages options)
                 (opt_systemPrompt options) (opt_onImage options)
                 (opt_onAnnotations options) (opt_supportsImages options)
                 (opt_signal options) (opt_plugins options))
        end
      /\ exists request,
           fst (streamProviderResponse decoder_init decode_byte JSON_parse
                  fetch options)
           = [request]
           /\ req_signal request = opt_signal options).
Proof.
  unfold streamProviderResponse. split.
  - intros ->. reflexivity.
  - intros Hkey. destruct (opt_apiKey options) as [|c key] eqn:E;
      [contradiction|]. simpl str_empty. cbv iota.
    destruct (opt_providerId options); simpl;
      (split; [reflexivity | eexists; split; reflexivity]).
Qed.

End DispatchClaims.

Lemma missing_key_fails_first_witness :
  let fetch := fun _ : Request =>
    inr (mkResponse true (Some [Chunk Samples.stream_bytes]) []) in
  let options key :=
    mkOptions mistral key (lit "mistral-small") Samples.log None true true
      None (Some 0%nat) None in
  streamProviderResponse Utf8.init Utf8.decode_byte Samples.parse fetch
    (options [])
  = ([], mkResult [] []
           (Rejected (ErrorObject (lit "Missing API key for provider."))) [])
  /\ streamProviderResponse Utf8.init Utf8.decode_byte Samples.parse fetch
       (options (lit "sk-1"))
     = ([mkRequest (lit "https://api.mistral.ai/v1/chat/completions") (lit "POST")
           [(lit "Content-Type", lit "application/json");
            (lit "Authorization", lit "Bearer sk-1")]
           (Some 0%nat)],
        mkResult [Samples.token_frame; Samples.broken_frame; Samples.done_frame]
          [Token (JStr Samples.token_text)] Returned []).
Proof.
  intros fetch options. split.
  - apply (missing_key_fails_first Utf8.State Utf8.init Utf8.decode_byte
             Samples.parse fetch (options [])).
    reflexivity.
  - destruct (missing_key_fails_first Utf8.State Utf8.init Utf8.decode_byte
                Samples.parse fetch (options (lit "sk-1"))) as [_ H].
    destruct H as [H _]; [discriminate|]. rewrite H. reflexivity.
Defined.

Lemma buildContext_isolates_witness :
  buildContext Samples.log (lit "model-a") openrouter
  = [Samples.question; Samples.answer_a]
  /\ ~ (msg_modelId Samples.answer_a = Some (lit "model-b")
        /\ msg_providerId Samples.answer_a = Some openrouter).
Proof.
  split; [reflexivity|].
  destruct (buildContext_isolates Samples.log (lit "model-a") openrouter)
    as (_ & _ & H).
  apply (H (lit "model-b") openrouter Samples.answer_a).
  - discriminate.
  - simpl. right. now left.
  - reflexivity.
Defined.

(** ** The claim on the stop operation *)

Section StopFacts.

Lemma stopped_step (message : Message) :
  stopped message
    (if streaming message then with_isStreaming message false else message).
Proof.
  unfold stopped, streaming.
  destruct (msg_isStreaming message) as [[|]|] eqn:E; simpl;
    repeat split; auto; try congruence; intros H; now elim H.
Qed.

Lemma stopped_map (messages : list Message) :
  Forall2 stopped messages
    (map (fun message =>
            if streaming message then with_isStreaming message false else message)
         messages).
Proof.
  induction messages as [|m l IH]; simpl; constructor; auto.
  apply stopped_step.
Qed.

Lemma updateConversation_nth conversationId updater st i conversation :
  nth_error (conversations st) i = Some conversation ->
  nth_error (conversations (updateConversation conversationId updater st)) i
  = Some (if str_eqb (conv_id conversation) conversationId
          then updater conversation else conversation).
Proof.
  intros H. unfold updateConversation. simpl.
  rewrite nth_error_map, H. reflexivity.
Qed.

Lemma abort_keeps_content (assistantId : jsstring) (messages : list Message) :
  map msg_content
    (map (fun msg =>
            if str_eqb (msg_id msg) assistantId
            then with_isStreaming msg false else msg)
       messages)
  = map msg_content messages.
Proof.
  rewrite map_map. apply map_ext. intros msg.
  now destruct (str_eqb (msg_id msg) assistantId).
Qed.

End StopFacts.

(** C9. [stopStreaming] aborts every controller of the registry and empties
    the registry.  In the active conversation every message that was
    streaming is no longer streaming and is otherwise what it was, every
    other message is what it was, and the other conversations are
    untouched.  A task that ends by the abort sets its message to not
    streaming and changes the content of no message. *)
Theorem stopStreaming_frame (now : Z) (st : AppState) :
  abortControllers (stopStreaming now st) = []
  /\ (forall id controller,
        In (id, controller) (abortControllers st) ->
        In controller (aborted (stopStreaming now st)))
  /\ (forall active i conversation,
        activeConversation st = Some active ->
        nth_error (conversations st) i = Some conversation ->
        if str_eqb (conv_id conversation) (conv_id active) then
          exists conversation',
            nth_error (conversations (stopStreaming now st)) i = Some conversation'
            /\ conv_id conversation' = conv_id conversation
            /\ Forall2 stopped (conv_messages conversation)
                 (conv_messages conversation')
        else
          nth_error (conversations (stopStreaming now st)) i = Some conversation)
  /\ (forall conversationId assistantId message now' i conversation,
        nth_error (conversations st) i = Some conversation ->
        exists conversation',
          nth_error
            (conversations
               (finish_task conversationId assistantId
                  (Rejected (DomException (lit "AbortError") message)) now' st))
            i
          = Some conversation'
          /\ map msg_content (conv_messages conversation')
             = map msg_content (conv_messages conversation)
          /\ (forall msg', In msg' (conv_messages conversation') ->
              conv_id conversation = conversationId ->
              msg_id msg' = assistantId ->
              msg_isStreaming msg' = Some false)).
Proof.
  split; [|split; [|split]].
  - unfold stopStreaming. now destruct (activeConversation st).
  - intros id controller Hin. unfold stopStreaming.
    assert (Hc : In controller (map snd (abortControllers st) ++ aborted st)).
    { apply in_or_app. left. apply in_map_iff. now exists (id, controller). }
    now destruct (activeConversation st).
  - intros active i conversation Hactive Hnth. unfold stopStreaming.
    rewrite Hactive.
    rewrite (updateConversation_nth _ _ _ i conversation) by exact Hnth.
    destruct (str_eqb (conv_id conversation) (conv_id active)).
    + eexists. split; [reflexivity|]. split; [reflexivity|].
      apply stopped_map.
    + reflexivity.
  - intros conversationId assistantId message now' i conversation Hnth.
    unfold finish_task. simpl is_abort. cbv iota.
    replace (is_abort (DomException (lit "AbortError") message)) with true
      by reflexivity.
    rewrite (updateConversation_nth _ _ _ i conversation) by exact Hnth.
    destruct (str_eqb (conv_id conversation) conversationId) eqn:E.
    + eexists. split; [reflexivity|]. split.
      * apply abort_keeps_content.
      * intros msg' Hin _ Hid. simpl in Hin. apply in_map_iff in Hin.
        destruct Hin as (msg & Hmsg & _).
        destruct (str_eqb (msg_id msg) assistantId) eqn:Em.
        -- now subst msg'.
        -- subst msg'. apply str_eqb_neq in Em. contradiction.
    + eexists. split; [reflexivity|]. split; [reflexivity|].
      intros msg' _ Hc. apply str_eqb_neq in E. contradiction.
Qed.

Lemma stopStreaming_frame_witness :
  conversations (stopStreaming 5 Samples.app)
  = [mkConversation (lit "c1") (lit "New Chat 1")
       [Samples.question;
        Samples.message (lit "m2") assistant (lit "from a")
          (Some (lit "model-a")) (Some openrouter) (Some false);
        Samples.answer_b]
       5 (Some None)]
  /\ In 1%nat (aborted (stopStreaming 5 Samples.app))
  /\ exists conversation',
       nth_error (conversations (stopStreaming 5 Samples.app)) 0
       = Some conversation'
       /\ conv_id conversation' = lit "c1"
       /\ Forall2 stopped Samples.log (conv_messages conversation').
Proof.
  destruct (stopStreaming_frame 5 Samples.app) as (_ & Habort & Hactive & _).
  split; [reflexivity|]. split.
  - apply (Habort (lit "m3") 1%nat). simpl. right. now left.
  - exact (Hactive Samples.conversation 0%nat Samples.conversation
             eq_refl eq_refl).
Defined.

(** ** Further properties: trimming and renaming *)

Section TrimFacts.

Lemma trimStart_head s c r : trimStart s = c :: r -> is_ws c = false.
Proof.
  induction s as [|x s IH]; simpl; [discriminate|].
  destruct (is_ws x) eqn:E; [exact IH|].
  intros H. inversion H; subst. exact E.
Qed.

Lemma trimStart_snoc a c : is_ws c = false -> trimStart (a ++ [c]) = trimStart a ++ [c].
Proof.
  intros Hc. induction a as [|x a IH]; simpl.
  - now rewrite Hc.
  - destruct (is_ws x); [exact IH | reflexivity].
Qed.

Lemma trimStart_fixed s : edge_ws s = false -> trimStart s = s.
Proof.
  destruct s as [|c r]; [reflexivity|]. simpl.
  intros H. apply orb_false_iff in H as [H _]. now rewrite H.
Qed.

Lemma last_rev_head (c : char) (r : list char) (d : char) :
  last (rev (c :: r)) d = c.
Proof. simpl. now rewrite last_last. Qed.

(** What [trim] gives is empty or has no white space at either end. *)
Lemma trim_edges s : edge_ws (trim s) = false.
Proof.
  unfold trim, trimEnd.
  destruct (trimStart s) as [|c0 r0] eqn:E; [reflexivity|].
  assert (Hc0 := trimStart_head _ _ _ E).
  simpl rev. rewrite trimStart_snoc by exact Hc0.
  rewrite rev_app_distr. simpl. rewrite Hc0. simpl.
  destruct (trimStart (rev r0)) as [|x t] eqn:Et; simpl.
  - exact Hc0.
  - assert (Hx := trimStart_head _ _ _ Et).
    destruct (rev t ++ [x]) as [|y u] eqn:Eu.
    + now destruct (rev t).
    + rewrite <- Eu. now rewrite last_last.
Qed.

Lemma trim_fixed s : edge_ws s = false -> trim s = s.
Proof.
  intros H. unfold trim, trimEnd. rewrite (trimStart_fixed s H).
  destruct s as [|c r]; [reflexivity|].
  unfold edge_ws in H. apply orb_false_iff in H as [_ Hl].
  destruct (rev (c :: r)) as [|x t] eqn:E.
  - apply (f_equal (@List.length _)) in E. rewrite length_rev in E. discriminate.
  - assert (Hx : x = last (c :: r) c).
    { rewrite <- (rev_involutive (c :: r)), E. simpl rev. now rewrite last_last. }
    assert (Hws : is_ws x = false) by (rewrite Hx; exact Hl).
    change (trimStart (x :: t)) with (if is_ws x then trimStart t else x :: t).
    rewrite Hws, <- E. apply rev_involutive.
Qed.

End TrimFacts.

Lemma rename_nth {A : Type} (hit : A -> bool) (update : A -> A) (l : list A) i x :
  nth_error l i = Some x ->
  nth_error (map (fun y => if hit y then update y else y) l) i
  = Some (if hit x then update x else x).
Proof. intros H. now rewrite nth_error_map, H. Qed.

(** X1. A rename with a blank name changes nothing.  Any other rename gives
    every conversation or project with the given id the trimmed name, which
    is not empty and has no white space at either end, keeps its other
    fields, and changes no other entry and nothing else of the state. *)
Theorem rename_keeps_names_trimmed (target name : jsstring) :
  edge_ws (trim name) = false
  /\ (forall st,
        let st' := renameConversation target name st in
        (trim name = [] -> st' = st)
        /\ activeConversationId st' = activeConversationId st
        /\ abortControllers st' = abortControllers st
        /\ aborted st' = aborted st
        /\ List.length (conversations st') = List.length (conversations st)
        /\ (forall i c, nth_error (conversations st) i = Some c ->
              exists c', nth_error (conversations st') i = Some c'
                /\ (conv_id c <> target -> c' = c)
                /\ (conv_id c = target -> trim name <> [] ->
                    c' = mkConversation target (trim name) (conv_messages c)
                           (conv_updatedAt c) (conv_projectId c))))
  /\ (forall projects,
        let projects' := renameProject target name projects in
        (trim name = [] -> projects' = projects)
        /\ List.length projects' = List.length projects
        /\ (forall i p, nth_error projects i = Some p ->
              exists p', nth_error projects' i = Some p'
                /\ (project_id p <> target -> p' = p)
                /\ (project_id p = target -> trim name <> [] ->
                    p' = mkProject target (trim name)))).
Proof.
  split; [apply trim_edges|]. split.
  - intros st. unfold renameConversation.
    destruct (trim name) as [|x t] eqn:E; simpl str_empty; cbv iota zeta.
    + repeat split; try reflexivity.
      intros i c Hnth. exists c. split; [exact Hnth|].
      split; [reflexivity|]. intros _ H. now elim H.
    + split; [discriminate|]. unfold updateConversation.
      cbn [conversations activeConversationId abortControllers aborted].
      repeat split; try reflexivity; [apply length_map|].
      intros i c Hnth. eexists. split; [apply rename_nth; exact Hnth|].
      destruct (str_eqb (conv_id c) target) eqn:Et.
      * apply str_eqb_eq in Et. split; [intros H; now elim H|].
        intros _ _. now rewrite Et.
      * apply str_eqb_neq in Et. split; [reflexivity|].
        intros H. now elim Et.
  - intros projects. unfold renameProject.
    destruct (trim name) as [|x t] eqn:E; simpl str_empty; cbv iota zeta.
    + repeat split; try reflexivity.
      intros i p Hnth. exists p. split; [exact Hnth|].
      split; [reflexivity|]. intros _ H. now elim H.
    + split; [discriminate|]. split; [apply length_map|].
      intros i p Hnth. eexists. split; [apply rename_nth; exact Hnth|].
      destruct (str_eqb (project_id p) target) eqn:Et.
      * apply str_eqb_eq in Et. split; [intros H; now elim H|].
        intros _ _. now rewrite Et.
      * apply str_eqb_neq in Et. split; [reflexivity|].
        intros H. now elim Et.
Qed.

(** The first element that a filter keeps: everything before it is
    dropped. *)
Lemma filter_first {A : Type} (f : A -> bool) (l : list A) :
  match filter f l with
  | first :: _ =>
      exists before after,
        l = before ++ first :: after
        /\ (forall x, In x before -> f x = false) /\ f first = true
  | [] => forall x, In x l -> f x = false
  end.
Proof.
  induction l as [|y l IH]; simpl.
  - intros x [].
  - destruct (f y) eqn:E.
    + exists [], l. repeat split; [|exact E]. intros x [].
    + destruct (filter f l) as [|first rest].
      * intros x [<-|H]; [exact E | now apply IH].
      * destruct IH as (before & after & -> & Hb & Hf).
        exists (y :: before), after. repeat split; [|exact Hf].
        intros x [<-|H]; [exact E | now apply Hb].
Qed.

(** X2. After [deleteChat] the conversations with another id are left, in
    their order, and none with the deleted id.  An active id other than the
    deleted one is kept.  When the active chat is deleted, the first
    conversation of the list with another id becomes the active one, and
    none when every conversation had the deleted id.  So the deleted id is
    never the active one afterwards, and an active id that named a
    conversation before names one of those left. *)
Theorem deleteChat_leaves_no_dangling_active (id : jsstring)
    (conversations : list Conversation) (active : option jsstring) :
  let next := fst (deleteChat id conversations active) in
  let active' := snd (deleteChat id conversations active) in
  next = filter (fun c => negb (str_eqb (conv_id c) id)) conversations
  /\ (forall c, In c next <-> In c conversations /\ conv_id c <> id)
  /\ (active <> Some id -> active' = active)
  /\ (active = Some id ->
      active' = option_map conv_id (hd_error next)
      /\ match active' with
         | Some a' =>
             exists before first after,
               conversations = before ++ first :: after
               /\ (forall c, In c before -> conv_id c = id)
               /\ conv_id first <> id /\ a' = conv_id first
         | None => forall c, In c conversations -> conv_id c = id
         end)
  /\ active' <> Some id
  /\ ((exists a c, active = Some a /\ In c conversations /\ conv_id c = a) ->
      match active' with
      | Some a' => exists c', In c' next /\ conv_id c' = a'
      | None => next = []
      end).
Proof.
  simpl.
  assert (Hfirst := filter_first (fun c => negb (str_eqb (conv_id c) id))
                      conversations).
  remember (filter (fun c => negb (str_eqb (conv_id c) id)) conversations)
    as next eqn:Hn.
  assert (Hnext : forall c, In c next <-> In c conversations /\ conv_id c <> id).
  { intros c. subst next. rewrite filter_In, negb_true_iff, str_eqb_neq.
    reflexivity. }
  split; [reflexivity|]. clear Hn. split; [exact Hnext|].
  split; [|split; [|split]].
  - destruct active as [a|]; [|reflexivity].
    destruct (str_eqb a id) eqn:E; [|reflexivity].
    apply str_eqb_eq in E. subst a. intros H. now elim H.
  - intros ->. rewrite str_eqb_refl.
    destruct next as [|first rest]; simpl.
    + split; [reflexivity|]. intros c Hin. apply Hfirst in Hin.
      apply negb_false_iff in Hin. now apply str_eqb_eq.
    + split; [reflexivity|].
      destruct Hfirst as (before & after & -> & Hb & Hf).
      exists before, first, after. repeat split.
      * intros c Hin. apply Hb in Hin.
        apply negb_false_iff in Hin. now apply str_eqb_eq.
      * apply negb_true_iff in Hf. now apply str_eqb_neq.
  - destruct active as [a|]; [|discriminate].
    destruct (str_eqb a id) eqn:E.
    + destruct next as [|first rest]; [discriminate|].
      intros H. inversion H as [Hid].
      assert (Hin : In first (first :: rest)) by now left.
      apply Hnext in Hin as [_ Hne]. contradiction.
    + apply str_eqb_neq in E. congruence.
  - intros (a & c & -> & Hin & Hid).
    destruct (str_eqb a id) eqn:E.
    + destruct next as [|first rest]; [reflexivity|].
      exists first. split; [now left | reflexivity].
    + exists c. split; [|exact Hid]. apply Hnext.
      apply str_eqb_neq in E. split; congruence.
Qed.

Lemma unassign_spec projectId c :
  conv_projectId (unassign projectId c) <> Some (Some projectId)
  /\ conv_id (unassign projectId c) = conv_id c
  /\ conv_title (unassign projectId c) = conv_title c
  /\ conv_messages (unassign projectId c) = conv_messages c
  /\ conv_updatedAt (unassign projectId c) = conv_updatedAt c
  /\ (conv_projectId c <> Some (Some projectId) -> unassign projectId c = c).
Proof.
  unfold unassign. destruct (conv_projectId c) as [[p|]|] eqn:E.
  - destruct (str_eqb p projectId) eqn:Ep; simpl.
    + apply str_eqb_eq in Ep. subst p. repeat split; try discriminate.
      intros H. now elim H.
    + apply str_eqb_neq in Ep. rewrite E. repeat split; congruence.
  - rewrite E. repeat split; discriminate.
  - rewrite E. repeat split; discriminate.
Qed.

(** X3. After [deleteProject] the project is gone, the other projects are
    kept, and no conversation refers to the deleted project; every
    conversation is still there, in place, with its id, title and messages,
    and those of other projects are unchanged. *)
Theorem deleteProject_unassigns (projectId : jsstring) (projects : list Project)
    (conversations : list Conversation) :
  let projects' := fst (deleteProject projectId projects conversations) in
  let conversations' := snd (deleteProject projectId projects conversations) in
  (forall p, In p projects' <-> In p projects /\ project_id p <> projectId)
  /\ (forall c', In c' conversations' ->
        conv_projectId c' <> Some (Some projectId))
  /\ map conv_id conversations' = map conv_id conversations
  /\ map conv_title conversations' = map conv_title conversations
  /\ map conv_messages conversations' = map conv_messages conversations
  /\ (forall i c, nth_error conversations i = Some c ->
        conv_projectId c <> Some (Some projectId) ->
        nth_error conversations' i = Some c).
Proof.
  simpl. split; [|split; [|split; [|split; [|split]]]].
  - intros p. rewrite filter_In, negb_true_iff, str_eqb_neq. reflexivity.
  - intros c' H. apply in_map_iff in H as (c & <- & _).
    apply unassign_spec.
  - rewrite map_map. apply map_ext. intros c. apply unassign_spec.
  - rewrite map_map. apply map_ext. intros c. apply unassign_spec.
  - rewrite map_map. apply map_ext. intros c. apply unassign_spec.
  - intros i c Hnth Hp. rewrite nth_error_map, Hnth. simpl.
    f_equal. now apply unassign_spec.
Qed.

Lemma remove_index_past {A : Type} (l : list A) : forall j index,
  (index < j)%nat -> remove_index j index l = l.
Proof.
  induction l as [|x l IH]; intros j index Hj; [reflexivity|].
  cbn [remove_index].
  replace (Nat.eqb j index) with false by (symmetry; apply Nat.eqb_neq; lia).
  f_equal. apply IH. lia.
Qed.

Lemma remove_index_from {A : Type} (l : list A) : forall i index,
  (i <= index)%nat ->
  remove_index i index l = firstn (index - i) l ++ skipn (S (index - i)) l.
Proof.
  induction l as [|x l IH]; intros i index Hle.
  - now rewrite firstn_nil.
  - cbn [remove_index]. destruct (Nat.eqb i index) eqn:E.
    + apply Nat.eqb_eq in E. subst. rewrite Nat.sub_diag.
      rewrite remove_index_past by lia. reflexivity.
    + apply Nat.eqb_neq in E.
      replace (index - i)%nat with (S (index - S i)) by lia.
      cbn [firstn skipn app]. f_equal. apply IH. lia.
Qed.

(** X4. [removeAttachment] removes the attachment at the index and keeps
    the others in order; an index beyond the list removes nothing. *)
Theorem removeAttachment_removes_one (index : nat) (attachments : list Attachment) :
  removeAttachment index attachments
  = firstn index attachments ++ skipn (S index) attachments
  /\ ((List.length attachments <= index)%nat ->
      removeAttachment index attachments = attachments)
  /\ ((index < List.length attachments)%nat ->
      S (List.length (removeAttachment index attachments))
      = List.length attachments).
Proof.
  assert (H : removeAttachment index attachments
              = firstn index attachments ++ skipn (S index) attachments).
  { unfold removeAttachment. rewrite remove_index_from by lia.
    now rewrite Nat.sub_0_r. }
  split; [exact H|]. split.
  - intros Hlen. rewrite H, firstn_all2 by lia.
    rewrite skipn_all2 by lia. apply app_nil_r.
  - intros Hlt. rewrite H, length_app, length_firstn, length_skipn. lia.
Qed.

(** ** Further properties: the callbacks of a task *)

Section TurnFacts.

Lemma with_token_twice (m : Message) (a b : jsstring) :
  with_token (with_token m a) b = with_token m (a ++ b).
Proof. unfold with_token. simpl. now rewrite app_assoc. Qed.

Lemma after_tokens_twice cid aid a b now1 now2 (c : Conversation) :
  after_tokens cid aid b now2 (after_tokens cid aid a now1 c)
  = after_tokens cid aid (a ++ b) now2 c.
Proof.
  unfold after_tokens. destruct (str_eqb (conv_id c) cid) eqn:E.
  - unfold for_message, with_messages. simpl. rewrite E. simpl.
    f_equal. rewrite map_map. apply map_ext. intros m.
    destruct (str_eqb (msg_id m) aid) eqn:Em; simpl.
    + rewrite Em. apply with_token_twice.
    + now rewrite Em.
  - now rewrite E.
Qed.

Lemma last_any_default {A : Type} (l : list A) (x d d' : A) :
  last (x :: l) d = last (x :: l) d'.
Proof.
  revert x. induction l as [|y l IH]; intros x; [reflexivity|].
  change (last (y :: l) d = last (y :: l) d'). apply IH.
Qed.

Lemma onTokens_conversations cid aid (tokens : list (jsstring * Z)) :
  forall token st,
    conversations (onTokens cid aid (token :: tokens) st)
    = map (after_tokens cid aid
             (List.concat (map fst (token :: tokens)))
             (snd (last tokens token)))
        (conversations st).
Proof.
  induction tokens as [|t ts IH]; intros token st.
  - simpl. now rewrite app_nil_r.
  - change (onTokens cid aid (token :: t :: ts) st)
      with (onTokens cid aid (t :: ts)
              (onToken cid aid (fst token) (snd token) st)).
    rewrite IH. unfold onToken, updateConversation. simpl conversations.
    rewrite map_map. apply map_ext. intros c.
    change (if str_eqb (conv_id c) cid
            then for_message aid (fun m => with_token m (fst token)) (snd token) c
            else c)
      with (after_tokens cid aid (fst token) (snd token) c).
    rewrite after_tokens_twice.
    replace (snd (last (t :: ts) token)) with (snd (last ts t)); [reflexivity|].
    destruct ts as [|p ts]; [reflexivity|].
    change (last (t :: p :: ts) token) with (last (p :: ts) token).
    f_equal. apply last_any_default.
Qed.

Lemma onTokens_registry cid aid (tokens : list (jsstring * Z)) : forall st,
  abortControllers (onTokens cid aid tokens st) = abortControllers st
  /\ aborted (onTokens cid aid tokens st) = aborted st
  /\ activeConversationId (onTokens cid aid tokens st) = activeConversationId st.
Proof.
  induction tokens as [|t ts IH]; intros st; [now repeat split|].
  change (onTokens cid aid (t :: ts) st)
    with (onTokens cid aid ts (onToken cid aid (fst t) (snd t) st)).
  destruct (IH (onToken cid aid (fst t) (snd t) st)) as (H1 & H2 & H3).
  now rewrite H1, H2, H3.
Qed.

End TurnFacts.

(** X5. The tokens of a task, in the order of their arrival, are appended to
    the content of the message of the task, which is marked as streaming.
    No other message changes, and no other conversation; the registry of
    controllers is not touched. *)
Theorem onTokens_appends_in_order (conversationId assistantId : jsstring)
    (tokens : list (jsstring * Z)) (st : AppState) :
  tokens <> [] ->
  (forall i conversation,
     nth_error (conversations st) i = Some conversation ->
     exists conversation',
       nth_error (conversations (onTokens conversationId assistantId tokens st)) i
       = Some conversation'
       /\ conv_id conversation' = conv_id conversation
       /\ conv_title conversation' = conv_title conversation
       /\ conv_projectId conversation' = conv_projectId conversation
       /\ (conv_id conversation <> conversationId -> conversation' = conversation)
       /\ (conv_id conversation = conversationId ->
           conv_messages conversation'
           = map (fun message =>
                    if str_eqb (msg_id message) assistantId
                    then with_token message (List.concat (map fst tokens))
                    else message)
               (conv_messages conversation)))
  /\ abortControllers (onTokens conversationId assistantId tokens st)
     = abortControllers st
  /\ aborted (onTokens conversationId assistantId tokens st) = aborted st.
Proof.
  intros Hne. destruct tokens as [|token tokens]; [contradiction|].
  split; [|split; apply onTokens_registry].
  intros i conversation Hnth.
  rewrite onTokens_conversations, nth_error_map, Hnth. simpl option_map.
  eexists. split; [reflexivity|]. unfold after_tokens.
  destruct (str_eqb (conv_id conversation) conversationId) eqn:E.
  - apply str_eqb_eq in E. repeat split; try reflexivity.
    intros H. contradiction.
  - apply str_eqb_neq in E. repeat split; try reflexivity.
    intros H. contradiction.
Qed.

Section SourcesFacts.

(** The urls of a merge are those of the two lists. *)
Lemma mergeSources_url_In existing incoming u :
  In u (map url (mergeSources existing incoming))
  <-> In u (map url (or_empty existing)) \/ In u (map url incoming).
Proof.
  rewrite mergeSources_keys. unfold first_occurrences.
  rewrite dedupe_from_In, in_app_iff. simpl. tauto.
Qed.

(** Merging in again what a merge took in changes nothing. *)
Lemma mergeSources_again existing incoming :
  mergeSources (Some (mergeSources existing incoming)) incoming
  = mergeSources existing incoming.
Proof.
  unfold mergeSources.
  set (m := fold_left merge_step incoming (seed (or_empty existing))).
  change (or_empty (Some (map_values m))) with (map_values m).
  assert (Hwf : well_formed m) by (apply merged_well_formed, seed_well_formed).
  rewrite (seed_values m Hwf), fold_absorbed; [reflexivity|].
  intros s Hs. apply fold_absorbs. now left.
Qed.

Lemma unique_with_sources m incoming : unique_sources (with_sources m incoming).
Proof. unfold unique_sources. simpl. apply mergeSources_NoDup. Qed.

Lemma updateConversation_unique cid (f : Message -> Message) now st :
  (forall m, unique_sources m -> unique_sources (f m)) ->
  all_unique_sources st ->
  all_unique_sources
    (updateConversation cid (fun c => with_messages c f now) st).
Proof.
  intros Hf Hst c' m' Hc' Hm'. unfold updateConversation in Hc'. simpl in Hc'.
  apply in_map_iff in Hc' as (c & Hc & Hin).
  destruct (str_eqb (conv_id c) cid).
  - subst c'. simpl in Hm'. apply in_map_iff in Hm' as (m & <- & Hm).
    apply Hf. exact (Hst c m Hin Hm).
  - subst c'. exact (Hst c m' Hin Hm').
Qed.

Lemma unique_if (b : bool) (m m' : Message) :
  unique_sources m -> unique_sources m' -> unique_sources (if b then m' else m).
Proof. now destruct b. Qed.

End SourcesFacts.

(** X6. At most one citation per url in every message is an invariant of
    the state: the callbacks of a task, the end of a task and the stop
    operation all keep it. *)
Theorem supervisor_keeps_sources_unique (st : AppState) :
  all_unique_sources st ->
  (forall cid aid token now, all_unique_sources (onToken cid aid token now st))
  /\ (forall cid aid url now, all_unique_sources (onImage cid aid url now st))
  /\ (forall cid aid annotations now,
        all_unique_sources (onAnnotations cid aid annotations now st))
  /\ (forall cid aid result now,
        all_unique_sources (finish_task cid aid result now st))
  /\ (forall now, all_unique_sources (stopStreaming now st)).
Proof.
  intros Hst. split; [|split; [|split; [|split]]].
  - intros cid aid token now. unfold onToken, for_message.
    apply updateConversation_unique; [|exact Hst].
    intros m Hm. now apply unique_if.
  - intros cid aid u now. unfold onImage, for_message.
    apply updateConversation_unique; [|exact Hst].
    intros m Hm. now apply unique_if.
  - intros cid aid annotations now. unfold onAnnotations, for_message.
    destruct (Nat.eqb (List.length (extractSources annotations)) 0);
      [exact Hst|].
    apply updateConversation_unique; [|exact Hst].
    intros m Hm. apply unique_if; [exact Hm | apply unique_with_sources].
  - intros cid aid result now.
    assert (Hd : all_unique_sources (delete_controller aid st)) by exact Hst.
    unfold finish_task.
    destruct result as [| |e]; [| |destruct (is_abort e)];
      (apply updateConversation_unique; [|exact Hd]);
      intros m Hm; now apply unique_if.
  - intros now. unfold stopStreaming.
    destruct (activeConversation st) as [active|]; [|exact Hst].
    apply (updateConversation_unique (conv_id active)
             (fun message =>
                if streaming message then with_isStreaming message false
                else message)
             now
             (mkApp (conversations st) (activeConversationId st) []
                (map snd (abortControllers st) ++ aborted st))).
    + intros m Hm. now apply unique_if.
    + exact Hst.
Qed.

(** X7. A batch of annotations without a citation changes nothing.  Any
    other batch leaves the message of the task with at most one citation
    per url, whatever it held before, and with a citation for every url of
    the batch.  A batch that arrives a second time changes no message. *)
Theorem onAnnotations_merges_once (conversationId assistantId : jsstring)
    (annotations : JsVal) (st : AppState) :
  (extractSources annotations = [] ->
   forall now, onAnnotations conversationId assistantId annotations now st = st)
  /\ (extractSources annotations <> [] ->
      forall now conversation' message',
        In conversation'
          (conversations
             (onAnnotations conversationId assistantId annotations now st)) ->
        In message' (conv_messages conversation') ->
        conv_id conversation' = conversationId ->
        msg_id message' = assistantId ->
        exists sources,
          msg_sources message' = Some sources
          /\ NoDup (map url sources)
          /\ (forall c, In c (extractSources annotations) ->
              In (url c) (map url sources)))
  /\ (forall now now',
        conversations
          (onAnnotations conversationId assistantId annotations now'
             (onAnnotations conversationId assistantId annotations now st))
        = conversations
            (onAnnotations conversationId assistantId annotations now' st)).
Proof.
  unfold onAnnotations. split; [|split].
  - intros -> now. reflexivity.
  - intros Hne now c' m' Hc' Hm' Hcid Haid.
    destruct (extractSources annotations) as [|x incoming] eqn:E;
      [contradiction|].
    simpl Nat.eqb in Hc'. cbv iota in Hc'.
    unfold updateConversation in Hc'. simpl in Hc'.
    apply in_map_iff in Hc' as (c & Hc & Hin).
    destruct (str_eqb (conv_id c) conversationId) eqn:Ec.
    + subst c'. simpl in Hm'. apply in_map_iff in Hm' as (m & Hm & Hmin).
      destruct (str_eqb (msg_id m) assistantId) eqn:Em.
      * subst m'. simpl. eexists. split; [reflexivity|].
        split; [apply mergeSources_NoDup|].
        intros c0 Hc0. apply mergeSources_url_In. right.
        now apply in_map.
      * subst m'. apply str_eqb_neq in Em. contradiction.
    + subst c'. apply str_eqb_neq in Ec. contradiction.
  - intros now now'.
    destruct (extractSources annotations) as [|x incoming] eqn:E;
      [reflexivity|].
    simpl Nat.eqb. cbv iota. unfold updateConversation. simpl.
    rewrite map_map. apply map_ext. intros c.
    destruct (str_eqb (conv_id c) conversationId) eqn:Ec; [|now rewrite Ec].
    unfold for_message, with_messages. simpl. rewrite Ec. simpl. f_equal.
    rewrite map_map. apply map_ext. intros m.
    destruct (str_eqb (msg_id m) assistantId) eqn:Em; simpl; rewrite Em;
      [|reflexivity].
    unfold with_sources. simpl. now rewrite mergeSources_again.
Qed.

(** ** Further properties: the end of a task and the stop operation *)

Section EndFacts.

Lemma update_message_nth cid aid (f : Message -> Message) now st i c j m :
  nth_error (conversations st) i = Some c ->
  nth_error (conv_messages c) j = Some m ->
  exists c',
    nth_error
      (conversations
         (updateConversation cid
            (fun conversation =>
               with_messages conversation
                 (fun x => if str_eqb (msg_id x) aid then f x else x) now)
            st))
      i
    = Some c'
    /\ conv_id c' = conv_id c
    /\ nth_error (conv_messages c') j
       = Some (if str_eqb (conv_id c) cid && str_eqb (msg_id m) aid
               then f m else m).
Proof.
  intros Hc Hm. rewrite (updateConversation_nth _ _ _ i c) by exact Hc.
  eexists. split; [reflexivity|].
  destruct (str_eqb (conv_id c) cid); simpl.
  - split; [reflexivity|]. now rewrite nth_error_map, Hm.
  - split; [reflexivity | exact Hm].
Qed.

Lemma find_map_same_key (a : jsstring) (h : Conversation -> Conversation)
    (l : list Conversation) :
  (forall c, conv_id (h c) = conv_id c) ->
  find (fun c => str_eqb (conv_id c) a) (map h l)
  = option_map h (find (fun c => str_eqb (conv_id c) a) l).
Proof.
  intros Hh. induction l as [|c l IH]; simpl; [reflexivity|].
  rewrite Hh. now destruct (str_eqb (conv_id c) a).
Qed.

Lemma activeConversation_id st active :
  activeConversation st = Some active ->
  activeConversationId st = Some (conv_id active).
Proof.
  unfold activeConversation. destruct (activeConversationId st) as [a|];
    [|discriminate].
  intros H. apply find_some in H as [_ H]. apply str_eqb_eq in H. now subst.
Qed.

Lemma unstream_not_streaming m : streaming (unstream m) = false.
Proof.
  unfold unstream, streaming.
  destruct (msg_isStreaming m) as [[|]|] eqn:E; simpl; now rewrite ?E.
Qed.

Lemma unstream_twice m : unstream (unstream m) = unstream m.
Proof.
  unfold unstream at 1. now rewrite unstream_not_streaming.
Qed.

(** The active conversation after [stopStreaming]. *)
Lemma activeConversation_stopped now st :
  activeConversation (stopStreaming now st)
  = option_map (fun c => with_messages c unstream now) (activeConversation st).
Proof.
  unfold stopStreaming. destruct (activeConversation st) as [active|] eqn:Ea.
  - assert (Hid := activeConversation_id _ _ Ea).
    unfold activeConversation in *. simpl. rewrite Hid in *.
    rewrite find_map_same_key.
    + rewrite Ea. simpl. now rewrite str_eqb_refl.
    + intros c. now destruct (str_eqb (conv_id c) (conv_id active)).
  - unfold activeConversation in *. simpl. exact Ea.
Qed.

End EndFacts.

(** X8. However a task ends, its message is afterwards not streaming and
    its controller is out of the registry.  The content of the message is
    what it was, unless the task failed otherwise than by an abort: then it
    is [Error: ] followed by the message of the error.  Every other field
    and every other message is unchanged, and so are the other controllers. *)
Theorem finish_task_settles_own_message (conversationId assistantId : jsstring)
    (result : Outcome) (now : Z) (st : AppState) :
  let st' := finish_task conversationId assistantId result now st in
  (forall i conversation j message,
     nth_error (conversations st) i = Some conversation ->
     nth_error (conv_messages conversation) j = Some message ->
     exists conversation' message',
       nth_error (conversations st') i = Some conversation'
       /\ conv_id conversation' = conv_id conversation
       /\ nth_error (conv_messages conversation') j = Some message'
       /\ (conv_id conversation <> conversationId \/ msg_id message <> assistantId ->
           message' = message)
       /\ (conv_id conversation = conversationId -> msg_id message = assistantId ->
           msg_isStreaming message' = Some false
           /\ msg_content message'
              = match result with
                | Rejected error =>
                    if is_abort error then msg_content message
                    else lit "Error: " ++ error_message error
                | _ => msg_content message
                end
           /\ with_isStreaming (with_error message' []) false
              = with_isStreaming (with_error message []) false))
  /\ (forall id controller,
        In (id, controller) (abortControllers st') <->
        In (id, controller) (abortControllers st) /\ id <> assistantId)
  /\ aborted st' = aborted st.
Proof.
  assert (Hreg : forall updater,
            abortControllers
              (updateConversation conversationId updater
                 (delete_controller assistantId st))
            = filter (fun entry => negb (str_eqb (fst entry) assistantId))
                (abortControllers st)) by reflexivity.
  simpl. split; [|split].
  - intros i c j m Hc Hm.
    assert (Hcases :
      forall f : Message -> Message,
        (forall x, msg_isStreaming (f x) = Some false) ->
        (forall x, with_isStreaming (with_error (f x) []) false
                   = with_isStreaming (with_error x []) false) ->
        exists c' m',
          nth_error
            (conversations
               (updateConversation conversationId
                  (fun conversation =>
                     with_messages conversation
                       (fun x => if str_eqb (msg_id x) assistantId
                                 then f x else x) now)
                  (delete_controller assistantId st)))
            i = Some c'
          /\ conv_id c' = conv_id c
          /\ nth_error (conv_messages c') j = Some m'
          /\ (conv_id c <> conversationId \/ msg_id m <> assistantId -> m' = m)
          /\ (conv_id c = conversationId -> msg_id m = assistantId ->
              m' = f m)).
    { intros f _ _.
      destruct (update_message_nth conversationId assistantId f now
                  (delete_controller assistantId st) i c j m Hc Hm)
        as (c' & Hc' & Hid & Hm').
      exists c'. eexists. split; [exact Hc'|]. split; [exact Hid|].
      split; [exact Hm'|]. split.
      - intros [H|H]; apply str_eqb_neq in H; rewrite H; simpl;
          [reflexivity | now rewrite andb_false_r].
      - intros H1 H2. apply str_eqb_eq in H1, H2. now rewrite H1, H2. }
    unfold finish_task.
    destruct result as [| |e]; [| |destruct (is_abort e)].
    1,2,3: destruct (Hcases (fun x => with_isStreaming x false))
             as (c' & m' & H1 & H2 & H3 & H4 & H5); try reflexivity;
           exists c', m'; repeat split; auto;
           try (intros; rewrite (H5 H H0); reflexivity).
    destruct (Hcases (fun x => with_error x (lit "Error: " ++ error_message e)))
      as (c' & m' & H1 & H2 & H3 & H4 & H5); try reflexivity.
    exists c', m'. repeat split; auto;
      try (intros; rewrite (H5 H H0); reflexivity).
  - intros id controller.
    assert (Hf : abortControllers
                   (finish_task conversationId assistantId result now st)
                 = filter (fun entry => negb (str_eqb (fst entry) assistantId))
                     (abortControllers st)).
    { unfold finish_task.
      destruct result as [| |e]; [| |destruct (is_abort e)]; apply Hreg. }
    rewrite Hf, filter_In. simpl. rewrite negb_true_iff, str_eqb_neq.
    reflexivity.
  - unfold finish_task.
    destruct result as [| |e]; [| |destruct (is_abort e)]; reflexivity.
Qed.

(** X9. After [stopStreaming] no message of the active conversation is
    streaming, so the interface offers to send again; and stopping a second
    time gives what stopping once gives. *)
Theorem stopStreaming_stops_once (now now' : Z) (st : AppState) :
  isStreaming (stopStreaming now st) = false
  /\ stopStreaming now' (stopStreaming now st) = stopStreaming now' st.
Proof.
  split.
  - unfold isStreaming. rewrite activeConversation_stopped.
    destruct (activeConversation st) as [active|]; simpl; [|reflexivity].
    induction (conv_messages active) as [|m l IH]; simpl; [reflexivity|].
    fold (unstream m). now rewrite unstream_not_streaming.
  - unfold stopStreaming at 1. rewrite activeConversation_stopped.
    unfold stopStreaming.
    destruct (activeConversation st) as [active|]; simpl; [|reflexivity].
    unfold updateConversation. simpl. f_equal. rewrite map_map.
    apply map_ext. intros c.
    destruct (str_eqb (conv_id c) (conv_id active)) eqn:E; simpl;
      rewrite E; [|reflexivity].
    unfold with_messages. simpl. f_equal. rewrite map_map.
    apply map_ext. intros m. apply unstream_twice.
Qed.

(** ** Further properties: the stream loops *)

Section StreamExtras.

Variable DecoderState : Type.
Variable decode_byte : DecoderState -> byte -> DecoderState * jsstring.

Lemma read_loop_then_failure (handle : jsstring -> PartStep)
    (chunks : list chunk) (e : Thrown) (rest : list ReadResult) :
  forall decoder buffer,
    read_loop decode_byte handle (map Chunk chunks ++ ReadFailure e :: rest)
      decoder buffer
    = let r := read_loop decode_byte handle (map Chunk chunks) decoder buffer in
      match outcome r with
      | Done => mkResult (parts_seen r) (events r) (Rejected e) rest
      | _ => mkResult (parts_seen r) (events r) (outcome r)
               (unread r ++ ReadFailure e :: rest)
      end.
Proof.
  induction chunks as [|value more IH]; intros decoder buffer; [reflexivity|].
  simpl map. simpl app. simpl read_loop.
  destruct (decode decode_byte decoder value) as [decoder' text].
  destruct (for_parts handle (popped (split (buffer ++ text) blank_line)))
    as [[seen evs] [|]]; [reflexivity|].
  rewrite IH. simpl.
  destruct (outcome (read_loop decode_byte handle (map Chunk more) decoder'
                       (pop (split (buffer ++ text) blank_line))));
    reflexivity.
Qed.

(** X10. When a read fails after some chunks, as it does on an abort, the
    parts handled and the callbacks invoked are those of the stream that
    ends after these chunks; the function is rejected with the failure,
    unless the sentinel had made it return before. *)
Theorem read_failure_keeps_events (handle : jsstring -> PartStep)
    (chunks : list chunk) (e : Thrown) (rest : list ReadResult)
    (decoder : DecoderState) (buffer : jsstring) :
  let ended := read_loop decode_byte handle (map Chunk chunks) decoder buffer in
  let failed :=
    read_loop decode_byte handle (map Chunk chunks ++ ReadFailure e :: rest)
      decoder buffer in
  parts_seen failed = parts_seen ended
  /\ events failed = events ended
  /\ (outcome ended = Done -> outcome failed = Rejected e /\ unread failed = rest)
  /\ (outcome ended = Returned -> outcome failed = Returned).
Proof.
  simpl. rewrite read_loop_then_failure. simpl.
  destruct (outcome (read_loop decode_byte handle (map Chunk chunks)
                       decoder buffer)) eqn:E; simpl;
    repeat split; auto; discriminate.
Qed.

(** X11. A run over a stream read to its end handles the parts before the
    last blank line of the text, and nothing else: what follows the last
    blank line is never handled, so a text without a blank line invokes no
    callback at all. *)
Theorem unterminated_tail_is_dropped (handle : jsstring -> PartStep)
    (decoder_init : DecoderState) (chunks : list chunk) :
  let text := snd (decode decode_byte decoder_init (List.concat chunks)) in
  let run := read_loop decode_byte handle (map Chunk chunks) decoder_init [] in
  summary run
  = loop_summary (for_parts handle (removelast (split text blank_line)))
  /\ (forall tail,
        split tail blank_line = [tail] ->
        forall body parts,
          text = body ++ tail ->
          split body blank_line = parts ++ [[]] ->
          summary run = loop_summary (for_parts handle parts))
  /\ (split text blank_line = [text] -> summary run = ([], [], Done)).
Proof.
  simpl.
  assert (H := read_loop_whole DecoderState decode_byte handle chunks
                 decoder_init [] eq_refl).
  simpl app in H. split; [exact H|]. split.
  - intros tail Htail body parts Htext Hbody. rewrite H, Htext.
    rewrite complete_parts_app. unfold complete_parts at 1, popped, pop.
    rewrite Hbody, removelast_last, last_last. simpl app at 2.
    unfold complete_parts, popped. rewrite Htail. simpl.
    now rewrite app_nil_r.
  - intros Hnone. rewrite H. unfold complete_parts, popped.
    rewrite Hnone. reflexivity.
Qed.

End StreamExtras.

Section TransportExtras.

Variable DecoderState : Type.
Variable decoder_init : DecoderState.
Variable decode_byte : DecoderState -> byte -> DecoderState * jsstring.
Variable JSON_parse : jsstring -> option JsVal.
Variable fetch : Request -> Thrown + Response.

Lemma dispatch_with_key (options : Options) :
  opt_apiKey options <> [] ->
  exists request,
    streamProviderResponse decoder_init decode_byte JSON_parse fetch options
    = ([request],
       read_response decoder_init decode_byte
         (match provider_type (PROVIDERS (opt_providerId options)) with
          | TypeOpenAI =>
              openai_part JSON_parse (opt_onAnnotations options)
                (opt_onImage options)
          | TypeAnthropic => anthropic_part JSON_parse
          | TypeGoogle => google_part JSON_parse
          end)
         (fetch request))
    /\ req_signal request = opt_signal options.
Proof.
  intros Hkey. unfold streamProviderResponse.
  destruct (opt_apiKey options) as [|c key] eqn:E; [contradiction|].
  simpl str_empty. cbv iota.
  destruct (opt_providerId options); simpl; eexists; split; reflexivity.
Qed.


End TransportExtras.

(** ** Further properties: models and settings *)

Section ModelFacts.

Lemma startsWith_refl_app p t : startsWith (p ++ t) p = true.
Proof.
  induction p as [|x p IH]; simpl.
  - apply startsWith_nil.
  - now rewrite N.eqb_refl, IH.
Qed.

Lemma replace_first_prefix p r t : replace_first p r (p ++ t) = r ++ t.
Proof.
  destruct (p ++ t) as [|c rest] eqn:E.
  - destruct p; [|discriminate]. simpl in E. subst. simpl.
    now rewrite app_nil_r.
  - cbn [replace_first]. rewrite <- E, startsWith_refl_app.
    f_equal. rewrite skipn_app, skipn_all, Nat.sub_diag. reflexivity.
Qed.

Lemma find_has_id id models model :
  find (has_id id) models = Some model -> In model models /\ model_id model = id.
Proof.
  intros H. apply find_some in H as [Hin Hid]. split; [exact Hin|].
  now apply str_eqb_eq.
Qed.

Lemma find_has_id_exists id models model :
  In model models -> model_id model = id ->
  exists model', find (has_id id) models = Some model'.
Proof.
  intros Hin Hid. destruct (find (has_id id) models) as [m|] eqn:E.
  - now exists m.
  - exfalso. apply (find_none _ _ E) in Hin. unfold has_id in Hin.
    apply str_eqb_neq in Hin. contradiction.
Qed.

Lemma selectedModel_available settings selectedModelId model :
  selectedModel settings selectedModelId = Some model ->
  In model (availableModels settings).
Proof.
  unfold selectedModel.
  destruct (find (has_id selectedModelId) (availableModels settings)) eqn:E.
  - intros H. inversion H; subst. now apply find_has_id in E.
  - destruct (availableModels settings); simpl; [discriminate|].
    intros H. inversion H. now left.
Qed.

Lemma available_has_key settings model :
  In model (availableModels settings) ->
  keys settings (model_providerId model) <> []
  /\ In model (allModels settings).
Proof.
  unfold availableModels, enabled_models. rewrite !filter_In.
  intros [[Hall _] Hkey]. split; [|exact Hall].
  now destruct (keys settings (model_providerId model)).
Qed.

End ModelFacts.

Section DispatchExtras.

Variable DecoderState : Type.
Variable decoder_init : DecoderState.
Variable decode_byte : DecoderState -> byte -> DecoderState * jsstring.
Variable JSON_parse : jsstring -> option JsVal.
Variable fetch : Request -> Thrown + Response.

(** X13. Every model [sendMessage] runs is resolved to an available model
    with that id, hence one with a key: its task issues a request, and the
    error for a missing key never comes from a task of [sendMessage]. *)
Theorem tasks_have_keys (settings : Settings) (compareMode : bool)
    (selectedCompareModels : list jsstring) (selectedModelId modelId : jsstring) :
  In modelId
    (modelsToRun settings compareMode selectedCompareModels selectedModelId) ->
  exists model,
    task_model settings selectedModelId modelId = Some model
    /\ model_id model = modelId
    /\ In model (availableModels settings)
    /\ In model (allModels settings)
    /\ keys settings (model_providerId model) <> []
    /\ forall webSearchEnabled context controller,
         exists request,
           fst (streamProviderResponse decoder_init decode_byte JSON_parse fetch
                  (task_options settings webSearchEnabled model context
                     controller))
           = [request]
           /\ req_signal request = Some controller.
Proof.
  intros Hrun.
  assert (Hfound : exists model,
            find (has_id modelId) (availableModels settings) = Some model).
  { unfold modelsToRun in Hrun. destruct compareMode.
    - apply filter_In in Hrun as [_ Hex]. apply existsb_exists in Hex
        as (m & Hm & Hid).
      apply (find_has_id_exists modelId _ m Hm). now apply str_eqb_eq.
    - destruct (selectedModel settings selectedModelId) as [m|] eqn:E;
        [|contradiction].
      destruct Hrun as [<-|[]].
      apply (find_has_id_exists _ _ m); [|reflexivity].
      now apply selectedModel_available in E. }
  destruct Hfound as (model & Hfind). exists model.
  unfold task_model. rewrite Hfind.
  apply find_has_id in Hfind as [Hin Hid].
  destruct (available_has_key settings model Hin) as [Hkey Hall].
  repeat split; auto.
  intros webSearchEnabled context controller.
  destruct (dispatch_with_key DecoderState decoder_init decode_byte JSON_parse
              fetch
              (task_options settings webSearchEnabled model context controller)
              Hkey) as (request & Hrun' & Hsig).
  exists request. rewrite Hrun'. split; [reflexivity | exact Hsig].
Qed.

End DispatchExtras.

Lemma mem_snoc (x : jsstring) (l : list jsstring) : mem x (l ++ [x]) = true.
Proof.
  rewrite mem_app. cbn [mem]. rewrite str_eqb_refl. now rewrite orb_true_r.
Qed.

Lemma existsb_has_id id models :
  existsb (has_id id) models = true <-> In id (map model_id models).
Proof.
  rewrite existsb_exists, in_map_iff. split.
  - intros (m & Hm & Hid). exists m. split; [|exact Hm]. now apply str_eqb_eq.
  - intros (m & Hid & Hm). exists m. split; [exact Hm|]. now apply str_eqb_eq.
Qed.

(** X14. Adding a custom model.  A blank tag changes nothing.  Otherwise the
    input is cleared and there is a model whose id is [openrouter/] followed
    by the trimmed tag, for which the name sent to the provider is the tag
    again; if no model had that id, the model is new, is the last of the
    custom models, and is enabled; and when the ids of the models were
    distinct, they still are. *)
Theorem addCustomModel_round_trip (customModelInput : jsstring)
    (settings settings' : Settings) (input' : jsstring) :
  addCustomModel customModelInput settings = Some (settings', input') ->
  (trim customModelInput = [] -> settings' = settings /\ input' = customModelInput)
  /\ (trim customModelInput <> [] ->
      input' = []
      /\ (exists model,
            In model (allModels settings')
            /\ model_id model = lit "openrouter/" ++ trim customModelInput
            /\ requestModel model = trim customModelInput)
      /\ (In (lit "openrouter/" ++ trim customModelInput)
            (map model_id (allModels settings)) -> settings' = settings)
      /\ (~ In (lit "openrouter/" ++ trim customModelInput)
              (map model_id (allModels settings)) ->
          exists model,
            allModels settings' = allModels settings ++ [model]
            /\ model_id model = lit "openrouter/" ++ trim customModelInput
            /\ model_providerId model = openrouter
            /\ In model (enabled_models settings')
            /\ keys settings' = keys settings)
      /\ (NoDup (map model_id (allModels settings)) ->
          NoDup (map model_id (allModels settings')))).
Proof.
  unfold addCustomModel. set (tag := trim customModelInput).
  set (fullId := lit "openrouter/" ++ tag).
  assert (Hreq : forall model, model_id model = fullId -> requestModel model = tag).
  { intros model Hid. unfold requestModel. rewrite Hid. unfold fullId.
    rewrite startsWith_refl_app. apply replace_first_prefix. }
  destruct tag as [|c t] eqn:Etag.
  - simpl. intros H. inversion H; subst. split; [now split|].
    intros Hne. now elim Hne.
  - simpl str_empty. cbv iota. rewrite <- Etag in *.
    destruct (existsb (has_id fullId) (allModels settings)) eqn:Eex.
    + intros H. inversion H; subst. split; [rewrite Etag; discriminate|].
      intros _. apply existsb_exists in Eex as (m & Hm & Hid).
      apply str_eqb_eq in Hid.
      split; [reflexivity|]. split; [exists m; auto|].
      split; [reflexivity|]. split; [|auto].
      intros Hnot. exfalso. apply Hnot. apply in_map_iff. now exists m.
    + destruct (enabledModels settings) as [enabled|] eqn:Een; [|discriminate].
      intros H. inversion H; subst settings' input'. clear H.
      set (newModel := mkModel fullId (custom_label tag) openrouter None None).
      assert (Hall : allModels
                       (mkSettings (keys settings) (systemPrompt settings)
                          (colorMode settings) (theme settings)
                          (Some (enabled ++ [fullId]))
                          (Some (custom_or_empty settings ++ [newModel])))
                     = allModels settings ++ [newModel]).
      { unfold allModels, custom_or_empty. cbn [customModels].
        apply app_assoc. }
      assert (Hfresh : ~ In fullId (map model_id (allModels settings))).
      { intros Hin. apply existsb_has_id in Hin. congruence. }
      split; [rewrite Etag; discriminate|].
      intros _. split; [reflexivity|]. split.
      { exists newModel. rewrite Hall. split; [|split; [reflexivity|]].
        - apply in_or_app. right. now left.
        - now apply Hreq. }
      split; [intros Hin; contradiction|]. split.
      { intros _. exists newModel. rewrite Hall.
        repeat split; try reflexivity.
        unfold enabled_models. rewrite Hall. simpl enabledModels.
        apply filter_In. split.
        - apply in_or_app. right. now left.
        - apply (mem_snoc fullId enabled). }
      intros Hnd. rewrite Hall, map_app.
      change (map model_id [newModel]) with [fullId].
      apply NoDup_snoc; assumption.
Qed.

Lemma mem_filter_neq (x y : jsstring) (l : list jsstring) :
  mem x (filter (fun id => negb (str_eqb id y)) l)
  = mem x l && negb (str_eqb x y).
Proof.
  induction l as [|z l IH]; simpl; [reflexivity|].
  destruct (str_eqb z y) eqn:Ez; simpl.
  - rewrite IH. apply str_eqb_eq in Ez. subst z.
    destruct (str_eqb x y); simpl; [now rewrite andb_false_r | reflexivity].
  - rewrite IH. destruct (str_eqb x z) eqn:Ex; simpl; [|reflexivity].
    apply str_eqb_eq in Ex. subst z. now rewrite Ez.
Qed.

Lemma filter_neq_absent (y : jsstring) (l : list jsstring) :
  mem y l = false -> filter (fun id => negb (str_eqb id y)) l = l.
Proof.
  induction l as [|z l IH]; simpl; [reflexivity|].
  intros H. apply orb_false_iff in H as [Hz Hl].
  rewrite str_eqb_sym, Hz. simpl. now rewrite IH.
Qed.

Lemma filter_neq_some (y other : jsstring) (l : list jsstring) :
  mem other l = true -> other <> y ->
  filter (fun id => negb (str_eqb id y)) l <> [].
Proof.
  intros Hmem Hne Hnil.
  assert (H : mem other (filter (fun id => negb (str_eqb id y)) l) = true).
  { rewrite mem_filter_neq, Hmem. apply str_eqb_neq in Hne. now rewrite Hne. }
  rewrite Hnil in H. discriminate H.
Qed.

Lemma filter_neq_all (y : jsstring) (l : list jsstring) :
  (forall other, mem other l = true -> other = y) ->
  filter (fun id => negb (str_eqb id y)) l = [].
Proof.
  induction l as [|z l IH]; intros H; [reflexivity|].
  cbn [filter]. rewrite (H z) by (cbn [mem]; now rewrite str_eqb_refl).
  rewrite str_eqb_refl. cbn [negb]. apply IH.
  intros other Hmem. apply H. cbn [mem]. rewrite Hmem. apply orb_true_r.
Qed.

Lemma setSelectedCompareModels_some selectedModel (models : list jsstring) :
  models <> [] -> setSelectedCompareModels selectedModel models = models.
Proof. destruct models; [intros H; now elim H | reflexivity]. Qed.

(** X15. The click on a model of the picker in compare mode.  A model that
    was not selected is appended to the selection.  A model that was
    selected is removed, wherever it occurs, when another one is selected
    too; when it was the only one, the selection becomes the selected model
    of the chat instead of the empty list.  In the first two cases the other
    models stay as they are.  So with a selected model the selection is
    never empty after a click, and a second click undoes the click on a
    model that was not selected, when something was selected before. *)
Theorem toggleCompareModel_keeps_a_selection (selectedModel : option ModelItem)
    (modelId : jsstring) (selected : list jsstring) :
  let selected' := toggleCompareModel selectedModel modelId selected in
  (mem modelId selected = false ->
   selected' = selected ++ [modelId]
   /\ mem modelId selected' = true
   /\ forall other, other <> modelId -> mem other selected' = mem other selected)
  /\ (mem modelId selected = true ->
      (exists other, mem other selected = true /\ other <> modelId) ->
      selected' = filter (fun id => negb (str_eqb id modelId)) selected
      /\ mem modelId selected' = false
      /\ forall other, other <> modelId -> mem other selected' = mem other selected)
  /\ (mem modelId selected = true ->
      (forall other, mem other selected = true -> other = modelId) ->
      selected' = match selectedModel with
                  | Some model => [model_id model]
                  | None => []
                  end)
  /\ (selectedModel <> None -> selected' <> [])
  /\ (mem modelId selected = false -> selected <> [] ->
      toggleCompareModel selectedModel modelId selected' = selected).
Proof.
  cbv zeta. unfold toggleCompareModel, clicked.
  split; [|split; [|split; [|split]]].
  - intros E. rewrite E.
    rewrite setSelectedCompareModels_some by (now destruct selected).
    split; [reflexivity|]. split; [apply mem_snoc|].
    intros other Hne. apply str_eqb_neq in Hne.
    rewrite mem_app. cbn [mem]. rewrite Hne. now rewrite !orb_false_r.
  - intros E (other & Hmem & Hne). rewrite E.
    rewrite setSelectedCompareModels_some
      by (exact (filter_neq_some modelId other selected Hmem Hne)).
    split; [reflexivity|]. split.
    + rewrite mem_filter_neq, str_eqb_refl. apply andb_false_r.
    + intros x Hx. apply str_eqb_neq in Hx.
      rewrite mem_filter_neq, Hx. apply andb_true_r.
  - intros E Hall. rewrite E, (filter_neq_all modelId selected Hall).
    reflexivity.
  - intros Hsel.
    destruct (if mem modelId selected
              then filter (fun id => negb (str_eqb id modelId)) selected
              else selected ++ [modelId]) as [|x l]; [|discriminate].
    destruct selectedModel as [model|]; [discriminate | now elim Hsel].
  - intros E Hne. rewrite E.
    rewrite (setSelectedCompareModels_some selectedModel (selected ++ [modelId]))
      by (now destruct selected).
    rewrite mem_snoc, filter_app. cbn [filter].
    rewrite str_eqb_refl. cbn [negb]. rewrite app_nil_r.
    rewrite (filter_neq_absent modelId selected E).
    now apply setSelectedCompareModels_some.
Qed.

Lemma available_iff (s : Settings) (model : ModelItem) :
  In model (availableModels s) <->
  In model (allModels s)
  /\ mem (model_id model)
       match enabledModels s with
       | Some ids => ids
       | None => map model_id (allModels s)
       end = true
  /\ str_empty (keys s (model_providerId model)) = false.
Proof.
  unfold availableModels, enabled_models.
  rewrite !filter_In, negb_true_iff. tauto.
Qed.

Lemma force_dark_fields (s : Settings) :
  keys (force_dark s) = keys s
  /\ enabledModels (force_dark s) = enabledModels s
  /\ customModels (force_dark s) = customModels s
  /\ force_dark (force_dark s) = force_dark s.
Proof.
  unfold force_dark.
  destruct (theme s) eqn:Et, (colorMode s) eqn:Ec; cbn; rewrite ?Et, ?Ec;
    repeat split.
Qed.

Lemma force_dark_available (s : Settings) :
  allModels (force_dark s) = allModels s
  /\ forall model, In model (availableModels (force_dark s))
                   <-> In model (availableModels s).
Proof.
  destruct (force_dark_fields s) as (Hk & He & Hc & _).
  assert (Hall : allModels (force_dark s) = allModels s).
  { unfold allModels, custom_or_empty. now rewrite Hc. }
  split; [exact Hall|]. intros model.
  rewrite !available_iff, Hall, Hk, He. reflexivity.
Qed.

Lemma refill_enabled_fixed (s : Settings) id ids :
  enabledModels s = Some (id :: ids) -> refill_enabled s = s.
Proof. unfold refill_enabled. now intros ->. Qed.

Lemma settled_fixed (s : Settings) id ids :
  enabledModels s = Some (id :: ids) -> settled (force_dark s) = force_dark s.
Proof.
  intros He. unfold settled.
  destruct (force_dark_fields s) as (_ & He' & _ & Hd).
  rewrite (refill_enabled_fixed (force_dark s) id ids) by (now rewrite He').
  exact Hd.
Qed.

Lemma mem_model_id (model : ModelItem) (models : list ModelItem) :
  In model models -> mem (model_id model) (map model_id models) = true.
Proof. intros H. apply mem_In. now apply in_map. Qed.

(** X16. The checkbox of a model, with the effects that follow.  The models
    known and the keys are as before, the list of enabled ids is never left
    empty, and the effects have nothing more to do.  Checked, every model
    with that id that has a key is offered.  Unchecked while another id is
    enabled, no model with that id is offered any more.  In both cases the
    other models are offered exactly when they were.  Unchecked as the only
    enabled id, every id is enabled again: all models with a key are
    offered, the unchecked one among them. *)
Theorem setEnabled_offers (modelId : jsstring) (checked : bool)
    (settings settings' : Settings) :
  setEnabled modelId checked settings = Some settings' ->
  exists enabled,
    enabledModels settings = Some enabled
    /\ allModels settings' = allModels settings
    /\ keys settings' = keys settings
    /\ (exists id ids, enabledModels settings' = Some (id :: ids))
    /\ settled settings' = settings'
    /\ (checked = true ->
        enabledModels settings' = Some (enabled ++ [modelId])
        /\ (forall model, In model (allModels settings) ->
              model_id model = modelId ->
              keys settings (model_providerId model) <> [] ->
              In model (availableModels settings'))
        /\ (forall model, model_id model <> modelId ->
              (In model (availableModels settings') <->
               In model (availableModels settings))))
    /\ (checked = false ->
        (exists other, mem other enabled = true /\ other <> modelId) ->
        enabledModels settings'
        = Some (filter (fun id => negb (str_eqb id modelId)) enabled)
        /\ (forall model, In model (availableModels settings') ->
              model_id model <> modelId)
        /\ (forall model, model_id model <> modelId ->
              (In model (availableModels settings') <->
               In model (availableModels settings))))
    /\ (checked = false ->
        (forall other, mem other enabled = true -> other = modelId) ->
        enabledModels settings' = Some (map model_id (allModels settings))
        /\ (forall model, In model (availableModels settings') <->
              In model (allModels settings)
              /\ keys settings (model_providerId model) <> [])).
Proof.
  unfold setEnabled, checkbox_settings.
  destruct (enabledModels settings) as [enabled|] eqn:Een; [|discriminate].
  cbn [option_map]. intros H. injection H as Hs.
  exists enabled. split; [reflexivity|].
  set (next := if checked then enabled ++ [modelId]
               else filter (fun id => negb (str_eqb id modelId)) enabled) in *.
  set (s1 := mkSettings (keys settings) (systemPrompt settings)
               (colorMode settings) (theme settings) (Some next)
               (customModels settings)) in *.
  set (s2 := refill_enabled s1) in *.
  assert (Hall1 : allModels s1 = allModels settings) by reflexivity.
  assert (Hs2 : allModels s2 = allModels settings
                /\ keys s2 = keys settings
                /\ enabledModels s2
                   = Some match next with
                          | [] => map model_id (allModels settings)
                          | _ :: _ => next
                          end).
  { unfold s2, refill_enabled. cbn [enabledModels s1].
    destruct next; repeat split. }
  destruct Hs2 as (Hall2 & Hk2 & He2).
  assert (Hfilled : exists id ids, enabledModels s2 = Some (id :: ids)).
  { rewrite He2. destruct next as [|id ids]; [|now exists id, ids].
    unfold allModels, MODEL_OPTIONS. cbn [app map]. eauto. }
  unfold settled in Hs. fold s1 in Hs. fold s2 in Hs.
  destruct (force_dark_fields s2) as (Hk & He & _ & _).
  destruct (force_dark_available s2) as (Hall & Hav).
  rewrite Hs in Hk, He, Hall, Hav.
  assert (Hoffer : forall model,
            In model (availableModels settings') <->
            In model (allModels settings)
            /\ mem (model_id model)
                 match next with
                 | [] => map model_id (allModels settings)
                 | _ :: _ => next
                 end = true
            /\ str_empty (keys settings (model_providerId model)) = false).
  { intros model. rewrite Hav, available_iff, Hall2, Hk2, He2. reflexivity. }
  assert (Hkey : forall k : jsstring, str_empty k = false <-> k <> []).
  { intros [|c k]; simpl; split; congruence. }
  split; [rewrite Hall; exact Hall2|]. split; [rewrite Hk; exact Hk2|].
  split; [rewrite He; exact Hfilled|]. split.
  { destruct Hfilled as (id & ids & Hf). rewrite <- Hs.
    now apply (settled_fixed s2 id ids). }
  split; [|split].
  - intros ->. assert (Hnext : next = enabled ++ [modelId]) by reflexivity.
    assert (Hne : match next with
                  | [] => map model_id (allModels settings)
                  | _ :: _ => next
                  end = enabled ++ [modelId]).
    { rewrite Hnext. now destruct enabled. }
    rewrite Hne in Hoffer, He2. split; [rewrite He; exact He2|]. split.
    + intros model Hin Hid Hkeys. apply Hoffer. split; [exact Hin|]. split.
      * rewrite Hid. apply mem_snoc.
      * now apply Hkey.
    + intros model Hid. rewrite Hoffer, available_iff, Een.
      apply str_eqb_neq in Hid.
      rewrite mem_app. cbn [mem]. rewrite Hid, !orb_false_r. reflexivity.
  - intros -> (other & Hmem & Hother).
    assert (Hnext : next = filter (fun id => negb (str_eqb id modelId)) enabled)
      by reflexivity.
    assert (Hne : match next with
                  | [] => map model_id (allModels settings)
                  | _ :: _ => next
                  end = filter (fun id => negb (str_eqb id modelId)) enabled).
    { rewrite Hnext.
      assert (Hsome := filter_neq_some modelId other enabled Hmem Hother).
      destruct (filter (fun id => negb (str_eqb id modelId)) enabled);
        [now elim Hsome | reflexivity]. }
    rewrite Hne in Hoffer, He2. split; [rewrite He; exact He2|]. split.
    + intros model Hin. apply Hoffer in Hin as (_ & Hm & _).
      rewrite mem_filter_neq in Hm. apply andb_true_iff in Hm as [_ Hm].
      now apply negb_true_iff, str_eqb_neq in Hm.
    + intros model Hid. rewrite Hoffer, available_iff, Een.
      apply str_eqb_neq in Hid.
      rewrite mem_filter_neq, Hid, andb_true_r. reflexivity.
  - intros -> Honly.
    assert (Hne : match next with
                  | [] => map model_id (allModels settings)
                  | _ :: _ => next
                  end = map model_id (allModels settings)).
    { unfold next. now rewrite (filter_neq_all modelId enabled Honly). }
    rewrite Hne in Hoffer, He2. split; [rewrite He; exact He2|].
    intros model. rewrite Hoffer, Hkey. split.
    + intros (Hin & _ & Hkeys). now split.
    + intros (Hin & Hkeys). split; [exact Hin|]. split; [|exact Hkeys].
      now apply mem_model_id.
Qed.

Lemma grouped_from (models : list ModelItem) : forall (acc : Groups) p,
  fold_left push_model models acc p
  = acc p ++ filter (fun model => provider_eqb p (model_providerId model)) models.
Proof.
  induction models as [|m l IH]; intros acc p; simpl.
  - now rewrite app_nil_r.
  - rewrite IH. unfold push_model.
    destruct (provider_eqb p (model_providerId m)); [|reflexivity].
    now rewrite <- app_assoc.
Qed.

Lemma concat_shown_entries (entries : list (ProviderId * list ModelItem)) :
  List.concat
    (map snd
       (filter (fun entry => Nat.ltb 0 (List.length (snd entry))) entries))
  = List.concat (map snd entries).
Proof.
  induction entries as [|[p group] l IH]; [reflexivity|].
  cbn [filter snd map List.concat]. destruct group as [|m group].
  - exact IH.
  - cbn [List.length Nat.ltb Nat.leb map snd List.concat]. f_equal. exact IH.
Qed.

(** X17. The groups of the model picker: the group of a provider holds the
    models of that provider, in their order; the entries shown are the
    groups that are not empty, in the fixed order of the providers, and
    every model is in the entry of its provider. *)
Theorem grouped_partitions (models : list ModelItem) :
  (forall p, grouped models p
             = filter (fun model => provider_eqb p (model_providerId model)) models)
  /\ (forall p group, In (p, group) (groupedEntries models) <->
        group = grouped models p /\ group <> [])
  /\ (forall model, In model models ->
        exists group, In (model_providerId model, group) (groupedEntries models)
                      /\ In model group)
  /\ List.length (List.concat (map snd (groupedEntries models)))
     = List.length models.
Proof.
  assert (Hg : forall p, grouped models p
             = filter (fun model => provider_eqb p (model_providerId model)) models).
  { intros p. unfold grouped. now rewrite grouped_from. }
  assert (He : forall p group, In (p, group) (groupedEntries models) <->
        group = grouped models p /\ group <> []).
  { intros p group. unfold groupedEntries. rewrite filter_In, in_map_iff.
    simpl. split.
    - intros [(q & Hq & _) Hlen]. inversion Hq; subst. split; [reflexivity|].
      destruct (grouped models p); [discriminate | discriminate].
    - intros [-> Hne]. split.
      + exists p. split; [reflexivity|]. destruct p; simpl; tauto.
      + destruct (grouped models p); [contradiction | reflexivity]. }
  split; [exact Hg|]. split; [exact He|]. split.
  - intros model Hin. exists (grouped models (model_providerId model)).
    assert (Hm : In model (grouped models (model_providerId model))).
    { rewrite Hg. apply filter_In. split; [exact Hin|].
      now apply provider_eqb_eq. }
    split; [|exact Hm]. apply He. split; [reflexivity|].
    intros Hnil. rewrite Hnil in Hm. contradiction.
  - unfold groupedEntries. rewrite concat_shown_entries, map_map.
    unfold provider_order. cbn [map snd List.concat]. rewrite !Hg, app_nil_r.
    rewrite !length_app.
    clear. induction models as [|m l IH]; [reflexivity|].
    cbn [filter]. destruct (model_providerId m); simpl in *; lia.
Qed.

(** ** Further properties: the language and file name of a code block *)

Lemma last_cons_nonempty {A : Type} (x d : A) (l : list A) :
  l <> [] -> last (x :: l) d = last l d.
Proof. destruct l; [contradiction | reflexivity]. Qed.

Section CharSplitFacts.

Variable c : char.

Lemma split_char_cons x s :
  split_from [c] 0 (x :: s)
  = if N.eqb c x then [] :: split_from [c] 0 s
    else cons_head x (split_from [c] 0 s).
Proof.
  rewrite split_from_cons.
  change (startsWith (x :: s) [c]) with (N.eqb c x && startsWith s []).
  now rewrite startsWith_nil, andb_true_r.
Qed.

Lemma split_char_hit s : split_from [c] 0 (c :: s) = [] :: split_from [c] 0 s.
Proof. rewrite split_char_cons. now rewrite N.eqb_refl. Qed.

Lemma split_char_miss x s :
  c <> x -> split_from [c] 0 (x :: s) = cons_head x (split_from [c] 0 s).
Proof.
  intros H. rewrite split_char_cons. apply N.eqb_neq in H. now rewrite H.
Qed.

Lemma split_char_none s : ~ In c s -> split_from [c] 0 s = [s].
Proof.
  induction s as [|x s IH]; intros Hc; [reflexivity|].
  rewrite split_char_cons.
  destruct (N.eqb c x) eqn:E.
  - apply N.eqb_eq in E. subst. exfalso. apply Hc. now left.
  - rewrite IH; [reflexivity|]. intros H. apply Hc. now right.
Qed.

Lemma split_char_app a b :
  ~ In c a -> split_from [c] 0 (a ++ c :: b) = a :: split_from [c] 0 b.
Proof.
  induction a as [|x a IH]; intros Hc.
  - simpl app. rewrite split_char_cons, N.eqb_refl. reflexivity.
  - change ((x :: a) ++ c :: b) with (x :: (a ++ c :: b)).
    rewrite split_char_cons.
    destruct (N.eqb c x) eqn:E.
    + apply N.eqb_eq in E. subst. exfalso. apply Hc. now left.
    + rewrite IH; [reflexivity|]. intros H. apply Hc. now right.
Qed.

Lemma includes_char s : CodeMeta.includes s [c] = true <-> In c s.
Proof.
  induction s as [|x s IH]; simpl.
  - split; [discriminate | tauto].
  - rewrite orb_true_iff, IH.
    change (startsWith (x :: s) [c]) with (N.eqb c x && startsWith s []).
    rewrite startsWith_nil, andb_true_r, N.eqb_eq. split.
    + intros [H|H]; [left; congruence | now right].
    + intros [H|H]; [left; congruence | now right].
Qed.

Lemma last_cons_head x (parts : list jsstring) :
  parts <> [] ->
  (exists p, parts = [p] /\ last (cons_head x parts) [] = x :: p)
  \/ last (cons_head x parts) [] = last parts [].
Proof.
  destruct parts as [|p [|q ps]]; intros H; [contradiction| |].
  - left. now exists p.
  - right. reflexivity.
Qed.

(** The last piece holds no separator, and follows the last separator. *)
Lemma split_char_last_clean s : ~ In c (last (split_from [c] 0 s) []).
Proof.
  induction s as [|x s IH]; [simpl; tauto|].
  rewrite split_char_cons. destruct (N.eqb c x) eqn:E.
  - destruct (split_from [c] 0 s) as [|p ps] eqn:Es.
    + now apply split_from_nonempty in Es.
    + exact IH.
  - destruct (last_cons_head x (split_from [c] 0 s)
                (split_from_nonempty [c] 0 s)) as [(p & Hp & Hl)|Hl];
      rewrite Hl.
    + rewrite Hp in IH. simpl in IH. apply N.eqb_neq in E.
      intros [H|H]; [congruence | contradiction].
    + exact IH.
Qed.

Lemma split_char_last_suffix s :
  In c s -> exists stem, s = stem ++ c :: last (split_from [c] 0 s) [].
Proof.
  induction s as [|x s IH]; intros Hin; [contradiction|].
  assert (Hclean := split_char_last_clean s).
  destruct (N.eqb c x) eqn:E.
  - apply N.eqb_eq in E. subst x. rewrite split_char_hit.
    rewrite last_cons_nonempty by apply split_from_nonempty.
    destruct (in_dec N.eq_dec c s) as [Hs|Hs].
    + destruct (IH Hs) as (stem & Hstem). exists (c :: stem).
      simpl. now rewrite <- Hstem.
    + exists []. rewrite (split_char_none s Hs). reflexivity.
  - apply N.eqb_neq in E. rewrite (split_char_miss x s E).
    destruct Hin as [H|Hs]; [congruence|].
    destruct (IH Hs) as (stem & Hstem).
    destruct (last_cons_head x (split_from [c] 0 s)
                (split_from_nonempty [c] 0 s)) as [(p & Hp & Hl)|Hl].
    + exfalso. rewrite Hp in Hclean. simpl in Hclean.
      apply split_single in Hp. simpl in Hp. subst p. contradiction.
    + rewrite Hl. exists (x :: stem). simpl. now rewrite <- Hstem.
Qed.

End CharSplitFacts.

Lemma takeWhile_spec (p : char -> bool) (s : jsstring) :
  forallb p (takeWhile p s) = true
  /\ exists rest, s = takeWhile p s ++ rest
                  /\ match rest with
                     | [] => True
                     | x :: _ => p x = false
                     end.
Proof.
  induction s as [|x s [IH1 (rest & IH2 & IH3)]]; simpl.
  - split; [reflexivity|]. now exists [].
  - destruct (p x) eqn:E; simpl.
    + rewrite E, IH1. split; [reflexivity|]. exists rest.
      split; [now rewrite <- IH2 | exact IH3].
    + split; [reflexivity|]. exists (x :: s). now split.
Qed.

Lemma startsWith_prefix s p : startsWith s p = true -> s = p ++ skipn (List.length p) s.
Proof.
  revert s. induction p as [|x p IH]; intros [|y s]; simpl; intros H;
    try reflexivity; try discriminate H.
  apply andb_true_iff in H as [Hx Hr]. apply N.eqb_eq in Hx. subst.
  f_equal. now apply IH.
Qed.

Lemma takeWhile_nil_stop (s : jsstring) :
  takeWhile (fun c => negb (is_ws c)) s = [] -> at_stop s = true.
Proof.
  destruct s as [|c s]; [reflexivity|]. simpl.
  destruct (is_ws c); [reflexivity | discriminate].
Qed.

Lemma file_prefix_nil (a : jsstring) : [] <> lit "file=" ++ a.
Proof. discriminate. Qed.

(** The match of [/file=([^\s]+)/] is the leftmost one: the name stands
    after a [file=], runs up to the next white space, and every [file=]
    before it is followed by white space or by the end of the text.  There
    is no match only when every [file=] is followed so. *)
Lemma match_file_spec (meta : jsstring) :
  match match_file meta with
  | Some name =>
      name <> []
      /\ forallb (fun x => negb (is_ws x)) name = true
      /\ exists before after,
           meta = before ++ lit "file=" ++ name ++ after
           /\ at_stop after = true
           /\ forall before' after' : jsstring,
                meta = before' ++ lit "file=" ++ after' ->
                (List.length before' < List.length before)%nat ->
                at_stop after' = true
  | None =>
      forall before' after' : jsstring,
        meta = before' ++ lit "file=" ++ after' -> at_stop after' = true
  end.
Proof.
  induction meta as [|x meta IH].
  - cbn [match_file]. intros [|y before'] after' H; discriminate H.
  - assert (Hhere : forall after' : jsstring,
              x :: meta = lit "file=" ++ after' ->
              skipn 5 (x :: meta) = after').
    { intros after' ->. reflexivity. }
    assert (Hskip :
              match match_file meta with
              | Some name =>
                  name <> []
                  /\ forallb (fun y => negb (is_ws y)) name = true
                  /\ exists before after,
                       x :: meta = before ++ lit "file=" ++ name ++ after
                       /\ at_stop after = true
                       /\ forall before' after' : jsstring,
                            x :: meta = before' ++ lit "file=" ++ after' ->
                            before' <> [] ->
                            (List.length before' < List.length before)%nat ->
                            at_stop after' = true
              | None =>
                  forall before' after' : jsstring,
                    x :: meta = before' ++ lit "file=" ++ after' ->
                    before' <> [] -> at_stop after' = true
              end).
    { destruct (match_file meta) as [name|].
      - destruct IH as (H1 & H2 & before & after & H3 & H4 & H5).
        split; [exact H1|]. split; [exact H2|].
        exists (x :: before), after. split; [now rewrite H3|].
        split; [exact H4|].
        intros [|y before'] after' Heq Hne Hlen; [now elim Hne|].
        inversion Heq as [[Hy Hm]]. apply (H5 before' after' Hm).
        simpl in Hlen. lia.
      - intros [|y before'] after' Heq Hne; [now elim Hne|].
        inversion Heq as [[Hy Hm]]. now apply (IH before' after'). }
    cbn [match_file].
    destruct (startsWith (x :: meta) (lit "file=")) eqn:E.
    + destruct (takeWhile (fun y => negb (is_ws y)) (skipn 5 (x :: meta)))
        as [|y taken] eqn:Et.
      * apply takeWhile_nil_stop in Et.
        destruct (match_file meta) as [name|].
        -- destruct Hskip as (H1 & H2 & before & after & H3 & H4 & H5).
           split; [exact H1|]. split; [exact H2|].
           exists before, after. split; [exact H3|]. split; [exact H4|].
           intros [|z before'] after' Heq Hlen.
           ++ now rewrite <- (Hhere after' Heq).
           ++ apply (H5 (z :: before') after' Heq); [discriminate | exact Hlen].
        -- intros [|z before'] after' Heq.
           ++ now rewrite <- (Hhere after' Heq).
           ++ apply (Hskip (z :: before') after' Heq). discriminate.
      * destruct (takeWhile_spec (fun y => negb (is_ws y)) (skipn 5 (x :: meta)))
          as (Hall & rest & Hrest & Hhead).
        rewrite Et in Hall, Hrest.
        split; [discriminate|]. split; [exact Hall|].
        exists [], rest. split; [|split].
        -- apply startsWith_prefix in E. rewrite E at 1.
           change (List.length (lit "file=")) with 5%nat. now rewrite Hrest.
        -- destruct rest; [reflexivity|]. now apply negb_false_iff.
        -- intros before' after' _ Hlen. simpl in Hlen. lia.
    + assert (Hnot : forall after' : jsstring,
                x :: meta <> lit "file=" ++ after').
      { intros after' Heq. rewrite Heq in E.
        rewrite (startsWith_refl_app (lit "file=") after') in E.
        discriminate E. }
      destruct (match_file meta) as [name|].
      * destruct Hskip as (H1 & H2 & before & after & H3 & H4 & H5).
        split; [exact H1|]. split; [exact H2|].
        exists before, after. split; [exact H3|]. split; [exact H4|].
        intros [|z before'] after' Heq Hlen.
        -- now elim (Hnot after').
        -- apply (H5 (z :: before') after' Heq); [discriminate | exact Hlen].
      * intros [|z before'] after' Heq.
        -- now elim (Hnot after').
        -- apply (Hskip (z :: before') after' Heq). discriminate.
Qed.

Lemma includes_char_false (c : char) (s : jsstring) :
  ~ In c s -> CodeMeta.includes s [c] = false.
Proof.
  intros H. destruct (CodeMeta.includes s [c]) eqn:E; [|reflexivity].
  apply includes_char in E. contradiction.
Qed.

Lemma class_info (info : jsstring) :
  startsWith (lit "language-" ++ info) (lit "language-") = true
  /\ replace_first (lit "language-") [] (lit "language-" ++ info) = info.
Proof.
  split; [apply startsWith_refl_app|]. now rewrite replace_first_prefix.
Qed.

(** X18. The class name of a code block.  [language-] followed by a
    language, a colon and a file name, neither holding a colon, gives that
    language and that file name, whatever the meta text.  Without a colon
    and with a dot, it gives the whole as file name and as language what
    follows the last dot. *)
Theorem parseCodeMeta_reads_class_name (meta : option jsstring) :
  (forall lang file : jsstring,
     ~ In 58%N lang -> ~ In 58%N file -> file <> [] ->
     parseCodeMeta (Some (lit "language-" ++ lang ++ lit ":" ++ file)) meta
     = mkCodeMeta lang file)
  /\ (forall info : jsstring,
        ~ In 58%N info -> In 46%N info ->
        let parsed := parseCodeMeta (Some (lit "language-" ++ info)) meta in
        filename parsed = info
        /\ ~ In 46%N (language parsed)
        /\ exists stem, info = stem ++ 46%N :: language parsed).
Proof.
  split.
  - intros lang file Hlang Hfile Hne. unfold parseCodeMeta.
    destruct (class_info (lang ++ lit ":" ++ file)) as [-> ->].
    match goal with
    | |- context [CodeMeta.includes ?a ?b] =>
        replace (CodeMeta.includes a b) with true
          by (symmetry; apply (includes_char 58%N); apply in_or_app; right;
              now left)
    end.
    match goal with
    | |- context [split ?a ?b] =>
        replace (split a b) with [lang; file]
          by (symmetry; unfold split;
              etransitivity;
              [apply (split_char_app 58%N lang file Hlang)
              | now rewrite (split_char_none 58%N file Hfile)])
    end.
    cbn [nth filename language].
    destruct file as [|x file]; [contradiction|].
    now destruct meta.
  - intros info Hcolon Hdot. unfold parseCodeMeta.
    destruct (class_info info) as [-> ->].
    replace (CodeMeta.includes info (lit ":")) with false
      by (symmetry; apply (includes_char_false 58%N info Hcolon)).
    replace (CodeMeta.includes info (lit ".")) with true
      by (symmetry; now apply (includes_char 46%N info)).
    cbn [filename language].
    assert (Hparsed :
      match meta with
      | Some text =>
          if str_empty info && negb (str_empty text)
          then match match_file text with
               | Some name => mkCodeMeta (pop (split info (lit "."))) name
               | None => mkCodeMeta (pop (split info (lit "."))) info
               end
          else mkCodeMeta (pop (split info (lit "."))) info
      | None => mkCodeMeta (pop (split info (lit "."))) info
      end = mkCodeMeta (pop (split info (lit "."))) info).
    { destruct info as [|x info]; [contradiction|]. now destruct meta. }
    rewrite Hparsed. cbn [filename language]. unfold pop, split.
    split; [reflexivity|]. split.
    + apply (split_char_last_clean 46%N).
    + now apply (split_char_last_suffix 46%N).
Qed.

(** X19. The file name taken from the meta text.  When the class name gives
    no file name (it is absent, does not start with [language-], or names a
    language without colon or dot), the file name is the one found in the
    meta text, if any, and the language is as the class name gives it.  A
    file name found in the meta text is not empty, holds no white space, and
    stands in the text right after the first [file=] that a character other
    than white space follows, up to the next white space.  None is found
    only when white space or the end of the text follows every [file=]. *)
Theorem parseCodeMeta_reads_meta (meta : option jsstring) :
  let found :=
    match meta with
    | Some text =>
        match match_file text with
        | Some name => name
        | None => []
        end
    | None => []
    end in
  parseCodeMeta None meta = mkCodeMeta [] found
  /\ (forall name, startsWith name (lit "language-") = false ->
        parseCodeMeta (Some name) meta = mkCodeMeta [] found)
  /\ (forall info : jsstring, ~ In 58%N info -> ~ In 46%N info ->
        parseCodeMeta (Some (lit "language-" ++ info)) meta
        = mkCodeMeta info found)
  /\ (found <> [] ->
      forallb (fun x => negb (is_ws x)) found = true
      /\ exists text before after,
           meta = Some text
           /\ text = before ++ lit "file=" ++ found ++ after
           /\ at_stop after = true
           /\ forall before' after' : jsstring,
                text = before' ++ lit "file=" ++ after' ->
                (List.length before' < List.length before)%nat ->
                at_stop after' = true)
  /\ (found = [] ->
      forall text (before' after' : jsstring),
        meta = Some text ->
        text = before' ++ lit "file=" ++ after' ->
        at_stop after' = true).
Proof.
  assert (Hfall : forall lang,
    match meta with
    | Some text =>
        if str_empty (filename (mkCodeMeta lang []))
           && negb (str_empty text)
        then match match_file text with
             | Some name => mkCodeMeta (language (mkCodeMeta lang [])) name
             | None => mkCodeMeta lang []
             end
        else mkCodeMeta lang []
    | None => mkCodeMeta lang []
    end
    = mkCodeMeta lang
        match meta with
        | Some text => match match_file text with
                       | Some name => name
                       | None => []
                       end
        | None => []
        end).
  { intros lang. destruct meta as [text|]; [|reflexivity].
    cbn [filename language str_empty andb].
    destruct text as [|x text]; [reflexivity|].
    cbn [str_empty negb].
    now destruct (match_file (x :: text)). }
  cbv zeta. split; [|split; [|split; [|split]]].
  - unfold parseCodeMeta. apply Hfall.
  - intros name Hname. unfold parseCodeMeta. rewrite Hname. apply Hfall.
  - intros info Hcolon Hdot. unfold parseCodeMeta.
    destruct (class_info info) as [-> ->].
    replace (CodeMeta.includes info (lit ":")) with false
      by (symmetry; apply (includes_char_false 58%N info Hcolon)).
    replace (CodeMeta.includes info (lit ".")) with false
      by (symmetry; apply (includes_char_false 46%N info Hdot)).
    apply Hfall.
  - intros Hne. destruct meta as [text|]; [|now elim Hne].
    assert (Hspec := match_file_spec text).
    destruct (match_file text) as [name|]; [|now elim Hne].
    destruct Hspec as (_ & Hall & before & after & Ht & Ha & Hfirst).
    split; [exact Hall|]. exists text, before, after. now repeat split.
  - intros Hnone text before' after' -> Heq.
    assert (Hspec := match_file_spec text).
    destruct (match_file text) as [name|].
    + destruct Hspec as (Hname & _). now elim Hname.
    + now apply (Hspec before' after').
Qed.

(** ** Further properties: the beginning of a turn *)

Section SendFacts.

Lemma buildContext_users (messages : list Message) modelId providerId :
  filter (fun m => role_eqb (msg_role m) user)
    (buildContext messages modelId providerId)
  = filter (fun m => role_eqb (msg_role m) user) messages.
Proof.
  unfold buildContext. induction messages as [|m l IH]; simpl; [reflexivity|].
  unfold keep_in_context at 1. destruct (msg_role m) eqn:E; simpl.
  - rewrite E. simpl. now rewrite IH.
  - destruct (modelId_is (msg_modelId m) modelId
              && providerId_is (msg_providerId m) providerId); simpl;
      rewrite ?E; simpl; exact IH.
Qed.

Lemma strip_interim_blank (input : jsstring) :
  forallb is_ws input = true -> strip_interim input = input.
Proof.
  induction input as [|c rest IH]; simpl; [reflexivity|].
  intros H. apply andb_true_iff in H as [Hc Hrest].
  destruct (N.eqb c 8203) eqn:E.
  - apply N.eqb_eq in E. subst c. discriminate Hc.
  - simpl. now rewrite IH.
Qed.

Lemma trimStart_blank (s : jsstring) : forallb is_ws s = true -> trimStart s = [].
Proof.
  induction s as [|c rest IH]; simpl; [reflexivity|].
  intros H. apply andb_true_iff in H as [Hc Hrest]. rewrite Hc. now apply IH.
Qed.

End SendFacts.

(** X20. The context of a task ends with the user message of the turn,
    after the context built from the messages before; every model is sent
    every user message of the conversation, in order; and every message
    sent is the user message or a message from before the turn. *)
Theorem contextMessages_ends_with_user_message (baseMessages : list Message)
    (id trimmed : jsstring) (now : Z) (attachments : list Attachment)
    (modelId : jsstring) (providerId : ProviderId) :
  let sent := userMessage id trimmed now attachments in
  contextMessages baseMessages sent modelId providerId
  = buildContext baseMessages modelId providerId ++ [sent]
  /\ filter (fun m => role_eqb (msg_role m) user)
       (contextMessages baseMessages sent modelId providerId)
     = filter (fun m => role_eqb (msg_role m) user) baseMessages ++ [sent]
  /\ (forall m, In m (contextMessages baseMessages sent modelId providerId) ->
        m = sent \/ In m baseMessages).
Proof.
  cbv zeta. unfold contextMessages.
  assert (H : buildContext
                (baseMessages ++ [userMessage id trimmed now attachments])
                modelId providerId
              = buildContext baseMessages modelId providerId
                ++ [userMessage id trimmed now attachments]).
  { unfold buildContext. now rewrite filter_app. }
  split; [exact H|]. split.
  - rewrite buildContext_users, filter_app. reflexivity.
  - intros m Hm. rewrite H in Hm. apply in_app_or in Hm as [Hm|[Hm|[]]].
    + right. unfold buildContext in Hm. now apply filter_In in Hm.
    + now left.
Qed.

(** X21. [sendMessage] dispatches only with an active conversation and an
    available model, and only a text that is not empty or some attachment;
    the text dispatched is the input without its interim part, trimmed, so
    without white space at either end.  An input of white space alone,
    without attachment, is ignored.  The user message goes last in the
    conversation, whose title is the first forty code units of the text if
    it had no message, and is kept otherwise. *)
Theorem sendMessage_sends_content (Model : Type) (active : option Conversation)
    (input : jsstring) (attachments : list Attachment)
    (availableModels : list Model) :
  (forall trimmed,
     decide_send active input attachments availableModels = Dispatch trimmed ->
     active <> None /\ availableModels <> []
     /\ (trimmed <> [] \/ attachments <> [])
     /\ trimmed = trim (strip_interim input)
     /\ edge_ws trimmed = false)
  /\ (active <> None -> forallb is_ws input = true -> attachments = [] ->
      decide_send active input attachments availableModels = Ignore)
  /\ (forall message trimmed now conversation,
        conv_messages (append_user message trimmed now conversation)
        = conv_messages conversation ++ [message]
        /\ conv_id (append_user message trimmed now conversation)
           = conv_id conversation
        /\ (conv_messages conversation = [] ->
            conv_title (append_user message trimmed now conversation)
            = firstn 40 trimmed
            /\ (List.length
                  (conv_title (append_user message trimmed now conversation))
                <= 40)%nat)
        /\ (conv_messages conversation <> [] ->
            conv_title (append_user message trimmed now conversation)
            = conv_title conversation)).
Proof.
  split; [|split].
  - intros trimmed. unfold decide_send.
    destruct active as [conversation|]; [|discriminate].
    destruct (str_empty (trim (strip_interim input))
              && Nat.eqb (List.length attachments) 0) eqn:E; [discriminate|].
    destruct availableModels as [|model models]; [discriminate|].
    simpl. intros H. inversion H; subst trimmed. clear H.
    split; [discriminate|]. split; [discriminate|]. split.
    + apply andb_false_iff in E as [E|E].
      * left. now destruct (trim (strip_interim input)).
      * right. now destruct attachments.
    + split; [reflexivity | apply trim_edges].
  - intros Hactive Hblank ->. unfold decide_send.
    destruct active as [conversation|]; [|now elim Hactive].
    rewrite (strip_interim_blank input Hblank). unfold trim.
    rewrite (trimStart_blank input Hblank). reflexivity.
  - intros message trimmed now conversation. unfold append_user.
    cbn [conv_messages conv_id conv_title].
    split; [reflexivity|]. split; [reflexivity|]. split.
    + intros ->. cbn [List.length Nat.eqb].
      split; [reflexivity | apply firstn_le_length].
    + intros Hne. now destruct (conv_messages conversation).
Qed.

(** ** Instances of the further properties *)

Ltac absent := simpl; intuition discriminate.

Lemma rename_keeps_names_trimmed_witness :
  renameProject (lit "p1") (lit "  Plans ") Cases.projects
  = [mkProject (lit "p1") (lit "Plans"); mkProject (lit "p2") (lit "Home")]
  /\ (exists p', nth_error (renameProject (lit "p1") (lit "  Plans ")
                             Cases.projects) 0 = Some p'
                  /\ p' = mkProject (lit "p1") (lit "Plans"))
  /\ renameConversation (lit "c1") (lit "   ") Samples.app = Samples.app.
Proof.
  split; [reflexivity|]. split.
  - destruct (rename_keeps_names_trimmed (lit "p1") (lit "  Plans "))
      as (_ & _ & Hp).
    destruct (Hp Cases.projects) as (_ & _ & Hnth).
    destruct (Hnth 0%nat (mkProject (lit "p1") (lit "Work")) eq_refl)
      as (p' & Hp' & _ & Hrenamed).
    exists p'. split; [exact Hp'|].
    apply Hrenamed; [reflexivity|]. vm_compute. discriminate.
  - destruct (rename_keeps_names_trimmed (lit "c1") (lit "   "))
      as (_ & Hc & _).
    exact (proj1 (Hc Samples.app) eq_refl).
Defined.

Lemma deleteChat_leaves_no_dangling_active_witness :
  deleteChat (lit "c1") (Cases.both ++ [Cases.later]) (Some (lit "c1"))
  = ([Cases.archived; Cases.later], Some (lit "c2"))
  /\ snd (deleteChat (lit "c1") (Cases.both ++ [Cases.later]) (Some (lit "c1")))
     = option_map conv_id
         (hd_error (fst (deleteChat (lit "c1") (Cases.both ++ [Cases.later])
                           (Some (lit "c1"))))).
Proof.
  split; [reflexivity|].
  destruct (deleteChat_leaves_no_dangling_active (lit "c1")
              (Cases.both ++ [Cases.later]) (Some (lit "c1")))
    as (_ & _ & _ & Hactive & _).
  exact (proj1 (Hactive eq_refl)).
Defined.

Lemma deleteProject_unassigns_witness :
  deleteProject (lit "p1") Cases.projects Cases.both
  = ([mkProject (lit "p2") (lit "Home")],
     [Samples.conversation;
      mkConversation (lit "c2") (lit "Notes") [Samples.question] 0 (Some None)])
  /\ nth_error (snd (deleteProject (lit "p1") Cases.projects Cases.both)) 0
     = Some Samples.conversation.
Proof.
  split; [reflexivity|].
  apply (proj2 (proj2 (proj2 (proj2 (proj2
           (deleteProject_unassigns (lit "p1") Cases.projects Cases.both)))))
           0%nat Samples.conversation eq_refl).
  discriminate.
Defined.

Lemma removeAttachment_removes_one_witness :
  (1 < List.length Cases.files)%nat
  /\ S (List.length (removeAttachment 1 Cases.files)) = List.length Cases.files
  /\ removeAttachment 5 Cases.files = Cases.files.
Proof.
  assert (H : (1 < List.length Cases.files)%nat) by (simpl; lia).
  split; [exact H|]. split.
  - exact (proj2 (proj2 (removeAttachment_removes_one 1 Cases.files)) H).
  - apply (proj1 (proj2 (removeAttachment_removes_one 5 Cases.files))).
    simpl. lia.
Defined.

Lemma onTokens_appends_in_order_witness :
  conversations
    (onTokens (lit "c1") (lit "m2") [(lit " Hel", 7%Z); (lit "lo", 9%Z)]
       Samples.app)
  = [mkConversation (lit "c1") (lit "New Chat 1")
       [Samples.question;
        Samples.message (lit "m2") assistant (lit "from a Hello")
          (Some (lit "model-a")) (Some openrouter) (Some true);
        Samples.answer_b]
       9 (Some None)]
  /\ abortControllers
       (onTokens (lit "c1") (lit "m2") [(lit " Hel", 7%Z); (lit "lo", 9%Z)]
          Samples.app)
     = abortControllers Samples.app.
Proof.
  split; [reflexivity|].
  apply (onTokens_appends_in_order (lit "c1") (lit "m2")
           [(lit " Hel", 7%Z); (lit "lo", 9%Z)] Samples.app).
  discriminate.
Defined.

Lemma cited_app_unique : all_unique_sources Cases.cited_app.
Proof.
  intros c m [<-|[]] [<-|[<-|[]]]; unfold unique_sources; simpl; [exact I|].
  repeat constructor; absent.
Defined.

Lemma supervisor_keeps_sources_unique_witness :
  all_unique_sources Cases.cited_app
  /\ all_unique_sources
       (onAnnotations (lit "c1") (lit "m2") Cases.annotations 3 Cases.cited_app).
Proof.
  split; [exact cited_app_unique|].
  apply (supervisor_keeps_sources_unique Cases.cited_app cited_app_unique).
Defined.

Lemma onAnnotations_merges_once_witness :
  map msg_sources
    (List.concat
       (map conv_messages
          (conversations
             (onAnnotations (lit "c1") (lit "m2") Cases.annotations 3
                Cases.cited_app))))
  = [None;
     Some [Samples.untitled; Samples.other;
           Samples.cite (lit "https://z.net") (Some (lit "Z")) None]]
  /\ exists sources,
       Some [Samples.untitled; Samples.other;
             Samples.cite (lit "https://z.net") (Some (lit "Z")) None]
       = Some sources
       /\ NoDup (map url sources)
       /\ (forall c, In c (extractSources Cases.annotations) ->
           In (url c) (map url sources)).
Proof.
  split; [reflexivity|].
  apply (proj1 (proj2 (onAnnotations_merges_once (lit "c1") (lit "m2")
                         Cases.annotations Cases.cited_app))
           ltac:(discriminate) 3%Z
           (mkConversation (lit "c1") (lit "New Chat 1")
              [Samples.question;
               with_sources Cases.cited (extractSources Cases.annotations)]
              3 (Some None))
           (with_sources Cases.cited (extractSources Cases.annotations))).
  - simpl. now left.
  - simpl. right. now left.
  - reflexivity.
  - reflexivity.
Defined.

Lemma finish_task_settles_own_message_witness :
  conversations
    (finish_task (lit "c1") (lit "m2")
       (Rejected (ErrorObject (lit "Missing API key for provider."))) 4
       Samples.app)
  = [mkConversation (lit "c1") (lit "New Chat 1")
       [Samples.question;
        Samples.message (lit "m2") assistant
          (lit "Error: Missing API key for provider.")
          (Some (lit "model-a")) (Some openrouter) (Some false);
        Samples.answer_b]
       4 (Some None)]
  /\ exists conversation' message',
       nth_error
         (conversations
            (finish_task (lit "c1") (lit "m2")
               (Rejected (ErrorObject (lit "Missing API key for provider."))) 4
               Samples.app)) 0
       = Some conversation'
       /\ nth_error (conv_messages conversation') 2 = Some message'
       /\ message' = Samples.answer_b.
Proof.
  split; [reflexivity|].
  destruct (proj1 (finish_task_settles_own_message (lit "c1") (lit "m2")
                     (Rejected (ErrorObject (lit "Missing API key for provider.")))
                     4 Samples.app)
              0%nat Samples.conversation 2%nat Samples.answer_b
              eq_refl eq_refl)
    as (c' & m' & H1 & _ & H3 & H4 & _).
  exists c', m'. split; [exact H1|]. split; [exact H3|].
  apply H4. right. discriminate.
Defined.

Lemma read_failure_keeps_events_witness :
  let abort := DomException (lit "AbortError") (lit "The user aborted a request.") in
  read_loop Utf8.decode_byte (openai_part Samples.parse true true)
    (map Chunk [firstn 60 Samples.stream_bytes] ++ ReadFailure abort :: [])
    Utf8.init []
  = mkResult [Samples.token_frame] [Token (JStr Samples.token_text)]
      (Rejected abort) [].
Proof.
  intros abort.
  destruct (read_failure_keeps_events Utf8.State Utf8.decode_byte
              (openai_part Samples.parse true true)
              [firstn 60 Samples.stream_bytes] abort [] Utf8.init [])
    as (Hparts & Hevents & Hdone & _).
  destruct (Hdone eq_refl) as [Hout Hunread].
  destruct (read_loop Utf8.decode_byte (openai_part Samples.parse true true)
              (map Chunk [firstn 60 Samples.stream_bytes]
               ++ ReadFailure abort :: []) Utf8.init [])
    as [parts evs out rest].
  simpl in Hparts, Hevents, Hout, Hunread. subst. reflexivity.
Defined.

Lemma unterminated_tail_is_dropped_witness :
  summary
    (read_loop Utf8.decode_byte (openai_part Samples.parse true true)
       (map Chunk [Utf8.encode Samples.token_frame]) Utf8.init [])
  = ([], [], Done).
Proof.
  apply (proj2 (proj2 (unterminated_tail_is_dropped Utf8.State Utf8.decode_byte
                         (openai_part Samples.parse true true) Utf8.init
                         [Utf8.encode Samples.token_frame]))).
  reflexivity.
Defined.


Lemma tasks_have_keys_witness :
  modelsToRun Cases.settings true
    [lit "openrouter/openai/gpt-5.2-chat"; lit "openrouter/openai/gpt-5-image"]
    (lit "none")
  = [lit "openrouter/openai/gpt-5.2-chat"]
  /\ exists model,
       task_model Cases.settings (lit "none")
         (lit "openrouter/openai/gpt-5.2-chat") = Some model
       /\ keys Cases.settings (model_providerId model) <> [].
Proof.
  split; [reflexivity|].
  destruct (tasks_have_keys Utf8.State Utf8.init Utf8.decode_byte Samples.parse
              (fun _ => inl OtherValue) Cases.settings true
              [lit "openrouter/openai/gpt-5.2-chat";
               lit "openrouter/openai/gpt-5-image"]
              (lit "none") (lit "openrouter/openai/gpt-5.2-chat")
              (or_introl eq_refl))
    as (model & Htask & _ & _ & _ & Hkey & _).
  exists model. now split.
Defined.

Lemma addCustomModel_round_trip_witness :
  exists settings',
    addCustomModel (lit " google/gemini-2.5-pro ") Cases.settings
    = Some (settings', [])
    /\ exists model,
         allModels settings' = allModels Cases.settings ++ [model]
         /\ model_id model = lit "openrouter/google/gemini-2.5-pro"
         /\ model_label model = lit "Gemini 2.5 Pro"
         /\ requestModel model = lit "google/gemini-2.5-pro".
Proof.
  destruct (addCustomModel (lit " google/gemini-2.5-pro ") Cases.settings)
    as [[settings' input']|] eqn:E; [|discriminate E].
  destruct (addCustomModel_round_trip (lit " google/gemini-2.5-pro ")
              Cases.settings settings' input' E) as [_ H].
  destruct (H ltac:(discriminate)) as (Hinput & _ & _ & Hnew & _).
  destruct (Hnew ltac:(absent)) as (model & Hall & Hid & _).
  exists settings'. subst input'. split; [reflexivity|].
  exists model. split; [exact Hall|].
  inversion E; subst settings'.
  unfold allModels, custom_or_empty in Hall. cbn [customModels Cases.settings] in Hall.
  apply app_inv_head in Hall. inversion Hall; subst model.
  repeat split; reflexivity.
Defined.

Lemma toggleCompareModel_keeps_a_selection_witness :
  toggleCompareModel (Some (plain_model (lit "a") (lit "A"))) (lit "b")
    (toggleCompareModel (Some (plain_model (lit "a") (lit "A"))) (lit "b")
       [lit "a"])
  = [lit "a"]
  /\ toggleCompareModel (Some (plain_model (lit "b") (lit "B"))) (lit "a")
       [lit "a"]
     = [lit "b"].
Proof.
  split.
  - apply (proj2 (proj2 (proj2 (proj2
             (toggleCompareModel_keeps_a_selection
                (Some (plain_model (lit "a") (lit "A"))) (lit "b") [lit "a"])))));
      [reflexivity | discriminate].
  - apply (proj1 (proj2 (proj2
             (toggleCompareModel_keeps_a_selection
                (Some (plain_model (lit "b") (lit "B"))) (lit "a") [lit "a"]))));
      [reflexivity|].
    intros other H. cbn [mem] in H. rewrite orb_false_r in H.
    now apply str_eqb_eq in H.
Defined.

Lemma setEnabled_offers_witness :
  exists settings',
    setEnabled (lit "openrouter/openai/gpt-5.2-chat") false Cases.settings
    = Some settings'
    /\ map model_id (availableModels settings')
       = [lit "openrouter/google/nano-banana-pro"]
    /\ forall model, In model (availableModels settings') ->
                     model_id model <> lit "openrouter/openai/gpt-5.2-chat".
Proof.
  eexists. split; [reflexivity|]. split; [reflexivity|].
  destruct (setEnabled_offers (lit "openrouter/openai/gpt-5.2-chat")
              false Cases.settings _ eq_refl)
    as (enabled & Hen & _ & _ & _ & _ & _ & Hoff & _).
  injection Hen as <-.
  destruct Hoff as (_ & Hoff & _); [reflexivity| |exact Hoff].
  exists (lit "openrouter/google/nano-banana-pro").
  split; [reflexivity | discriminate].
Defined.

Lemma grouped_partitions_witness :
  groupedEntries Cases.picked
  = [(openrouter, [plain_model (lit "openrouter/x") (lit "X")]);
     (openai, [mkModel (lit "gpt") (lit "GPT") openai None None;
               mkModel (lit "gpt-mini") (lit "GPT mini") openai None None]);
     (anthropic, [mkModel (lit "claude") (lit "Claude") anthropic None None])]
  /\ exists group,
       In (openai, group) (groupedEntries Cases.picked)
       /\ In (mkModel (lit "gpt-mini") (lit "GPT mini") openai None None) group.
Proof.
  split; [reflexivity|].
  apply (proj1 (proj2 (proj2 (grouped_partitions Cases.picked)))
           (mkModel (lit "gpt-mini") (lit "GPT mini") openai None None)).
  simpl. tauto.
Defined.

Lemma parseCodeMeta_reads_class_name_witness :
  parseCodeMeta (Some (lit "language-ts:src/app.ts")) (Some (lit "file=other.ts"))
  = mkCodeMeta (lit "ts") (lit "src/app.ts")
  /\ parseCodeMeta (Some (lit "language-vite.config.ts")) None
     = mkCodeMeta (lit "ts") (lit "vite.config.ts").
Proof.
  split; [|reflexivity].
  apply (proj1 (parseCodeMeta_reads_class_name (Some (lit "file=other.ts")))
           (lit "ts") (lit "src/app.ts")); absent.
Defined.

Lemma parseCodeMeta_reads_meta_witness :
  parseCodeMeta (Some (lit "language-python"))
    (Some (lit "title file= x file=a.py file=b.py {1,2}"))
  = mkCodeMeta (lit "python") (lit "a.py")
  /\ forallb (fun x => negb (is_ws x)) (lit "a.py") = true.
Proof.
  destruct (parseCodeMeta_reads_meta
              (Some (lit "title file= x file=a.py file=b.py {1,2}")))
    as (_ & _ & Hplain & Hfound & _).
  split.
  - apply (Hplain (lit "python")); absent.
  - apply Hfound. discriminate.
Defined.

Lemma contextMessages_ends_with_user_message_witness :
  contextMessages Samples.log
    (userMessage (lit "m4") (lit "again") 5 []) (lit "model-b") openrouter
  = [Samples.question; Samples.answer_b;
     userMessage (lit "m4") (lit "again") 5 []]
  /\ (Samples.answer_b = userMessage (lit "m4") (lit "again") 5 []
      \/ In Samples.answer_b Samples.log).
Proof.
  split; [reflexivity|].
  apply (proj2 (proj2 (contextMessages_ends_with_user_message Samples.log
                         (lit "m4") (lit "again") 5 [] (lit "model-b")
                         openrouter))).
  simpl. right. now left.
Defined.

Lemma sendMessage_sends_content_witness :
  decide_send (Some Samples.conversation)
    (lit "  hi there " ++ 8203%N :: lit "interim words")
    [] Cases.picked
  = Dispatch (lit "hi there")
  /\ edge_ws (lit "hi there") = false
  /\ decide_send (Some Samples.conversation) (lit "   ") [] Cases.picked = Ignore.
Proof.
  destruct (sendMessage_sends_content ModelItem (Some Samples.conversation)
              (lit "  hi there " ++ 8203%N :: lit "interim words")
              [] Cases.picked) as (Hsend & _ & _).
  destruct (sendMessage_sends_content ModelItem (Some Samples.conversation)
              (lit "   ") [] Cases.picked) as (_ & Hblank & _).
  split; [reflexivity|]. split.
  - apply (Hsend (lit "hi there") eq_refl).
  - apply Hblank; [discriminate | reflexivity | reflexivity].
Defined.
